(** * anyrl/algos/mpi.py: distributed training with MPI

    A shallow embedding of [MPIOptimizer], [_VarSync] and [mpi_ppo].

    Every process runs the same Python code; what differs from one process to
    the next is its rank, its TensorFlow session and the data it is fed.  A
    process is therefore a program over the collective calls it issues
    ([Allreduce], [allreduce], [bcast]), and a run of the job executes the
    programs of all ranks in lockstep: a collective returns once every rank
    has entered the same collective.

    NumPy arithmetic, the order in which the MPI library adds the
    contributions to a reduction, the TensorFlow runtime and the wrapped
    optimizer are collaborators of the module.  They are interfaces here
    ([Arith], [Reduction], [TensorFlow], [Optimizer]); IEEE-754 arithmetic on
    [spec_float] is the instance used to run the model on concrete data. *)

From Stdlib Require Import ZArith List Bool Lia String.
From Stdlib Require Import Floats.SpecFloat.
From stdpp Require Import base option list gmap.

Local Open Scope Z_scope.

(** ** NumPy arrays *)

(** The dtypes a gradient or a scalar term can have. *)
Variant dtype := float16 | float32 | float64 | int32 | int64.

Definition floating (d : dtype) : bool :=
  match d with
  | float16 | float32 | float64 => true
  | int32 | int64 => false
  end.

#[global] Instance dtype_eq_dec : EqDecision dtype.
Proof. solve_decision. Defined.

(** Scalar arithmetic of array elements.  Every operation names the dtype it
    is carried out in. *)
Class Arith := {
  scalar : Type;
  (** conversion of a value to a dtype: [np.array(x, dtype=d)] *)
  cast : dtype -> scalar -> scalar;
  (** the element [np.zeros] fills an array with *)
  zero : dtype -> scalar;
  (** [x + y], also the [MPI.SUM] of two contributions *)
  add : dtype -> scalar -> scalar -> scalar;
  (** [x / n] for a Python int [n] *)
  div_int : dtype -> scalar -> Z -> scalar;
  (** [-x] *)
  neg : scalar -> scalar;
  (** [math.isnan(x)] *)
  is_nan : scalar -> bool;
  (** [math.isfinite(x)] *)
  is_finite : scalar -> bool;
  (** [x] is a value of dtype [d] *)
  well_formed : dtype -> scalar -> Prop
}.


(** A conversion to the dtype a value already has is a copy. *)
Class CastExact `{Arith} : Prop := {
  cast_exact d x : well_formed d x -> cast d x = x
}.

Record ndarray `{Arith} := {
  dtype_of : dtype;
  shape : list nat;
  data : list scalar
}.

Section NumPy.
Context `{Arith}.

(** [np.zeros(shape, dtype=d)] *)
Definition np_zeros (sh : list nat) (d : dtype) : ndarray :=
  {| dtype_of := d; shape := sh; data := replicate (foldr Nat.mul 1%nat sh) (zero d) |}.

(** [np.array(a, dtype=d)]: a copy of [a] converted to [d]. *)
Definition np_array (a : ndarray) (d : dtype) : ndarray :=
  {| dtype_of := d; shape := shape a; data := cast d <$> data a |}.

(** [a /= n] for a Python int [n]: NumPy writes the quotients into [a],
    which keeps its dtype. *)
Definition true_divide (a : ndarray) (n : Z) : ndarray :=
  {| dtype_of := dtype_of a; shape := shape a;
     data := (fun x => div_int (dtype_of a) x n) <$> data a |}.

(** [np.promote_types]: the dtype in which values of two dtypes combine. *)
Definition promote_types (d1 d2 : dtype) : dtype :=
  match d1, d2 with
  | float16, float16 => float16
  | float16, float32 | float32, float16 | float32, float32 => float32
  | int32, int32 => int32
  | int32, int64 | int64, int32 | int64, int64 => int64
  | _, _ => float64
  end.

(** [a + b], element by element, for arrays of one shape: in their dtype
    when they have the same, and else in the dtype they promote to, to
    which both are converted. *)
Definition ndarray_add (a b : ndarray) : ndarray :=
  if decide (dtype_of a = dtype_of b) then
    {| dtype_of := dtype_of a; shape := shape a;
       data := zip_with (add (dtype_of a)) (data a) (data b) |}
  else
    let d := promote_types (dtype_of a) (dtype_of b) in
    {| dtype_of := d; shape := shape a;
       data := zip_with (fun x y => add d (cast d x) (cast d y)) (data a) (data b) |}.

(** What a true division makes of its left operand: an array of integers is
    converted to float64, a floating-point array is taken as it is. *)
Definition as_float (a : ndarray) : ndarray :=
  if floating (dtype_of a) then a else np_array a float64.

(** [a / n] for a Python int [n]: a new array, of the dtype of [a] when it is
    a floating-point dtype and float64 when it is an integer dtype. *)
Definition quotient (a : ndarray) (n : Z) : ndarray :=
  true_divide (as_float a) n.

(** [float(a)] and [int(a)] take an array of one element only. *)
Definition item (a : ndarray) : option scalar :=
  match data a with
  | [x] => Some x
  | _ => None
  end.

(** [-a] *)
Definition negative (a : ndarray) : ndarray :=
  {| dtype_of := dtype_of a; shape := shape a; data := neg <$> data a |}.

(** What a collective leaves in a receive buffer: new contents, the buffer's
    own dtype and shape. *)
Definition with_data (buf : ndarray) (contents : list scalar) : ndarray :=
  {| dtype_of := dtype_of buf; shape := shape buf; data := contents |}.

(** Every element of [a] is a value of the dtype of [a]. *)
Definition well_formed_array (a : ndarray) : Prop :=
  Forall (well_formed (dtype_of a)) (data a).

End NumPy.

(** ** MPI *)

(** [MPI.COMM_WORLD] as one process sees it. *)
Record Comm := { Get_rank : nat; Get_size : nat }.

(** The collectives of [MPI.COMM_WORLD] the module calls. *)
Variant collective := MPI_Allreduce | MPI_allreduce | MPI_bcast.

(** [op=MPI.SUM] combines the contributions of the ranks two at a time.  MPI
    leaves to the implementation which two, and in what order.  A reduction
    holds its partial results in a list, the contributions in rank order to
    begin with; a step [(i, j)] of its schedule takes out the partial result
    at position [i], then the one at position [j] of what is left, and puts
    their combination in front.  A step that names a position that does not
    exist is skipped. *)
Fixpoint merge {X} (op : X -> X -> X) (steps : list (nat * nat)) (partial : list X)
  : list X :=
  match steps with
  | [] => partial
  | (i, j) :: steps =>
      match partial !! i, delete i partial !! j with
      | Some a, Some b => merge op steps (op a b :: delete j (delete i partial))
      | _, _ => merge op steps partial
      end
  end.

(** The partial results that are left when the schedule ends are combined
    from left to right: with no schedule, the contributions in rank order. *)
Definition reduce {X} (op : X -> X -> X) (steps : list (nat * nat))
    (contributions : list X) : option X :=
  match merge op steps contributions with
  | [] => None
  | x :: rest => Some (foldl op x rest)
  end.

(** The MPI library: the schedules it follows for a reduction, which may
    depend on what is contributed.  The buffers of [Allreduce] are reduced
    position by position, and the library may follow another schedule at
    each position (one that splits the buffers into chunks sends every chunk
    along its own route); the pickled objects of [allreduce] are combined
    whole. *)
Class Reduction `{Arith} := {
  buffer_schedule : list ndarray -> nat -> list (nat * nat);
  object_schedule : list ndarray -> list (nat * nat)
}.

Section MPI.
Context `{Arith}.
Context `{!Reduction}.

(** A process: the collectives it calls, each with the rest of the process
    as a function of what the collective returns.
    - [Allreduce sendbuf recvbuf]: the buffer collective; [recvbuf] comes back
      with new contents.
    - [allreduce sendobj]: the collective on pickled objects.
    - [bcast obj]: every rank returns the object passed on rank 0. *)
Inductive mpi (A : Type) : Type :=
  | Ret (a : A)
  | Raise (exc : string)
  | Allreduce (sendbuf recvbuf : ndarray) (k : ndarray -> mpi A)
  | allreduce (sendobj : ndarray) (k : ndarray -> mpi A)
  | bcast (obj : option ndarray) (k : option ndarray -> mpi A).

#[global] Arguments Ret {A} a.
#[global] Arguments Raise {A} exc.
#[global] Arguments Allreduce {A} sendbuf recvbuf k.
#[global] Arguments allreduce {A} sendobj k.
#[global] Arguments bcast {A} obj k.

Fixpoint bind {A B} (p : mpi A) (f : A -> mpi B) : mpi B :=
  match p with
  | Ret a => f a
  | Raise exc => Raise exc
  | Allreduce sendbuf recvbuf k => Allreduce sendbuf recvbuf (fun x => bind (k x) f)
  | allreduce sendobj k => allreduce sendobj (fun x => bind (k x) f)
  | bcast obj k => bcast obj (fun x => bind (k x) f)
  end.

(** [op=MPI.SUM] over the contributions of all ranks, in the order of the
    library's schedule: for [Allreduce] at every position of the buffer of
    rank 0 the sum of what the buffers hold there, for [allreduce] the sum
    of the objects by [+].  A communicator has at least one process, and the
    buffers of an [Allreduce] have one length, so the defaults do not
    arise. *)
Definition SUM (call : collective) (contributions : list ndarray) : ndarray :=
  match call with
  | MPI_Allreduce =>
      match contributions with
      | [] => np_zeros [] float32
      | sendbuf :: _ =>
          with_data sendbuf
            (imap (fun j _ =>
                     default (zero (dtype_of sendbuf))
                       (xs ← mapM (fun a => data a !! j) contributions;
                        reduce (add (dtype_of sendbuf))
                          (buffer_schedule contributions j) xs))
               (data sendbuf))
      end
  | _ =>
      default (np_zeros [] float32)
        (reduce ndarray_add (object_schedule contributions) contributions)
  end.

Definition at_Ret {A} (p : mpi A) : option A :=
  match p with Ret a => Some a | _ => None end.

Definition at_Allreduce {A} (p : mpi A)
  : option (ndarray * ndarray * (ndarray -> mpi A)) :=
  match p with Allreduce s r k => Some (s, r, k) | _ => None end.

Definition at_allreduce {A} (p : mpi A) : option (ndarray * (ndarray -> mpi A)) :=
  match p with allreduce s k => Some (s, k) | _ => None end.

Definition at_bcast {A} (p : mpi A)
  : option (option ndarray * (option ndarray -> mpi A)) :=
  match p with bcast o k => Some (o, k) | _ => None end.

(** Lockstep execution of rank 0 ([p0]) and the ranks after it.  [None]: some
    rank raised, or the ranks are not in the same collective and the job
    hangs. *)
Fixpoint run {A} (p0 : mpi A) (others : list (mpi A)) : option (list A) :=
  match p0 with
  | Ret a => rest ← mapM at_Ret others; Some (a :: rest)
  | Raise _ => None
  | Allreduce s r k =>
      calls ← mapM at_Allreduce others;
      let total := data (SUM MPI_Allreduce (s :: calls.*1.*1)) in
      run (k (with_data r total))
          ((fun c : ndarray * ndarray * (ndarray -> mpi A) =>
              c.2 (with_data c.1.2 total)) <$> calls)
  | allreduce s k =>
      calls ← mapM at_allreduce others;
      let total := SUM MPI_allreduce (s :: calls.*1) in
      run (k total) ((fun c : ndarray * (ndarray -> mpi A) => c.2 total) <$> calls)
  | bcast o k =>
      calls ← mapM at_bcast others;
      run (k o)
          ((fun c : option ndarray * (option ndarray -> mpi A) => c.2 o) <$> calls)
  end.

(** The job: one process per list entry, rank = position. *)
Definition mpirun {A} (processes : list (mpi A)) : option (list A) :=
  match processes with
  | [] => Some []
  | p0 :: others => run p0 others
  end.

(** Every rank with its view of the communicator. *)
Definition ranked {L} (locals : list L) : list (Comm * L) :=
  imap (fun r l => ({| Get_rank := r; Get_size := length locals |}, l)) locals.

(** The same [main] on every rank, each with its own local data. *)
Definition mpiexec {L A} (main : Comm -> L -> mpi A) (locals : list L)
  : option (list A) :=
  mpirun ((fun cl : Comm * L => main cl.1 cl.2) <$> ranked locals).

(** A collective call as it is issued. *)
Variant call :=
  | Call_Allreduce (sendbuf recvbuf : ndarray)
  | Call_allreduce (sendobj : ndarray)
  | Call_bcast (obj : option ndarray).

(** [always E P p]: whatever the collectives return, every call [p] issues
    satisfies [E] and every value [p] returns satisfies [P]. *)
Fixpoint always {A} (E : call -> Prop) (P : A -> Prop) (p : mpi A) : Prop :=
  match p with
  | Ret a => P a
  | Raise _ => True
  | Allreduce s r k =>
      E (Call_Allreduce s r) /\ forall contents, always E P (k (with_data r contents))
  | allreduce s k => E (Call_allreduce s) /\ forall x, always E P (k x)
  | bcast o k => E (Call_bcast o) /\ forall x, always E P (k x)
  end.

(** [follows cs p]: whatever the collectives return, [p] calls the
    collectives [cs], in this order, and then returns, unless it raises on
    the way. *)
Fixpoint follows {A} (cs : list collective) (p : mpi A) : Prop :=
  match p with
  | Ret _ => cs = []
  | Raise _ => True
  | Allreduce _ r k =>
      exists rest, cs = MPI_Allreduce :: rest
                   /\ forall contents, follows rest (k (with_data r contents))
  | allreduce _ k =>
      exists rest, cs = MPI_allreduce :: rest /\ forall x, follows rest (k x)
  | bcast _ k =>
      exists rest, cs = MPI_bcast :: rest /\ forall x, follows rest (k x)
  end.

End MPI.

#[global] Arguments SUM {_ _} call contributions : simpl never.

#[global] Instance mpi_ret `{Arith} : MRet mpi := @Ret _.
#[global] Instance mpi_bind `{Arith} : MBind mpi := fun A B f p => bind p f.

(** ** TensorFlow *)

Record Tensor := { t_id : positive; t_dtype : dtype; t_shape : list nat }.

(** A [tf.Variable]. *)
Record TFVariable := { v_id : positive; v_dtype : dtype; v_shape : list nat }.

#[global] Instance Tensor_eq_dec : EqDecision Tensor.
Proof. solve_decision. Defined.

#[global] Instance TFVariable_eq_dec : EqDecision TFVariable.
Proof. solve_decision. Defined.

(** The default graph: the next fresh tensor name and the collection
    [tf.GraphKeys.GLOBAL_VARIABLES]. *)
Record Graph := { next_id : positive; GLOBAL_VARIABLES : list TFVariable }.

(** [tf.placeholder(dtype, shape)] *)
Definition tf_placeholder (g : Graph) (d : dtype) (sh : list nat) : Graph * Tensor :=
  ({| next_id := Pos.succ (next_id g); GLOBAL_VARIABLES := GLOBAL_VARIABLES g |},
   {| t_id := next_id g; t_dtype := d; t_shape := sh |}).

(** [tf.assign(ref, value)] *)
Record AssignOp := { assign_ref : TFVariable; assign_value : Tensor }.

Definition tf_assign (ref : TFVariable) (value : Tensor) : AssignOp :=
  {| assign_ref := ref; assign_value := value |}.

(** The runtime: what a session computes for a tensor, and what running an
    operation built by the optimizer does to the variables.  A session is the
    values of its variables; a feed_dict maps tensors to values. *)
Class TensorFlow `{Arith} := {
  Operation : Type;
  fetch : gmap positive ndarray -> gmap positive ndarray -> Tensor -> ndarray;
  execute : Operation -> gmap positive ndarray -> gmap positive ndarray
            -> gmap positive ndarray
}.

Section Session.
Context `{TensorFlow}.

(** [sess.run(fetches, feed_dict)] for a list of tensors *)
Definition run_tensors (sess : gmap positive ndarray) (fetches : list Tensor)
    (feed_dict : gmap positive ndarray) : list ndarray :=
  fetch sess feed_dict <$> fetches.

(** [sess.run(var)]: fails on a variable without a value. *)
Definition run_variable (sess : gmap positive ndarray) (var : TFVariable)
  : option ndarray :=
  sess !! v_id var.

(** [sess.run(assign, feed_dict)]: fails when the assigned placeholder is not
    fed. *)
Definition run_assign (sess : gmap positive ndarray) (assign : AssignOp)
    (feed_dict : gmap positive ndarray) : option (gmap positive ndarray) :=
  value ← feed_dict !! t_id (assign_value assign);
  Some (<[v_id (assign_ref assign) := value]> sess).

(** The wrapped [tf.train.Optimizer].  TensorFlow's [apply_gradients] raises
    ValueError when it is given no pair; the interface leaves that out, so
    that what is proved of [__init__] is about optimizers for which a
    gradient is kept. *)
Record Optimizer := {
  compute_gradients :
    Graph -> Tensor -> option (list TFVariable)
    -> Graph * list (option Tensor * TFVariable);
  apply_gradients : Graph -> list (Tensor * TFVariable) -> Graph * Operation
}.

End Session.


(** ** class _VarSync *)

Module _VarSync.
Section WithArith.
Context `{Arith}.

Record t := {
  _variables : list TFVariable;
  _placeholders : list Tensor;
  _assigns : list AssignOp
}.

(** [[tf.placeholder(v.dtype.base_dtype, shape=v.get_shape()) for v in variables]] *)
Fixpoint placeholders_for (g : Graph) (variables : list TFVariable)
  : Graph * list Tensor :=
  match variables with
  | [] => (g, [])
  | v :: rest =>
      let '(g, ph) := tf_placeholder g (v_dtype v) (v_shape v) in
      let '(g, phs) := placeholders_for g rest in
      (g, ph :: phs)
  end.

Definition __init__ (g : Graph) (variables : list TFVariable) : Graph * t :=
  let '(g, phs) := placeholders_for g variables in
  (g, {| _variables := variables;
         _placeholders := phs;
         _assigns := (fun vp : TFVariable * Tensor => tf_assign vp.1 vp.2)
                       <$> zip variables phs |}).

(** The loop of [sync] over [zip(self._variables, self._placeholders,
    self._assigns)]. *)
Fixpoint sync_loop (rank : nat) (items : list (TFVariable * Tensor * AssignOp))
    (sess : gmap positive ndarray) : mpi (gmap positive ndarray) :=
  match items with
  | [] => Ret sess
  | (var, ph, assign) :: rest =>
      if decide (rank = 0%nat) then
        match run_variable sess var with
        | None => Raise "FailedPreconditionError"%string
        | Some value => bcast (Some value) (fun _ => sync_loop rank rest sess)
        end
      else
        bcast None (fun received =>
          match received with
          | None => Raise "TypeError"%string
          | Some value =>
              match run_assign sess assign {[ t_id ph := value ]} with
              | None => Raise "InvalidArgumentError"%string
              | Some sess => sync_loop rank rest sess
              end
          end)
  end.

Definition sync (comm : Comm) (self : t) (sess : gmap positive ndarray)
  : mpi (gmap positive ndarray) :=
  let rank := Get_rank comm in
  sync_loop rank (zip (zip (_variables self) (_placeholders self)) (_assigns self)) sess.

End WithArith.
End _VarSync.

(** ** class MPIOptimizer *)

Module MPIOptimizer.
Section WithTensorFlow.
Context `{TensorFlow}.

Record t := {
  grads : list (Tensor * TFVariable);
  placeholders : list Tensor;
  apply : Operation;
  _var_sync : _VarSync.t
}.

(** The loop of [__init__] that builds [self.placeholders] and [apply_in]. *)
Fixpoint placeholders_for (g : Graph) (grads : list (Tensor * TFVariable))
  : Graph * list Tensor * list (Tensor * TFVariable) :=
  match grads with
  | [] => (g, [], [])
  | (grad, var) :: rest =>
      let '(g, placeholder) := tf_placeholder g (t_dtype grad) (t_shape grad) in
      let '(g, phs, apply_in) := placeholders_for g rest in
      (g, placeholder :: phs, (placeholder, var) :: apply_in)
  end.

(** [[pair for pair in pairs if pair[0] is not None]] *)
Definition non_null (pairs : list (option Tensor * TFVariable))
  : list (Tensor * TFVariable) :=
  omap (fun pair : option Tensor * TFVariable =>
          match pair.1 with Some grad => Some (grad, pair.2) | None => None end)
       pairs.

(** [[v for v in collection if v not in old_variables]] *)
Definition not_in (old_variables collection : list TFVariable) : list TFVariable :=
  filter (fun v => v ∉ old_variables) collection.

Definition __init__ (g : Graph) (optimizer : Optimizer) (loss : Tensor)
    (var_list : option (list TFVariable)) : Graph * t :=
  let old_variables := GLOBAL_VARIABLES g in
  let '(g, pairs) := compute_gradients optimizer g loss var_list in
  let grads := non_null pairs in
  let '(g, placeholders, apply_in) := placeholders_for g grads in
  let '(g, apply) := apply_gradients optimizer g apply_in in
  let optimizer_vars := not_in old_variables (GLOBAL_VARIABLES g) in
  let '(g, var_sync) := _VarSync.__init__ g (grads.*2 ++ optimizer_vars) in
  (g, {| grads := grads; placeholders := placeholders; apply := apply;
         _var_sync := var_sync |}).

(** The loop of [minimize] over [zip(grad_outs, self.placeholders)]. *)
Fixpoint average_gradients (comm : Comm) (pairs : list (ndarray * Tensor))
    (extra_feed : gmap positive ndarray) : mpi (gmap positive ndarray) :=
  match pairs with
  | [] => Ret extra_feed
  | (grad_out, placeholder) :: rest =>
      let mean_grad := np_zeros (shape grad_out) float32 in
      let send_grad := np_array grad_out float32 in
      Allreduce send_grad mean_grad (fun mean_grad =>
        let mean_grad := true_divide mean_grad (Z.of_nat (Get_size comm)) in
        average_gradients comm rest (<[t_id placeholder := mean_grad]> extra_feed))
  end.

(** The loop of [minimize] over [term_outs]. *)
Fixpoint average_terms (comm : Comm) (term_outs : list ndarray)
    (result : list ndarray) : mpi (list ndarray) :=
  match term_outs with
  | [] => Ret result
  | term :: rest =>
      allreduce term (fun total =>
        average_terms comm rest
          (result ++ [quotient total (Z.of_nat (Get_size comm))]))
  end.

(** What one call of [minimize] does on a process: the session afterwards,
    the feed_dict the apply step ran with, and the tuple it returns. *)
Record minimized := {
  session : gmap positive ndarray;
  fed : gmap positive ndarray;
  returned : list ndarray
}.

Definition minimize (comm : Comm) (self : t) (sess : gmap positive ndarray)
    (feed_dict : option (gmap positive ndarray)) (terms : option (list Tensor))
  : mpi minimized :=
  let feed_dict := default ∅ feed_dict in
  let terms := default [] terms in
  let outs := run_tensors sess (terms ++ (grads self).*1) feed_dict in
  let grad_outs := drop (length terms) outs in
  let term_outs := take (length terms) outs in
  let extra_feed := feed_dict in
  extra_feed ← average_gradients comm (zip grad_outs (placeholders self)) extra_feed;
  let sess := execute (apply self) sess extra_feed in
  result ← average_terms comm term_outs [];
  Ret {| session := sess; fed := extra_feed; returned := result |}.

Definition sync_from_root (comm : Comm) (self : t) (sess : gmap positive ndarray)
  : mpi (gmap positive ndarray) :=
  _VarSync.sync comm (_var_sync self) sess.

End WithTensorFlow.
End MPIOptimizer.

(** ** mpi_ppo *)

Section PPO.
Context `{TensorFlow}.
Context {Rollouts Batch Estimate : Type}.

(** What [mpi_ppo] uses of the [ppo] object. *)
Record PPO := {
  model_batches : Rollouts -> option nat -> list Batch;
  adv_est_advantages : Rollouts -> Estimate;
  adv_est_targets : Rollouts -> Estimate;
  ppo_feed_dict : Rollouts -> Batch -> Estimate -> Estimate -> gmap positive ndarray;
  actor_loss : Tensor;
  explained_var : Tensor;
  entropy : Tensor;
  num_clipped : Tensor
}.

(** The arguments of the format string passed to [log_fn]:
    [(batch_idx, -terms[0], terms[1], terms[2], terms[3])]. *)
Record LogMessage := {
  log_batch : Z;
  log_actor : ndarray;
  log_explained : ndarray;
  log_entropy : ndarray;
  log_clipped : ndarray
}.

Record ppo_state := {
  result : list (list ndarray);
  model_session : gmap positive ndarray;
  logged : list LogMessage
}.

(** The logging step of one iteration.  The format string
    ['batch %d: actor=%f explained=%f entropy=%f clipped=%d'] takes a number
    for each field: an array converts when it has one element, and [%d]
    takes neither a NaN nor an infinity. *)
Definition log_batch_terms (comm : Comm) (log_fn : option (LogMessage -> unit))
    (batch_idx : Z) (terms : list ndarray) (logged : list LogMessage)
  : mpi (list LogMessage) :=
  match log_fn with
  | Some _ =>
      if decide (Get_rank comm = 0%nat) then
        match terms !! 0%nat, terms !! 1%nat, terms !! 2%nat, terms !! 3%nat with
        | Some t0, Some t1, Some t2, Some t3 =>
            match item (negative t0), item t1, item t2, item t3 with
            | Some _, Some _, Some _, Some clipped =>
                if is_nan clipped then Raise "ValueError"%string
                else if is_finite clipped then
                  Ret (logged ++ [ {| log_batch := batch_idx; log_actor := negative t0;
                                      log_explained := t1; log_entropy := t2;
                                      log_clipped := t3 |} ])
                else Raise "OverflowError"%string
            | _, _, _, _ => Raise "TypeError"%string
            end
        | _, _, _, _ => Raise "IndexError"%string
        end
      else Ret logged
  | None => Ret logged
  end.

(** The format string takes the tuple [terms]. *)
Definition loggable (terms : list ndarray) : bool :=
  match terms !! 0%nat, terms !! 1%nat, terms !! 2%nat, terms !! 3%nat with
  | Some t0, Some t1, Some t2, Some t3 =>
      match item (negative t0), item t1, item t2, item t3 with
      | Some _, Some _, Some _, Some clipped => negb (is_nan clipped) && is_finite clipped
      | _, _, _, _ => false
      end
  | _, _, _, _ => false
  end.

(** The logging step of an iteration goes through on [terms]: this rank is
    not to log, or the format string takes the tuple. *)
Definition logs_through (comm : Comm) (log_fn : option (LogMessage -> unit))
    (terms : list ndarray) : bool :=
  match log_fn with
  | Some _ => if decide (Get_rank comm = 0%nat) then loggable terms else true
  | None => true
  end.

(** The log after the logging step of an iteration that does not raise. *)
Definition logged_after (comm : Comm) (log_fn : option (LogMessage -> unit))
    (batch_idx : Z) (terms : list ndarray) (logged : list LogMessage)
  : list LogMessage :=
  match log_fn, decide (Get_rank comm = 0%nat), terms with
  | Some _, left _, [t0; t1; t2; t3] =>
      logged ++ [ {| log_batch := batch_idx; log_actor := negative t0;
                     log_explained := t1; log_entropy := t2; log_clipped := t3 |} ]
  | _, _, _ => logged
  end.

(** The [for batch in batches] loop. *)
Fixpoint ppo_loop (comm : Comm) (ppo : PPO) (optimizer : MPIOptimizer.t)
    (rollouts : Rollouts) (advantages targets : Estimate) (num_iter : Z)
    (log_fn : option (LogMessage -> unit))
    (extra_feed_dict : option (gmap positive ndarray))
    (batches : list Batch) (batch_idx : Z) (st : ppo_state) : mpi ppo_state :=
  match batches with
  | [] => Ret st
  | batch :: batches =>
      let feed_dict := ppo_feed_dict ppo rollouts batch advantages targets in
      let feed_dict :=
        match extra_feed_dict with
        | Some extra => extra ∪ feed_dict
        | None => feed_dict
        end in
      m ← MPIOptimizer.minimize comm optimizer (model_session st) (Some feed_dict)
            (Some [actor_loss ppo; explained_var ppo; entropy ppo; num_clipped ppo]);
      let terms := MPIOptimizer.returned m in
      logged ← log_batch_terms comm log_fn batch_idx terms (logged st);
      let st := {| result := result st ++ [terms];
                   model_session := MPIOptimizer.session m;
                   logged := logged |} in
      let batch_idx := batch_idx + 1 in
      if decide (batch_idx = num_iter) then Ret st
      else ppo_loop comm ppo optimizer rollouts advantages targets num_iter log_fn
             extra_feed_dict batches batch_idx st
  end.

Definition mpi_ppo (comm : Comm) (ppo : PPO) (optimizer : MPIOptimizer.t)
    (session : gmap positive ndarray) (rollouts : Rollouts)
    (batch_size : option nat) (num_iter : Z)
    (log_fn : option (LogMessage -> unit))
    (extra_feed_dict : option (gmap positive ndarray)) : mpi ppo_state :=
  let batch_idx := 0 in
  let batches := model_batches ppo rollouts batch_size in
  let advantages := adv_est_advantages ppo rollouts in
  let targets := adv_est_targets ppo rollouts in
  ppo_loop comm ppo optimizer rollouts advantages targets num_iter log_fn
    extra_feed_dict batches batch_idx
    {| result := []; model_session := session; logged := [] |}.

(** What differs from rank to rank in a call of [mpi_ppo]: the state of
    [ppo.model.session] and the arguments other than [ppo], [optimizer] and
    [num_iter]. *)
Record ppo_local := {
  local_session : gmap positive ndarray;
  local_rollouts : Rollouts;
  local_batch_size : option nat;
  local_log_fn : option (LogMessage -> unit);
  local_extra_feed_dict : option (gmap positive ndarray)
}.

Definition mpi_ppo_on (ppo : PPO) (optimizer : MPIOptimizer.t) (num_iter : Z)
    (comm : Comm) (l : ppo_local) : mpi ppo_state :=
  mpi_ppo comm ppo optimizer (local_session l) (local_rollouts l)
    (local_batch_size l) num_iter (local_log_fn l) (local_extra_feed_dict l).

End PPO.

(** ** IEEE-754 arithmetic *)

Module IEEE754.

(** Width of the significand and exponent of the infinities of a
    floating-point format; an integer is divided as a float64. *)
Definition prec (d : dtype) : Z :=
  match d with float16 => 11 | float32 => 24 | float64 | int32 | int64 => 53 end.

Definition emax (d : dtype) : Z :=
  match d with float16 => 16 | float32 => 128 | float64 | int32 | int64 => 1024 end.

(** Rounding to nearest even into the format of [d]. *)
Definition round (d : dtype) (x : spec_float) : spec_float :=
  match x with
  | S754_finite s m e => binary_round (prec d) (emax d) s m e
  | _ => x
  end.

Definition of_int (d : dtype) (n : Z) : spec_float :=
  binary_normalize (prec d) (emax d) n 0 false.

(** A value of an integer dtype is held as the float of that value, with
    exponent zero. *)
Definition bits (d : dtype) : Z :=
  match d with int64 => 64 | _ => 32 end.

(** Two's complement wrap-around into the range of [d]. *)
Definition wrap (d : dtype) (n : Z) : Z :=
  (n + 2 ^ (bits d - 1)) mod 2 ^ bits d - 2 ^ (bits d - 1).

Definition of_Z (n : Z) : spec_float :=
  match n with
  | 0 => S754_zero false
  | Z.pos p => S754_finite false p 0
  | Z.neg p => S754_finite true p 0
  end.

(** The integer part of a float; C leaves the conversion of a NaN or of an
    infinity undefined, it is zero here. *)
Definition to_Z (x : spec_float) : Z :=
  match x with
  | S754_finite s m e =>
      let v := if 0 <=? e then Z.pos m * 2 ^ e else Z.pos m / 2 ^ (- e) in
      if s then - v else v
  | _ => 0
  end.

Definition arith : Arith := {|
  scalar := spec_float;
  cast := fun d x => if floating d then round d x else of_Z (wrap d (to_Z x));
  zero := fun _ => S754_zero false;
  add := fun d x y =>
    if floating d then SFadd (prec d) (emax d) x y
    else of_Z (wrap d (to_Z x + to_Z y));
  div_int := fun d x n =>
    if floating d then SFdiv (prec d) (emax d) x (of_int d n)
    else of_Z (wrap d (to_Z x ÷ n));
  neg := SFopp;
  is_nan := fun x => match x with S754_nan => true | _ => false end;
  is_finite := fun x =>
    match x with S754_zero _ | S754_finite _ _ _ => true | _ => false end;
  well_formed := fun d x =>
    if floating d then valid_binary (prec d) (emax d) x = true
    else x = of_Z (wrap d (to_Z x))
|}.


End IEEE754.

(** ** Two MPI libraries *)

Module Reductions.
Section WithArith.
Context `{Arith}.

(** The contributions are added in rank order. *)
Definition in_rank_order : Reduction := {|
  buffer_schedule := fun _ _ => [];
  object_schedule := fun _ => []
|}.

(** Neighbouring ranks are added first, the last two to begin with, and the
    sums of the pairs then in rank order: with four ranks,
    [(x0 + x1) + (x2 + x3)]. *)
Definition neighbours_first : Reduction := {|
  buffer_schedule := fun contributions _ =>
    let n := length contributions in
    (fun t => (n - 1 - t, n - 1 - t)%nat) <$> seq 1 (n / 2);
  object_schedule := fun contributions =>
    let n := length contributions in
    (fun t => (n - 1 - t, n - 1 - t)%nat) <$> seq 1 (n / 2)
|}.

End WithArith.
End Reductions.

(** ** A small graph to run the model on

    Every tensor of the graph is an input: it evaluates to what the
    feed_dict holds for it.  The optimizer is gradient descent with learning
    rate one and no variables of its own. *)

Module Toy.

#[local] Existing Instance IEEE754.arith.

Definition sub (w g : ndarray) : ndarray :=
  {| dtype_of := dtype_of w; shape := shape w;
     data := zip_with (SFsub (IEEE754.prec (dtype_of w)) (IEEE754.emax (dtype_of w)))
               (data w) (data g) |}.

Definition descend (sess feed_dict : gmap positive ndarray)
    (step : Tensor * TFVariable) : gmap positive ndarray :=
  match sess !! v_id step.2, feed_dict !! t_id step.1 with
  | Some w, Some g => <[v_id step.2 := sub w g]> sess
  | _, _ => sess
  end.

Definition tensorflow : TensorFlow := {|
  Operation := list (Tensor * TFVariable);
  fetch := fun _ feed_dict t =>
    default (np_zeros (t_shape t) (t_dtype t)) (feed_dict !! t_id t);
  execute := fun op sess feed_dict =>
    foldl (fun sess step => descend sess feed_dict step) sess op
|}.

#[local] Existing Instance tensorflow.

(** One gradient tensor per variable, named after the graph's counter. *)
Fixpoint gradients (g : Graph) (vars : list TFVariable)
  : Graph * list (option Tensor * TFVariable) :=
  match vars with
  | [] => (g, [])
  | v :: rest =>
      let '(g, grad) := tf_placeholder g (v_dtype v) (v_shape v) in
      let '(g, pairs) := gradients g rest in
      (g, (Some grad, v) :: pairs)
  end.

Definition gradient_descent : Optimizer := {|
  compute_gradients := fun g _ var_list =>
    gradients g (default (GLOBAL_VARIABLES g) var_list);
  apply_gradients := fun g apply_in => (g, apply_in)
|}.

(** One scalar variable [w], named 1. *)
Definition w (d : dtype) : TFVariable := {| v_id := 1; v_dtype := d; v_shape := [] |}.

Definition graph (d : dtype) : Graph :=
  {| next_id := 2; GLOBAL_VARIABLES := [w d] |}.

Definition loss : Tensor := {| t_id := 100; t_dtype := float32; t_shape := [] |}.

Definition optimizer (d : dtype) : MPIOptimizer.t :=
  (MPIOptimizer.__init__ (graph d) gradient_descent loss None).2.

(** A 0-d array. *)
Definition scalar_array (d : dtype) (x : spec_float) : ndarray :=
  {| dtype_of := d; shape := []; data := [x] |}.

(** The 0-d float32 array of the integer [n]. *)
Definition f32 (n : Z) : ndarray := scalar_array float32 (IEEE754.of_int float32 n).

(** [n / 10] in the format of [d]. *)
Definition tenths (d : dtype) (n : Z) : spec_float :=
  SFdiv (IEEE754.prec d) (IEEE754.emax d) (IEEE754.of_int d n) (IEEE754.of_int d 10).

(** The gradient tensor of [w] is named 2 by [graph]. *)
Definition worker (d : dtype) (w0 grad : spec_float)
  : gmap positive ndarray * option (gmap positive ndarray) :=
  ({[ 1%positive := scalar_array d w0 ]}, Some {[ 2%positive := scalar_array d grad ]}).

(** The synchronizer of the one variable. *)
Definition var_sync : _VarSync.t := (_VarSync.__init__ (graph float32) [w float32]).2.

(** A [ppo] whose rollouts are the list of its batches, a batch being the
    feed_dict it gives rise to. *)
Definition term (name : positive) : Tensor :=
  {| t_id := name; t_dtype := float32; t_shape := [] |}.

Definition ppo : @PPO IEEE754.arith (list (gmap positive ndarray)) (gmap positive ndarray) unit := {|
  model_batches := fun rollouts _ => rollouts;
  adv_est_advantages := fun _ => tt;
  adv_est_targets := fun _ => tt;
  ppo_feed_dict := fun _ batch _ _ => batch;
  actor_loss := term 10;
  explained_var := term 11;
  entropy := term 12;
  num_clipped := term 13
|}.

(** A batch on which the gradient of [w] is [grad] and every term is
    [grad / 10]. *)
Definition batch (grad : Z) : gmap positive ndarray :=
  <[2%positive := scalar_array float32 (IEEE754.of_int float32 grad)]>
    (list_to_map
       ((fun name : positive => (name, scalar_array float32 (tenths float32 grad)))
          <$> [10; 11; 12; 13]%positive)).

Definition ppo_worker (grads : list Z) (log_fn : option (LogMessage -> unit))
  : @ppo_local IEEE754.arith (list (gmap positive ndarray)) :=
  {| local_session := {[ 1%positive := scalar_array float32 (IEEE754.of_int float32 0) ]};
     local_rollouts := batch <$> grads;
     local_batch_size := None;
     local_log_fn := log_fn;
     local_extra_feed_dict := None |}.

End Toy.

(** ** What the job computes, rank by rank

    Closed forms of a run, stated on the values each worker computes
    locally. *)

(** The order in which a reduction has combined the contributions: the
    contribution of one rank, or the combination of two partial results. *)
Inductive reduction :=
  | contribution (rank : nat)
  | combined (a b : reduction).

(** The ranks whose contributions enter, from left to right. *)
Fixpoint ranks (order : reduction) : list nat :=
  match order with
  | contribution rank => [rank]
  | combined a b => ranks a ++ ranks b
  end.

(** The contributions [xs], one per rank, combined in the given order. *)
Fixpoint combine {X} (op : X -> X -> X) (order : reduction) (xs : list X) : option X :=
  match order with
  | contribution rank => xs !! rank
  | combined a b => x ← combine op a xs; y ← combine op b xs; Some (op x y)
  end.

Section Reference.
Context `{TensorFlow}.
Context `{!Reduction}.

(** What a worker's session computes for tensor [t] under its feed_dict. *)
Definition local_value (l : gmap positive ndarray * option (gmap positive ndarray))
    (t : Tensor) : ndarray :=
  fetch l.1 (default ∅ l.2) t.

(** The mean of one gradient over the workers: the sum of the float32 casts
    of the workers' tensors ([column], one per rank), as the library's
    [Allreduce] adds them, divided by the group size [N], in a float32
    buffer of the shape of the worker's own tensor. *)
Definition allreduce_mean (N : nat) (column : list ndarray) (own : ndarray) : ndarray :=
  true_divide
    (with_data (np_zeros (shape own) float32)
       (data (SUM MPI_Allreduce ((fun g => np_array g float32) <$> column))))
    (Z.of_nat N).

(** The mean of the values [xs] of dtype [d] that the workers hold at one
    position of a tensor: their sum, added in dtype [d] in the given order,
    divided by their number; a sum of integers is divided as a float64. *)
Definition mean_of (d : dtype) (order : reduction) (xs : list scalar) : option scalar :=
  total ← combine (add d) order xs;
  Some (if floating d then div_int d total (Z.of_nat (length xs))
        else div_int float64 (cast float64 total) (Z.of_nat (length xs))).

(** The mean of the workers' tensors as they are, without the cast. *)
Definition tensor_mean (N : nat) (column : list ndarray) : ndarray :=
  true_divide (SUM MPI_Allreduce column) (Z.of_nat N).

(** The feed_dict of the apply step on worker [l]: its own feed_dict with
    every placeholder set to the mean of its gradient. *)
Definition averaged_feed (N : nat) (self : MPIOptimizer.t)
    (world : list (gmap positive ndarray * option (gmap positive ndarray)))
    (l : gmap positive ndarray * option (gmap positive ndarray))
  : gmap positive ndarray :=
  foldl (fun acc (gp : Tensor * Tensor) =>
           <[t_id gp.2 := allreduce_mean N ((fun l' => local_value l' gp.1) <$> world)
                            (local_value l gp.1)]> acc)
        (default ∅ l.2)
        (zip (MPIOptimizer.grads self).*1 (MPIOptimizer.placeholders self)).

(** The mean of each term over the workers. *)
Definition averaged_terms (N : nat) (terms : list Tensor)
    (world : list (gmap positive ndarray * option (gmap positive ndarray)))
  : list ndarray :=
  (fun t => quotient (SUM MPI_allreduce ((fun l' => local_value l' t) <$> world))
              (Z.of_nat N))
    <$> terms.

Definition minimize_all (N : nat) (self : MPIOptimizer.t) (terms : option (list Tensor))
    (world : list (gmap positive ndarray * option (gmap positive ndarray)))
    (l : gmap positive ndarray * option (gmap positive ndarray))
  : MPIOptimizer.minimized :=
  let extra_feed := averaged_feed N self world l in
  {| MPIOptimizer.session := execute (MPIOptimizer.apply self) l.1 extra_feed;
     MPIOptimizer.fed := extra_feed;
     MPIOptimizer.returned := averaged_terms N (default [] terms) world |}.


(** What [sync] leaves on a non-root worker: every variable of [variables]
    that has a value on the root holds that value. *)
Definition received (root : gmap positive ndarray) (variables : list TFVariable)
    (sess : gmap positive ndarray) : gmap positive ndarray :=
  foldl (fun sess v =>
           match root !! v_id v with
           | Some value => <[v_id v := value]> sess
           | None => sess
           end) sess variables.

(** The number of iterations of the loop of [mpi_ppo] over [batches] more
    batches when the counter stands at [batch_idx]. *)
Fixpoint ppo_iterations (batches : nat) (batch_idx num_iter : Z) : nat :=
  match batches with
  | O => O
  | S batches =>
      if decide (batch_idx + 1 = num_iter) then 1%nat
      else S (ppo_iterations batches (batch_idx + 1) num_iter)
  end.

(** The triples [sync] iterates over: a variable, its placeholder, and the
    assignment of the placeholder to the variable. *)
Definition sync_items (vps : list (TFVariable * Tensor))
  : list (TFVariable * Tensor * AssignOp) :=
  (fun vp => (vp, tf_assign vp.1 vp.2)) <$> vps.

(** What [log_fn] is told about batch [i], whose tuple is [terms]:
    [(batch_idx, -terms[0], terms[1], terms[2], terms[3])]. *)
Definition logs_terms (i : nat) (terms : list ndarray) (msg : LogMessage) : Prop :=
  log_batch msg = Z.of_nat i
  /\ exists t0, terms = [t0; log_explained msg; log_entropy msg; log_clipped msg]
                /\ log_actor msg = negative t0.


(** [n] calls of [minimize] by the group, one after the other.  [world]
    holds for each worker its session and the feed_dicts it is still to
    pass, in order: a call takes the first of them (none when none is left)
    and leaves the worker with the session of its apply step.  The result
    is what each call gave each worker. *)
Fixpoint minimize_calls (self : MPIOptimizer.t) (terms : option (list Tensor))
    (n : nat) (world : list (gmap positive ndarray * list (gmap positive ndarray)))
  : option (list (list MPIOptimizer.minimized)) :=
  match n with
  | O => Some []
  | S n =>
      outs ← mpiexec (fun comm l => MPIOptimizer.minimize comm self l.1 l.2 terms)
               ((fun w => (w.1, head w.2)) <$> world);
      rest ← minimize_calls self terms n
               (zip_with (fun w out => (MPIOptimizer.session out, tail w.2)) world outs);
      Some (outs :: rest)
  end.

(** The tuples that the calls returned to the worker of rank [r]. *)
Definition returned_to (r : nat) (calls : list (list MPIOptimizer.minimized))
  : list (list ndarray) :=
  (fun outs => default [] (MPIOptimizer.returned <$> outs !! r)) <$> calls.

(** The session the calls leave to the worker of rank [r], that started
    with [sess]: each call replaces it by the session of its apply step. *)
Definition session_after (r : nat) (sess : gmap positive ndarray)
    (calls : list (list MPIOptimizer.minimized)) : gmap positive ndarray :=
  foldl (fun sess outs => default sess (MPIOptimizer.session <$> outs !! r)) sess calls.

(** The format string takes each of the tuples that [n] calls return to
    rank 0. *)
Definition loggable_calls (self : MPIOptimizer.t) (terms : option (list Tensor))
    (n : nat) (world : list (gmap positive ndarray * list (gmap positive ndarray)))
  : bool :=
  match minimize_calls self terms n world with
  | Some calls => forallb loggable (returned_to 0 calls)
  | None => false
  end.

End Reference.

Section ReferencePPO.
Context `{TensorFlow}.
Context {Rollouts Batch Estimate : Type}.

(** The feed_dict [mpi_ppo] passes to [minimize] for a batch. *)
Definition batch_feed (ppo : @PPO _ Rollouts Batch Estimate) (l : @ppo_local _ Rollouts)
    (batch : Batch) : gmap positive ndarray :=
  let feed_dict :=
    ppo_feed_dict ppo (local_rollouts l) batch
      (adv_est_advantages ppo (local_rollouts l))
      (adv_est_targets ppo (local_rollouts l)) in
  match local_extra_feed_dict l with
  | Some extra => extra ∪ feed_dict
  | None => feed_dict
  end.

(** A worker as it enters [mpi_ppo]: its session and the feed_dicts of its
    batches, in order. *)
Definition ppo_start (ppo : @PPO _ Rollouts Batch Estimate) (l : @ppo_local _ Rollouts)
  : gmap positive ndarray * list (gmap positive ndarray) :=
  (local_session l,
   batch_feed ppo l <$> model_batches ppo (local_rollouts l) (local_batch_size l)).

(** The terms [mpi_ppo] asks [minimize] for. *)
Definition ppo_terms (ppo : @PPO _ Rollouts Batch Estimate) : option (list Tensor) :=
  Some [actor_loss ppo; explained_var ppo; entropy ppo; num_clipped ppo].

End ReferencePPO.

(** * Properties *)

(** ** IEEE-754: rounding yields a value of the format, division by one is exact *)










Section Format.
Variables prec emax : Z.
Hypothesis prec_pos : 0 < prec.









Lemma binary_round_aux_canonical s m e :
  fexp prec emax (Z.pos (digits2_pos m) + e) = e -> e <= emax - prec ->
  binary_round_aux prec emax s (Z.pos m) e loc_Exact = S754_finite s m e.
Proof.
  intros C B. unfold binary_round_aux, shr_fexp. cbn [Zdigits2].
  rewrite C, Z.sub_diag. cbn [shr shr_record_of_loc shr_m loc_of_shr_record
    round_nearest_even Zdigits2].
  rewrite C, Z.sub_diag. cbn [shr shr_m].
  apply Z.leb_le in B. now rewrite B.
Qed.


End Format.







(** ** Lockstep execution *)

Section Lockstep.
Context `{Arith}.
Context `{!Reduction}.

Lemma at_Ret_Some {A} (p : mpi A) a : at_Ret p = Some a -> p = Ret a.
Proof. destruct p; naive_solver. Qed.

Lemma at_Allreduce_Some {A} (p : mpi A) c :
  at_Allreduce p = Some c -> p = Allreduce c.1.1 c.1.2 c.2.
Proof. destruct p; naive_solver. Qed.

Lemma at_allreduce_Some {A} (p : mpi A) c :
  at_allreduce p = Some c -> p = allreduce c.1 c.2.
Proof. destruct p; naive_solver. Qed.

Lemma at_bcast_Some {A} (p : mpi A) c : at_bcast p = Some c -> p = bcast c.1 c.2.
Proof. destruct p; naive_solver. Qed.

(** *** One step of a job whose ranks all run the same code *)

Lemma mapM_family {L X Y} (view : X -> option Y) (f : L -> X) (g : L -> Y)
    (ls : list L) :
  (forall l, view (f l) = Some (g l)) -> mapM view (f <$> ls) = Some (g <$> ls).
Proof.
  intros Hv. apply mapM_Some_2, Forall2_fmap, Forall_Forall2_diag, Forall_forall.
  intros l _. apply Hv.
Qed.

Lemma mpirun_Ret {L A} (f : L -> A) (ls : list L) :
  mpirun ((fun l => Ret (f l)) <$> ls) = Some (f <$> ls).
Proof.
  destruct ls as [|l0 ls]; [done|]. cbn.
  by rewrite (mapM_family at_Ret _ f).
Qed.

Lemma mpirun_Allreduce {L A} (s r : L -> ndarray) (k : L -> ndarray -> mpi A)
    (ls : list L) :
  mpirun ((fun l => Allreduce (s l) (r l) (k l)) <$> ls)
  = mpirun ((fun l => k l (with_data (r l) (data (SUM MPI_Allreduce (s <$> ls))))) <$> ls).
Proof.
  destruct ls as [|l0 ls]; [done|]. cbn.
  rewrite (mapM_family at_Allreduce _ (fun l => (s l, r l, k l))) by done. cbn.
  by rewrite <- !list_fmap_compose.
Qed.

Lemma mpirun_allreduce {L A} (s : L -> ndarray) (k : L -> ndarray -> mpi A)
    (ls : list L) :
  mpirun ((fun l => allreduce (s l) (k l)) <$> ls)
  = mpirun ((fun l => k l (SUM MPI_allreduce (s <$> ls))) <$> ls).
Proof.
  destruct ls as [|l0 ls]; [done|]. cbn.
  rewrite (mapM_family at_allreduce _ (fun l => (s l, k l))) by done. cbn.
  by rewrite <- !list_fmap_compose.
Qed.

Lemma mpirun_bcast {L A} (o : L -> option ndarray)
    (k : L -> option ndarray -> mpi A) (l0 : L) (ls : list L) :
  mpirun ((fun l => bcast (o l) (k l)) <$> l0 :: ls)
  = mpirun ((fun l => k l (o l0)) <$> l0 :: ls).
Proof.
  cbn.
  rewrite (mapM_family at_bcast _ (fun l => (o l, k l))) by done. cbn.
  by rewrite <- !list_fmap_compose.
Qed.

(** *** Sequencing *)

Section Resume.
Context {A B I R : Type}.
Variable viewA : mpi A -> option (I * (R -> mpi A)).
Variable viewB : mpi B -> option (I * (R -> mpi B)).
Variable answer : I -> R.
Hypothesis view_bind : forall p (f : A -> mpi B) c,
  viewA p = Some c -> viewB (bind p f) = Some (c.1, fun x => bind (c.2 x) f).

Lemma resume_bind (pks : list (mpi A * (A -> mpi B))) calls :
  Forall2 (fun p c => viewA p = Some c) pks.*1 calls ->
  exists calls' (pks' : list (mpi A * (A -> mpi B))),
    mapM viewB ((fun pk => bind pk.1 pk.2) <$> pks) = Some calls'
    /\ calls'.*1 = calls.*1
    /\ (fun c => c.2 (answer c.1)) <$> calls' = (fun pk => bind pk.1 pk.2) <$> pks'
    /\ pks'.*1 = (fun c => c.2 (answer c.1)) <$> calls
    /\ forall (vs : list A),
         zip_with (fun pk v => pk.2 v) pks' vs = zip_with (fun pk v => pk.2 v) pks vs.
Proof using view_bind.
  revert calls. induction pks as [|[p f] pks IH]; intros calls F.
  - apply Forall2_nil_inv_l in F as ->. by exists [], [].
  - apply Forall2_cons_inv_l in F as (c & calls0 & Hc & F & ->).
    destruct (IH _ F) as (calls' & pks' & E1 & E2 & E3 & E4 & E5).
    exists ((c.1, fun x => bind (c.2 x) f) :: calls'), ((c.2 (answer c.1), f) :: pks').
    cbn in Hc. cbn. rewrite (view_bind p f c Hc), E1. cbn.
    rewrite E2, E3, E4. repeat split.
    intros [|v vs]; [done|]. cbn. by rewrite E5.
Qed.
End Resume.

Lemma bind_Ret_family {A B} (pks : list (mpi A * (A -> mpi B))) vs :
  Forall2 (fun p v => at_Ret p = Some v) pks.*1 vs ->
  (fun pk => bind pk.1 pk.2) <$> pks = zip_with (fun pk v => pk.2 v) pks vs.
Proof.
  revert vs. induction pks as [|[p f] pks IH]; intros vs F.
  - by apply Forall2_nil_inv_l in F as ->.
  - apply Forall2_cons_inv_l in F as (v & vs0 & Hv & F & ->).
    cbn in *. apply at_Ret_Some in Hv as ->. cbn. by rewrite (IH _ F).
Qed.

Lemma run_bind {A B} (p0 : mpi A) (k0 : A -> mpi B)
    (pks : list (mpi A * (A -> mpi B))) v0 vs :
  run p0 pks.*1 = Some (v0 :: vs) ->
  run (bind p0 k0) ((fun pk => bind pk.1 pk.2) <$> pks)
  = run (k0 v0) (zip_with (fun pk v => pk.2 v) pks vs).
Proof.
  revert pks. induction p0 as [a|exc|s r k IH|s k IH|o k IH]; intros pks Hrun;
    cbn in Hrun.
  - destruct (mapM at_Ret pks.*1) as [rest|] eqn:E; simplify_eq/=.
    apply mapM_Some_1 in E. by rewrite (bind_Ret_family _ _ E).
  - done.
  - destruct (mapM at_Allreduce pks.*1) as [calls|] eqn:E; [|done]. cbn in Hrun.
    apply mapM_Some_1 in E.
    set (T := data (SUM MPI_Allreduce (s :: calls.*1.*1))) in *.
    destruct (resume_bind at_Allreduce at_Allreduce (fun i => with_data i.2 T)
                ltac:(by intros [] f c; try done; intros [= <-]) pks calls E)
      as (calls' & pks' & E1 & E2 & E3 & E4 & E5).
    cbn. rewrite E1. cbn. rewrite E2.
    change (data (SUM MPI_Allreduce (s :: calls.*1.*1))) with T. rewrite E3.
    rewrite <- E5. apply (IH _ pks'). by rewrite E4.
  - destruct (mapM at_allreduce pks.*1) as [calls|] eqn:E; [|done]. cbn in Hrun.
    apply mapM_Some_1 in E.
    set (T := SUM MPI_allreduce (s :: calls.*1)) in *.
    destruct (resume_bind at_allreduce at_allreduce (fun _ => T)
                ltac:(by intros [] f c; try done; intros [= <-]) pks calls E)
      as (calls' & pks' & E1 & E2 & E3 & E4 & E5).
    cbn. rewrite E1. cbn. rewrite E2.
    change (SUM MPI_allreduce (s :: calls.*1)) with T. rewrite E3.
    rewrite <- E5. apply (IH _ pks'). by rewrite E4.
  - destruct (mapM at_bcast pks.*1) as [calls|] eqn:E; [|done]. cbn in Hrun.
    apply mapM_Some_1 in E.
    destruct (resume_bind at_bcast at_bcast (fun _ => o)
                ltac:(by intros [] f c; try done; intros [= <-]) pks calls E)
      as (calls' & pks' & E1 & E2 & E3 & E4 & E5).
    cbn. rewrite E1. cbn. rewrite E3.
    rewrite <- E5. apply (IH _ pks'). by rewrite E4.
Qed.

(** If the ranks all get through [f], the job running [f] and then [k] goes
    on with [k] applied to what [f] returned on each rank. *)
Lemma mpirun_bind {L A B} (f : L -> mpi A) (k : L -> A -> mpi B) (g : L -> A)
    (ls : list L) :
  mpirun (f <$> ls) = Some (g <$> ls) ->
  mpirun ((fun l => bind (f l) (k l)) <$> ls) = mpirun ((fun l => k l (g l)) <$> ls).
Proof.
  destruct ls as [|l0 ls]; [done|]. cbn. intros Hrun.
  pose (pks := (fun l => (f l, k l)) <$> ls).
  assert (E : pks.*1 = f <$> ls) by (unfold pks; by rewrite <- list_fmap_compose).
  rewrite <- E in Hrun. apply (run_bind _ (k l0)) in Hrun.
  etrans; [etrans; [|exact Hrun]|]; f_equal; unfold pks.
  - by rewrite <- list_fmap_compose.
  - by rewrite zip_with_fmap_l, zip_with_fmap_r, zip_with_diag.
Qed.

End Lockstep.

(** ** What holds of a process whatever the collectives return *)

Section Always.
Context `{Arith}.
Context `{!Reduction}.

Lemma always_mono {A} (E E' : call -> Prop) (P Q : A -> Prop) (p : mpi A) :
  (forall c, E c -> E' c) -> (forall a, P a -> Q a) ->
  always E P p -> always E' Q p.
Proof.
  intros HE HP. induction p as [a|exc|s r k IH|s k IH|o k IH]; cbn; auto;
    intros [He Hk]; split; auto.
Qed.

Lemma always_bind {A B} (E : call -> Prop) (Q : B -> Prop) (p : mpi A)
    (k : A -> mpi B) :
  always E (fun a => always E Q (k a)) p -> always E Q (bind p k).
Proof.
  induction p as [a|exc|s r k' IH|s k' IH|o k' IH]; cbn; auto;
    intros [He Hk]; split; auto.
Qed.

Lemma run_always {A} (p0 : mpi A) (ps : list (mpi A)) (vs : list A) :
  run p0 ps = Some vs ->
  Forall2 (fun p v => forall E P, always E P p -> P v) (p0 :: ps) vs.
Proof.
  revert ps. induction p0 as [a|exc|s r k IH|s k IH|o k IH]; intros ps Hrun;
    cbn in Hrun.
  - destruct (mapM at_Ret ps) as [rest|] eqn:E; simplify_eq/=.
    constructor; [done|]. apply mapM_Some_1 in E.
    eapply Forall2_impl; [exact E|]. intros p v Hp%at_Ret_Some E' P. by subst.
  - done.
  - destruct (mapM at_Allreduce ps) as [calls|] eqn:E; [|done]. cbn in Hrun.
    apply mapM_Some_1 in E. apply IH in Hrun.
    apply Forall2_cons_inv_l in Hrun as (v0 & vs' & Hv0 & Hvs & ->).
    constructor; [intros E' P [_ Hk]; by apply (Hv0 E' P)|].
    apply Forall2_fmap_l in Hvs.
    eapply Forall2_trans; [|exact E|exact Hvs]. cbn.
    intros p c v Hp%at_Allreduce_Some Hv E' P. subst p. intros [_ Hk]. by apply (Hv E' P).
  - destruct (mapM at_allreduce ps) as [calls|] eqn:E; [|done]. cbn in Hrun.
    apply mapM_Some_1 in E. apply IH in Hrun.
    apply Forall2_cons_inv_l in Hrun as (v0 & vs' & Hv0 & Hvs & ->).
    constructor; [intros E' P [_ Hk]; by apply (Hv0 E' P)|].
    apply Forall2_fmap_l in Hvs.
    eapply Forall2_trans; [|exact E|exact Hvs]. cbn.
    intros p c v Hp%at_allreduce_Some Hv E' P. subst p. intros [_ Hk]. by apply (Hv E' P).
  - destruct (mapM at_bcast ps) as [calls|] eqn:E; [|done]. cbn in Hrun.
    apply mapM_Some_1 in E. apply IH in Hrun.
    apply Forall2_cons_inv_l in Hrun as (v0 & vs' & Hv0 & Hvs & ->).
    constructor; [intros E' P [_ Hk]; by apply (Hv0 E' P)|].
    apply Forall2_fmap_l in Hvs.
    eapply Forall2_trans; [|exact E|exact Hvs]. cbn.
    intros p c v Hp%at_bcast_Some Hv E' P. subst p. intros [_ Hk]. by apply (Hv E' P).
Qed.

Lemma mpirun_always {A} (ps : list (mpi A)) (vs : list A) :
  mpirun ps = Some vs ->
  Forall2 (fun p v => forall E P, always E P p -> P v) ps vs.
Proof.
  destruct ps as [|p0 ps]; cbn.
  - intros [= <-]. constructor.
  - apply run_always.
Qed.

(** A job with a rank that raises does not return. *)
Lemma mpirun_Raise {A} (ps : list (mpi A)) exc : Raise exc ∈ ps -> mpirun ps = None.
Proof.
  intros [i Hi]%list_elem_of_lookup.
  destruct (mpirun ps) as [vs|] eqn:Hrun; [|done].
  apply mpirun_always in Hrun.
  destruct (Forall2_lookup_l _ _ _ _ _ Hrun Hi) as (v & _ & Hv).
  destruct (Hv (fun _ => True) (fun _ => False) I).
Qed.

Lemma lookup_ranked {L} (locals : list L) r l :
  locals !! r = Some l ->
  ranked locals !! r = Some ({| Get_rank := r; Get_size := length locals |}, l).
Proof. intros Hl. unfold ranked. by rewrite list_lookup_imap, Hl. Qed.

Lemma length_ranked {L} (locals : list L) : length (ranked locals) = length locals.
Proof. unfold ranked. apply length_imap. Qed.

Lemma mpiexec_length {L A} (main : Comm -> L -> mpi A) locals outs :
  mpiexec main locals = Some outs -> length outs = length locals.
Proof.
  intros Hrun%mpirun_always%Forall2_length.
  by rewrite length_fmap, length_ranked in Hrun.
Qed.

(** A job that returns satisfies on every rank what the rank's process
    guarantees whatever the collectives return. *)
Lemma mpiexec_always {L A} (main : Comm -> L -> mpi A) locals outs r l out E P :
  mpiexec main locals = Some outs ->
  locals !! r = Some l -> outs !! r = Some out ->
  always E P (main {| Get_rank := r; Get_size := length locals |} l) -> P out.
Proof.
  intros Hrun%mpirun_always Hl Hout Hp.
  eapply (Forall2_lookup_lr _ _ _ r) in Hrun; [by apply (Hrun E P)| |done].
  by rewrite list_lookup_fmap, (lookup_ranked _ _ _ Hl).
Qed.

End Always.

Section Ranks.
Context `{Arith}.
Context `{!Reduction}.

Lemma mapM_imap_family {L X Y} (view : X -> option Y) (f : nat -> L -> X)
    (g : nat -> L -> Y) (ls : list L) :
  (forall r l, view (f r l) = Some (g r l)) ->
  mapM view (imap f ls) = Some (imap g ls).
Proof.
  intros Hv. revert f g Hv. induction ls as [|l ls IH]; intros f g Hv; [done|].
  cbn. rewrite Hv. cbn. by rewrite (IH (f ∘ S) (g ∘ S)) by (intros; apply Hv).
Qed.

(** Rank 0 and the ranks after it. *)
Lemma mpiexec_cons {L A} (main : Comm -> L -> mpi A) (root : L) (others : list L) :
  mpiexec main (root :: others)
  = run (main {| Get_rank := 0; Get_size := S (length others) |} root)
        (imap (fun r l => main {| Get_rank := S r; Get_size := S (length others) |} l)
           others).
Proof.
  unfold mpiexec, ranked. cbn. f_equal. rewrite fmap_imap. by apply imap_ext.
Qed.

(** The ranks as a list of (rank, local data). *)
Lemma mpiexec_enumerate {L A} (main : Comm -> L -> mpi A) (locals : list L) :
  mpiexec main locals
  = mpirun ((fun rl : nat * L =>
               main {| Get_rank := rl.1; Get_size := length locals |} rl.2)
            <$> imap pair locals).
Proof.
  unfold mpiexec, ranked. f_equal. rewrite !fmap_imap. by apply imap_ext.
Qed.

Lemma enumerate_snd {L} (locals : list L) : (imap pair locals).*2 = locals.
Proof.
  rewrite fmap_imap. etrans; [|apply list_fmap_id].
  etrans; [|apply (imap_const id)]. by apply imap_ext.
Qed.

End Ranks.

(** ** _VarSync *)

Section VarSync.
Context `{Arith}.
Context `{!Reduction}.

Lemma VarSync_placeholders_length g variables :
  length (_VarSync.placeholders_for g variables).2 = length variables.
Proof.
  revert g. induction variables as [|v vs IH]; intros g; [done|]. cbn.
  specialize (IH {| next_id := Pos.succ (next_id g);
                    GLOBAL_VARIABLES := GLOBAL_VARIABLES g |}).
  destruct _VarSync.placeholders_for as [g' phs]. cbn in *. by rewrite IH.
Qed.

Lemma VarSync_init_variables g variables :
  _VarSync._variables (_VarSync.__init__ g variables).2 = variables.
Proof. unfold _VarSync.__init__. by destruct _VarSync.placeholders_for. Qed.

Lemma VarSync_init_items g variables :
  exists vps,
    vps.*1 = variables /\
    forall comm sess,
      _VarSync.sync comm (_VarSync.__init__ g variables).2 sess
      = _VarSync.sync_loop (Get_rank comm) (sync_items vps) sess.
Proof.
  pose proof (VarSync_placeholders_length g variables) as Hlen.
  unfold _VarSync.__init__, _VarSync.sync.
  destruct _VarSync.placeholders_for as [g' phs]. cbn in *.
  exists (zip variables phs). split; [apply fst_zip; lia|].
  intros comm sess. f_equal. unfold sync_items.
  by rewrite zip_with_fmap_r, zip_with_diag.
Qed.

Lemma sync_loop_nonroot r v ph a rest sess :
  _VarSync.sync_loop (S r) ((v, ph, a) :: rest) sess
  = bcast None (fun received =>
      match received with
      | None => Raise "TypeError"%string
      | Some value =>
          match run_assign sess a {[ t_id ph := value ]} with
          | None => Raise "InvalidArgumentError"%string
          | Some sess => _VarSync.sync_loop (S r) rest sess
          end
      end).
Proof. cbn. by destruct (decide (S r = 0%nat)). Qed.

Lemma received_cons root v vs sess value :
  root !! v_id v = Some value ->
  received root (v :: vs) sess = received root vs (<[v_id v := value]> sess).
Proof. intros Hv. unfold received. cbn. by rewrite Hv. Qed.

(** The whole job: it returns exactly when the root has a value for every
    variable, the root keeps its session and every other rank holds what it
    received. *)
Lemma sync_loop_run vps root others :
  run (_VarSync.sync_loop 0 (sync_items vps) root)
      (imap (fun r sess => _VarSync.sync_loop (S r) (sync_items vps) sess) others)
  = (_ ← mapM (run_variable root) vps.*1;
     Some (root :: (received root vps.*1 <$> others))).
Proof.
  revert others. induction vps as [|[v ph] vps IH]; intros others.
  - cbn. rewrite (mapM_imap_family at_Ret _ (fun _ sess => sess)) by done. cbn.
    f_equal. f_equal. rewrite (imap_const id), !list_fmap_id. done.
  - change (sync_items ((v, ph) :: vps))
      with ((v, ph, tf_assign v ph) :: sync_items vps).
    pose (kk := fun (r : nat) (sess : gmap positive ndarray) (received : option ndarray) =>
            match received with
            | None => Raise "TypeError"%string
            | Some value =>
                match run_assign sess (tf_assign v ph) {[ t_id ph := value ]} with
                | None => Raise "InvalidArgumentError"%string
                | Some sess => _VarSync.sync_loop (S r) (sync_items vps) sess
                end
            end).
    rewrite (imap_ext _ (fun r sess => bcast None (kk r sess)) others)
      by (intros; apply sync_loop_nonroot).
    cbn [_VarSync.sync_loop].
    destruct (decide (0%nat = 0%nat)) as [_|]; [|done].
    cbn [fmap list_fmap fst mapM]. unfold run_variable at 1 3.
    destruct (root !! v_id v) as [value|] eqn:Hv; [|done].
    cbn [run mbind option_bind].
    rewrite (mapM_imap_family at_bcast _ (fun r sess => (None, kk r sess))) by done.
    cbn [mbind option_bind]. rewrite fmap_imap.
    rewrite (imap_ext _ (fun r => (fun sess => _VarSync.sync_loop (S r) (sync_items vps) sess)
                                  ∘ (fun sess => <[v_id v := value]> sess)) others).
    2:{ intros r sess _. cbn. unfold run_assign. cbn.
        by rewrite lookup_singleton_eq. }
    rewrite <- imap_fmap, IH.
    destruct (mapM (run_variable root) vps.*1); [|done]. cbn.
    rewrite <- list_fmap_compose. f_equal. f_equal. apply list_fmap_ext.
    intros _ sess _. symmetry. apply (received_cons _ _ _ _ _ Hv).
Qed.

Lemma received_preserve root variables sess k :
  sess !! k = root !! k -> received root variables sess !! k = root !! k.
Proof.
  revert sess. induction variables as [|v vs IH]; intros sess Hk; [done|].
  unfold received. cbn. apply IH.
  destruct (root !! v_id v) as [value|] eqn:Hv; [|done].
  destruct (decide (v_id v = k)) as [<-|Hne].
  - by rewrite lookup_insert_eq.
  - by rewrite lookup_insert_ne.
Qed.

Lemma received_lookup root variables sess v :
  v ∈ variables -> is_Some (root !! v_id v) ->
  received root variables sess !! v_id v = root !! v_id v.
Proof.
  revert sess. induction variables as [|v0 vs IH]; intros sess Hin [value Hv].
  - by apply elem_of_nil in Hin.
  - apply elem_of_cons in Hin as [<-|Hin].
    + rewrite (received_cons _ _ _ _ _ Hv). apply received_preserve.
      by rewrite lookup_insert_eq.
    + unfold received. cbn. by apply IH.
Qed.

(** Rank 0 only reads and broadcasts. *)
Lemma sync_loop_root items sess :
  always (fun c => exists var value,
            c = Call_bcast (Some value) /\ run_variable sess var = Some value)
         (fun sess' => sess' = sess)
         (_VarSync.sync_loop 0 items sess).
Proof.
  induction items as [|[[v ph] a] items IH]; [done|].
  cbn [_VarSync.sync_loop]. destruct (decide (0%nat = 0%nat)) as [_|]; [|done].
  destruct (run_variable sess v) as [value|] eqn:Hv; [|done].
  split; [by exists v, value|]. intros _. exact IH.
Qed.

End VarSync.

Lemma sync_run `{Arith} `{!Reduction} g variables root others :
  mpiexec (fun comm sess => _VarSync.sync comm (_VarSync.__init__ g variables).2 sess)
    (root :: others)
  = (_ ← mapM (run_variable root) variables;
     Some (root :: (received root variables <$> others))).
Proof.
  destruct (VarSync_init_items g variables) as (vps & <- & Hsync).
  rewrite mpiexec_cons, Hsync. cbn [Get_rank].
  rewrite (imap_ext _ (fun r sess => _VarSync.sync_loop (S r) (sync_items vps) sess)
             others) by (intros; apply Hsync).
  apply sync_loop_run.
Qed.

(** C2. After [sync] has returned on the job, every worker holds, for every
    variable of the synchronizer, the value the root held before the call;
    and [sync] does return when the root has a value for every variable. *)
Theorem sync_copies_root `{Arith} `{!Reduction} (g : Graph) (variables : list TFVariable)
    (root : gmap positive ndarray) (others : list (gmap positive ndarray)) :
  let job :=
    mpiexec (fun comm sess =>
               _VarSync.sync comm (_VarSync.__init__ g variables).2 sess)
      (root :: others) in
  ((forall v, v ∈ variables -> is_Some (root !! v_id v)) -> is_Some job)
  /\ forall after, job = Some after ->
       length after = S (length others)
       /\ forall r sess v, after !! r = Some sess -> v ∈ variables ->
            sess !! v_id v = root !! v_id v.
Proof.
  cbn zeta. rewrite sync_run. split.
  - intros Hinit.
    destruct (mapM_is_Some_2 (run_variable root) variables) as [vals ->]; [|done].
    apply Forall_forall. intros v Hv. by apply Hinit.
  - intros after Hrun.
    destruct (mapM (run_variable root) variables) as [vals|] eqn:Hvals; [|done].
    cbn in Hrun. injection Hrun as <-. split; [cbn; by rewrite length_fmap|].
    intros r sess v Hr Hv.
    assert (Hroot : is_Some (root !! v_id v)).
    { apply mapM_Some_1 in Hvals.
      apply list_elem_of_lookup in Hv as [i Hi].
      destruct (Forall2_lookup_l _ _ _ _ _ Hvals Hi) as (value & _ & Hval).
      by exists value. }
    destruct r as [|r]; [by injection Hr as <-|].
    change ((received root variables <$> others) !! r = Some sess) in Hr.
    apply list_lookup_fmap_Some in Hr as (sess0 & -> & _).
    by apply received_lookup.
Qed.

(** C9. On rank 0 [sync] leaves the session as it was: whatever the
    collectives return, rank 0 issues only broadcasts of values it read from
    its session and returns the session it started with; so after a run of
    the job the root holds its session unchanged. *)
Theorem sync_root_unchanged `{Arith} `{!Reduction} (self : _VarSync.t)
    (root : gmap positive ndarray) (others : list (gmap positive ndarray)) :
  always (fun c => exists var value,
            c = Call_bcast (Some value) /\ run_variable root var = Some value)
         (fun sess => sess = root)
         (_VarSync.sync {| Get_rank := 0; Get_size := S (length others) |} self root)
  /\ forall after,
       mpiexec (fun comm sess => _VarSync.sync comm self sess) (root :: others)
       = Some after ->
       after !! 0%nat = Some root.
Proof.
  assert (Hroot : forall n,
    always (fun c => exists var value,
              c = Call_bcast (Some value) /\ run_variable root var = Some value)
           (fun sess => sess = root)
           (_VarSync.sync {| Get_rank := 0; Get_size := n |} self root)).
  { intros n. apply sync_loop_root. }
  split; [apply Hroot|]. intros after Hrun.
  pose proof (mpiexec_length _ _ _ Hrun) as Hlen.
  destruct after as [|sess after]; [done|]. cbn. f_equal.
  eapply (mpiexec_always _ _ _ 0%nat root sess); [exact Hrun|done|done|].
  apply Hroot.
Qed.

(** ** MPIOptimizer.minimize *)

Section Minimize.
Context `{TensorFlow}.
Context `{!Reduction}.

Lemma zip_fmap_fst {X Y Z} (f : X -> Y) (l : list X) (k : list Z) :
  zip (f <$> l) k = (fun p : X * Z => (f p.1, p.2)) <$> zip l k.
Proof.
  revert k. induction l as [|x l IH]; intros [|z k]; cbn; [done..|].
  by rewrite IH.
Qed.

Lemma minimize_unfold comm self
    (l : gmap positive ndarray * option (gmap positive ndarray)) terms :
  MPIOptimizer.minimize comm self l.1 l.2 terms
  = bind (MPIOptimizer.average_gradients comm
            ((fun gp : Tensor * Tensor => (local_value l gp.1, gp.2))
               <$> zip (MPIOptimizer.grads self).*1 (MPIOptimizer.placeholders self))
            (default ∅ l.2))
      (fun extra_feed =>
         bind (MPIOptimizer.average_terms comm (local_value l <$> default [] terms) [])
           (fun result =>
              Ret {| MPIOptimizer.session :=
                       execute (MPIOptimizer.apply self) l.1 extra_feed;
                     MPIOptimizer.fed := extra_feed;
                     MPIOptimizer.returned := result |})).
Proof.
  unfold MPIOptimizer.minimize, run_tensors, local_value.
  rewrite fmap_app, drop_app_length', take_app_length' by (by rewrite length_fmap).
  by rewrite zip_fmap_fst.
Qed.

Lemma average_gradients_run {L} (comm : L -> Comm)
    (loc : L -> gmap positive ndarray * option (gmap positive ndarray))
    (gps : list (Tensor * Tensor)) (acc : L -> gmap positive ndarray) (ls : list L) :
  mpirun ((fun l => MPIOptimizer.average_gradients (comm l)
                      ((fun gp : Tensor * Tensor => (local_value (loc l) gp.1, gp.2))
                         <$> gps)
                      (acc l)) <$> ls)
  = Some ((fun l =>
             foldl (fun acc (gp : Tensor * Tensor) =>
                      <[t_id gp.2 :=
                          allreduce_mean (Get_size (comm l))
                            ((fun l' => local_value l' gp.1) <$> (loc <$> ls))
                            (local_value (loc l) gp.1)]> acc)
                   (acc l) gps) <$> ls).
Proof.
  revert acc. induction gps as [|[grad ph] gps IH]; intros acc.
  - exact (mpirun_Ret acc ls).
  - etrans.
    { exact (mpirun_Allreduce
               (fun l => np_array (local_value (loc l) grad) float32)
               (fun l => np_zeros (shape (local_value (loc l) grad)) float32)
               (fun l mean_grad =>
                  MPIOptimizer.average_gradients (comm l)
                    (fmap (M:=list)
                       (fun gp : Tensor * Tensor => (local_value (loc l) gp.1, gp.2))
                       gps)
                    (<[t_id ph := true_divide mean_grad (Z.of_nat (Get_size (comm l)))]>
                       (acc l)))
               ls). }
    assert (Hs : (fun l => np_array (local_value (loc l) grad) float32) <$> ls
                 = (fun g => np_array g float32)
                     <$> ((fun l' => local_value l' grad) <$> (loc <$> ls)))
      by (by rewrite <- !list_fmap_compose).
    cbn beta. rewrite Hs.
    exact (IH (fun l =>
                 <[t_id ph := allreduce_mean (Get_size (comm l))
                                ((fun l' => local_value l' grad) <$> (loc <$> ls))
                                (local_value (loc l) grad)]> (acc l))).
Qed.

Lemma average_terms_run {L} (comm : L -> Comm)
    (loc : L -> gmap positive ndarray * option (gmap positive ndarray))
    (terms : list Tensor) (res : L -> list ndarray) (ls : list L) :
  mpirun ((fun l => MPIOptimizer.average_terms (comm l)
                      (local_value (loc l) <$> terms) (res l)) <$> ls)
  = Some ((fun l => res l ++ averaged_terms (Get_size (comm l)) terms (loc <$> ls))
            <$> ls).
Proof.
  revert res. induction terms as [|t terms IH]; intros res.
  - etrans; [exact (mpirun_Ret res ls)|]. f_equal. apply list_fmap_ext.
    intros _ l _. unfold averaged_terms. cbn. by rewrite app_nil_r.
  - etrans.
    { exact (mpirun_allreduce
               (fun l => local_value (loc l) t)
               (fun l total =>
                  MPIOptimizer.average_terms (comm l)
                    (fmap (M:=list) (local_value (loc l)) terms)
                    (res l ++ [quotient total (Z.of_nat (Get_size (comm l)))]))
               ls). }
    assert (Hs : (fun l => local_value (loc l) t) <$> ls
                 = (fun l' => local_value l' t) <$> (loc <$> ls))
      by (by rewrite <- !list_fmap_compose).
    cbn beta. rewrite Hs.
    etrans; [apply IH|]. f_equal. apply list_fmap_ext.
    intros _ l _. unfold averaged_terms. cbn. by rewrite <- app_assoc.
Qed.

(** A call of [minimize] on every rank returns on every rank, with the
    closed form [minimize_all]. *)
Lemma minimize_run {L} (comm : L -> Comm) (self : MPIOptimizer.t)
    (loc : L -> gmap positive ndarray * option (gmap positive ndarray))
    (terms : option (list Tensor)) (ls : list L) :
  mpirun ((fun l => MPIOptimizer.minimize (comm l) self (loc l).1 (loc l).2 terms)
            <$> ls)
  = Some ((fun l => minimize_all (Get_size (comm l)) self terms (loc <$> ls) (loc l))
            <$> ls).
Proof.
  etrans.
  { apply (f_equal mpirun), list_fmap_ext. intros _ l _.
    apply (minimize_unfold (comm l) self (loc l) terms). }
  rewrite (mpirun_bind _ _
             (fun l => averaged_feed (Get_size (comm l)) self (loc <$> ls) (loc l)))
    by exact (average_gradients_run comm loc _ (fun l => default ∅ (loc l).2) ls).
  rewrite (mpirun_bind _ _
             (fun l => averaged_terms (Get_size (comm l)) (default [] terms) (loc <$> ls)))
    by exact (average_terms_run comm loc _ (fun _ => []) ls).
  exact (mpirun_Ret _ ls).
Qed.

(** The same for the whole job. *)
Lemma minimize_mpiexec (self : MPIOptimizer.t) (terms : option (list Tensor))
    (locals : list (gmap positive ndarray * option (gmap positive ndarray))) :
  mpiexec (fun comm l => MPIOptimizer.minimize comm self l.1 l.2 terms) locals
  = Some (minimize_all (length locals) self terms locals <$> locals).
Proof.
  rewrite mpiexec_enumerate.
  etrans.
  { exact (minimize_run (fun rl => {| Get_rank := rl.1; Get_size := length locals |})
             self snd terms (imap pair locals)). }
  cbn [Get_size]. rewrite enumerate_snd. f_equal.
  transitivity (minimize_all (length locals) self terms locals
                  <$> (imap pair locals).*2).
  - by rewrite <- list_fmap_compose.
  - by rewrite enumerate_snd.
Qed.

End Minimize.

(** ** MPIOptimizer.__init__ *)

Section Init.
Context `{TensorFlow}.
Context `{!Reduction}.

Lemma placeholders_for_spec g grads :
  let '(g', phs, apply_in) := MPIOptimizer.placeholders_for g grads in
  GLOBAL_VARIABLES g' = GLOBAL_VARIABLES g
  /\ length phs = length grads
  /\ apply_in = zip phs grads.*2
  /\ Forall (fun ph => (next_id g <= t_id ph)%positive) phs
  /\ NoDup (t_id <$> phs)
  /\ Forall2 (fun ph (gv : Tensor * TFVariable) =>
                t_dtype ph = t_dtype gv.1 /\ t_shape ph = t_shape gv.1) phs grads.
Proof.
  revert g. induction grads as [|[grad var] grads IH]; intros g.
  - cbn. repeat split; constructor.
  - cbn. specialize (IH {| next_id := Pos.succ (next_id g);
                           GLOBAL_VARIABLES := GLOBAL_VARIABLES g |}).
    destruct MPIOptimizer.placeholders_for as [[g' phs] apply_in].
    destruct IH as (Hg & Hlen & -> & Hge & Hnd & Hty). cbn in *.
    split; [done|]. split; [by rewrite Hlen|]. split; [done|].
    split; [|split].
    + constructor; [cbn; lia|]. eapply Forall_impl; [exact Hge|]. cbn. lia.
    + constructor; [|done]. intros (ph & Hid & Hin)%list_elem_of_fmap.
      rewrite Forall_forall in Hge. specialize (Hge _ Hin). cbn in *. lia.
    + by constructor.
Qed.

(** The steps of [__init__], one after the other. *)
Lemma init_unfold g optimizer loss var_list :
  let self := (MPIOptimizer.__init__ g optimizer loss var_list).2 in
  let computed := compute_gradients optimizer g loss var_list in
  let grads := MPIOptimizer.non_null computed.2 in
  let placed := MPIOptimizer.placeholders_for computed.1 grads in
  let built := apply_gradients optimizer placed.1.1 (zip placed.1.2 grads.*2) in
  MPIOptimizer.grads self = grads
  /\ MPIOptimizer.placeholders self = placed.1.2
  /\ MPIOptimizer.apply self = built.2
  /\ MPIOptimizer._var_sync self
     = (_VarSync.__init__ built.1
          (grads.*2 ++ MPIOptimizer.not_in (GLOBAL_VARIABLES g) (GLOBAL_VARIABLES built.1))).2.
Proof.
  cbn zeta. unfold MPIOptimizer.__init__.
  destruct (compute_gradients optimizer g loss var_list) as [g1 pairs]. cbn [fst snd].
  pose proof (placeholders_for_spec g1 (MPIOptimizer.non_null pairs)) as Hp.
  destruct MPIOptimizer.placeholders_for as [[g2 phs] apply_in].
  destruct Hp as (_ & _ & -> & _). cbn [fst snd].
  destruct apply_gradients as [g3 op]. cbn [fst snd].
  by destruct _VarSync.__init__.
Qed.

Lemma init_placeholders g optimizer loss var_list :
  let self := (MPIOptimizer.__init__ g optimizer loss var_list).2 in
  length (MPIOptimizer.placeholders self) = length (MPIOptimizer.grads self)
  /\ NoDup (t_id <$> MPIOptimizer.placeholders self)
  /\ Forall2 (fun ph (gv : Tensor * TFVariable) =>
                t_dtype ph = t_dtype gv.1 /\ t_shape ph = t_shape gv.1)
       (MPIOptimizer.placeholders self) (MPIOptimizer.grads self).
Proof.
  cbn zeta. destruct (init_unfold g optimizer loss var_list) as (-> & -> & _).
  pose proof (placeholders_for_spec (compute_gradients optimizer g loss var_list).1
                (MPIOptimizer.non_null (compute_gradients optimizer g loss var_list).2))
    as Hp.
  destruct MPIOptimizer.placeholders_for as [[g2 phs] apply_in].
  by destruct Hp as (_ & Hlen & _ & _ & Hnd & Hty).
Qed.

End Init.

(** C6. [__init__] keeps the pairs of [compute_gradients] whose gradient is
    not None, in their order; the optimizer's own variables are the members
    of the global collection, read once [apply_gradients] is built, that
    were not in the collection read before construction; and the
    synchronizer is built over the variables of the kept pairs followed by
    those. *)
Theorem init_synchronizer_variables `{TensorFlow} `{!Reduction} (g : Graph) (optimizer : Optimizer)
    (loss : Tensor) (var_list : option (list TFVariable)) :
  let self := (MPIOptimizer.__init__ g optimizer loss var_list).2 in
  let computed := compute_gradients optimizer g loss var_list in
  let placed := MPIOptimizer.placeholders_for computed.1 (MPIOptimizer.grads self) in
  let built :=
    apply_gradients optimizer placed.1.1
      (zip (MPIOptimizer.placeholders self) (MPIOptimizer.grads self).*2) in
  let old_variables := GLOBAL_VARIABLES g in
  let optimizer_vars :=
    filter (fun v => v ∉ old_variables) (GLOBAL_VARIABLES built.1) in
  MPIOptimizer.grads self = MPIOptimizer.non_null computed.2
  /\ (forall grad var,
        (grad, var) ∈ MPIOptimizer.grads self <-> (Some grad, var) ∈ computed.2)
  /\ MPIOptimizer.apply self = built.2
  /\ (forall v, v ∈ optimizer_vars <->
                v ∈ GLOBAL_VARIABLES built.1 /\ v ∉ old_variables)
  /\ _VarSync._variables (MPIOptimizer._var_sync self)
     = (MPIOptimizer.grads self).*2 ++ optimizer_vars.
Proof.
  cbn zeta. destruct (init_unfold g optimizer loss var_list) as (Hg & Hp & Ha & Hs).
  rewrite Hs, Hp, Hg, Ha, VarSync_init_variables.
  split; [done|]. split; [|split; [done|split; [|done]]].
  - intros grad var. unfold MPIOptimizer.non_null. rewrite list_elem_of_omap. split.
    + intros ([[grad'|] var'] & Hin & Heq); simplify_eq/=. done.
    + intros Hin. exists (Some grad, var). done.
  - intros v. rewrite list_elem_of_filter. tauto.
Qed.

(** ** The order of a reduction *)

Section Orders.
Context {X : Type} (op : X -> X -> X).

Lemma merge_nonempty steps (partial : list X) :
  partial <> [] -> merge op steps partial <> [].
Proof.
  revert partial. induction steps as [|[i j] steps IH]; intros partial Hne; [done|].
  cbn. destruct (partial !! i); [|by apply IH].
  destruct (delete i partial !! j); by apply IH.
Qed.


(** What the schedule does to the contributions, it does to their order. *)
Lemma merge_combine (xs : list X) steps (orders : list reduction) (partial : list X) :
  Forall2 (fun order x => combine op order xs = Some x) orders partial ->
  Forall2 (fun order x => combine op order xs = Some x)
    (merge combined steps orders) (merge op steps partial).
Proof.
  revert orders partial. induction steps as [|[i j] steps IH]; intros orders partial F;
    [done|].
  cbn. destruct (partial !! i) as [x|] eqn:Hx.
  - destruct (Forall2_lookup_r _ _ _ _ _ F Hx) as (a & -> & Ha).
    pose proof (Forall2_delete _ _ _ i F) as Fi.
    destruct (delete i partial !! j) as [y|] eqn:Hy.
    + destruct (Forall2_lookup_r _ _ _ _ _ Fi Hy) as (b & -> & Hb).
      apply IH. constructor; [cbn; by rewrite Ha, Hb|]. by apply Forall2_delete.
    + destruct (delete i orders !! j) as [b|] eqn:Hb; [|by apply IH].
      destruct (Forall2_lookup_l _ _ _ _ _ Fi Hb) as (y & Hy' & _). congruence.
  - destruct (orders !! i) as [a|] eqn:Ha; [|by apply IH].
    destruct (Forall2_lookup_l _ _ _ _ _ F Ha) as (x & Hx' & _). congruence.
Qed.

Lemma foldl_combine (xs : list X) (orders : list reduction) (partial : list X) order x :
  combine op order xs = Some x ->
  Forall2 (fun order x => combine op order xs = Some x) orders partial ->
  combine op (foldl combined order orders) xs = Some (foldl op x partial).
Proof.
  intros Hx F. revert order x Hx. induction F as [|b y orders partial Hy F IH];
    intros order x Hx; [done|].
  cbn. apply IH. cbn. by rewrite Hx, Hy.
Qed.

Lemma contributions_combine (xs : list X) :
  Forall2 (fun order x => combine op order xs = Some x)
    (contribution <$> seq 0 (length xs)) xs.
Proof.
  apply Forall2_fmap_l, Forall2_same_length_lookup. split; [by rewrite length_seq|].
  intros i r x Hr Hx. apply lookup_seq in Hr as [-> _]. done.
Qed.

End Orders.

Lemma merge_ranks steps (orders : list reduction) :
  mjoin (ranks <$> merge combined steps orders) ≡ₚ mjoin (ranks <$> orders).
Proof.
  revert orders. induction steps as [|[i j] steps IH]; intros orders; [done|].
  cbn. destruct (orders !! i) as [a|] eqn:Ha; [|apply IH].
  destruct (delete i orders !! j) as [b|] eqn:Hb; [|apply IH].
  rewrite IH. rewrite (delete_Permutation orders i a Ha) at 2.
  rewrite (delete_Permutation (delete i orders) j b Hb) at 2.
  cbn. by rewrite <- app_assoc.
Qed.

Lemma foldl_ranks order (orders : list reduction) :
  ranks (foldl combined order orders) = ranks order ++ mjoin (ranks <$> orders).
Proof.
  revert order. induction orders as [|b orders IH]; intros order; cbn.
  - by rewrite app_nil_r.
  - rewrite IH. cbn. by rewrite <- app_assoc.
Qed.

Lemma contributions_ranks n k : mjoin (ranks <$> (contribution <$> seq k n)) = seq k n.
Proof. revert k. induction n as [|n IH]; intros k; cbn; [done|]. by rewrite IH. Qed.

(** A reduction combines the contributions in some order that takes the
    contribution of every rank once; the order is that of the schedule, for
    contributions of any kind. *)
Lemma reduce_order {X} (op : X -> X -> X) steps (xs : list X) :
  xs <> [] ->
  exists order,
    ranks order ≡ₚ seq 0 (length xs)
    /\ reduce op steps xs = combine op order xs
    /\ is_Some (combine op order xs).
Proof.
  intros Hne. unfold reduce.
  pose proof (merge_combine op xs steps _ _ (contributions_combine op xs)) as F.
  pose proof (merge_ranks steps (contribution <$> seq 0 (length xs))) as P.
  rewrite contributions_ranks in P.
  pose proof (merge_nonempty op steps xs Hne) as Hm.
  destruct F as [|order x orders partial Hx F]; [done|].
  exists (foldl combined order orders).
  rewrite (foldl_combine op xs orders partial order x Hx F).
  split; [|by eauto]. by rewrite foldl_ranks.
Qed.

(** ** What [minimize] feeds and returns *)

Section Fed.
Context `{TensorFlow}.
Context `{!Reduction}.

Lemma foldl_insert_other {X} (key : X -> positive) (val : X -> ndarray)
    (xs : list X) (acc : gmap positive ndarray) (k : positive) :
  k ∉ key <$> xs ->
  foldl (fun acc x => <[key x := val x]> acc) acc xs !! k = acc !! k.
Proof.
  revert acc. induction xs as [|x xs IH]; intros acc Hk; [done|]. cbn.
  rewrite fmap_cons, not_elem_of_cons in Hk. destruct Hk as [Hne Hk].
  by rewrite IH, lookup_insert_ne.
Qed.

Lemma foldl_insert_lookup {X} (key : X -> positive) (val : X -> ndarray)
    (xs : list X) (acc : gmap positive ndarray) (i : nat) (x : X) :
  NoDup (key <$> xs) -> xs !! i = Some x ->
  foldl (fun acc x => <[key x := val x]> acc) acc xs !! key x = Some (val x).
Proof.
  revert acc i. induction xs as [|x0 xs IH]; intros acc i Hnd Hi; [done|].
  rewrite fmap_cons, NoDup_cons in Hnd. destruct Hnd as [Hx0 Hnd].
  destruct i as [|i]; cbn in *.
  - injection Hi as ->. by rewrite foldl_insert_other, lookup_insert_eq.
  - by apply (IH _ i).
Qed.

Lemma averaged_feed_lookup N self world l i grad ph :
  length (MPIOptimizer.placeholders self) = length (MPIOptimizer.grads self) ->
  NoDup (t_id <$> MPIOptimizer.placeholders self) ->
  (MPIOptimizer.grads self).*1 !! i = Some grad ->
  MPIOptimizer.placeholders self !! i = Some ph ->
  averaged_feed N self world l !! t_id ph
  = Some (allreduce_mean N ((fun l' => local_value l' grad) <$> world)
            (local_value l grad)).
Proof.
  intros Hlen Hnd Hg Hp. unfold averaged_feed.
  apply (foldl_insert_lookup (fun gp : Tensor * Tensor => t_id gp.2)
           (fun gp : Tensor * Tensor =>
              allreduce_mean N ((fun l' => local_value l' gp.1) <$> world)
                (local_value l gp.1)) _ _ i (grad, ph)).
  - replace ((fun gp : Tensor * Tensor => t_id gp.2)
               <$> zip (MPIOptimizer.grads self).*1 (MPIOptimizer.placeholders self))
      with (t_id <$> MPIOptimizer.placeholders self); [done|].
    rewrite <- (snd_zip (MPIOptimizer.grads self).*1 (MPIOptimizer.placeholders self))
      at 1 by (rewrite length_fmap; lia).
    by rewrite <- list_fmap_compose.
  - apply lookup_zip_with_Some. eauto.
Qed.

Lemma combine_dtype d order (arrays : list ndarray) total :
  Forall (fun a => dtype_of a = d) arrays ->
  combine ndarray_add order arrays = Some total -> dtype_of total = d.
Proof.
  intros Hd. rewrite Forall_lookup in Hd.
  revert total. induction order as [r|a IHa b IHb]; intros total; cbn.
  - intros Hr. by eapply Hd.
  - destruct (combine ndarray_add a arrays) as [ta|]; [|done].
    destruct (combine ndarray_add b arrays) as [tb|]; [|done]. cbn.
    intros [= <-]. pose proof (IHa ta eq_refl) as Hda.
    pose proof (IHb tb eq_refl) as Hdb. unfold ndarray_add.
    by rewrite decide_True by congruence.
Qed.

(** The sum of arrays of one dtype, position by position. *)
Lemma combine_lookup d order (arrays : list ndarray) total j xs :
  Forall (fun a => dtype_of a = d) arrays ->
  mapM (fun a => data a !! j) arrays = Some xs ->
  combine ndarray_add order arrays = Some total ->
  dtype_of total = d /\ data total !! j = combine (add d) order xs.
Proof.
  intros Hd Hxs. apply mapM_Some_1 in Hxs. rewrite Forall_lookup in Hd.
  revert total. induction order as [r|a IHa b IHb]; intros total; cbn.
  - intros Hr. split; [by eapply Hd|].
    destruct (Forall2_lookup_l _ _ _ _ _ Hxs Hr) as (x & -> & ->). done.
  - destruct (combine ndarray_add a arrays) as [ta|]; [|done].
    destruct (combine ndarray_add b arrays) as [tb|]; [|done]. cbn.
    intros [= <-]. destruct (IHa ta eq_refl) as [Hda Ha].
    destruct (IHb tb eq_refl) as [Hdb Hb].
    unfold ndarray_add. rewrite decide_True by congruence.
    split; [done|]. cbn. by rewrite lookup_zip_with, Ha, Hb, Hda.
Qed.

(** [allreduce] with [op=MPI.SUM] adds the objects in some order that takes
    the object of every rank once. *)
Lemma SUM_order (contributions : list ndarray) :
  contributions <> [] ->
  exists order,
    ranks order ≡ₚ seq 0 (length contributions)
    /\ combine ndarray_add order contributions = Some (SUM MPI_allreduce contributions).
Proof.
  intros Hne.
  destruct (reduce_order ndarray_add (object_schedule contributions)
              contributions Hne) as (order & Hranks & Hreduce & [total Htotal]).
  exists order. split; [done|]. unfold SUM. by rewrite Hreduce, Htotal.
Qed.

(** [Allreduce] with [op=MPI.SUM] adds, at every position that all buffers
    have, what the buffers hold there, in some order that takes the buffer
    of every rank once. *)
Lemma SUM_lookup (sendbuf : ndarray) (others : list ndarray) j xs :
  mapM (fun a => data a !! j) (sendbuf :: others) = Some xs ->
  exists order,
    ranks order ≡ₚ seq 0 (S (length others))
    /\ data (SUM MPI_Allreduce (sendbuf :: others)) !! j
       = combine (add (dtype_of sendbuf)) order xs.
Proof.
  intros Hxs. pose proof (length_mapM _ _ _ Hxs) as Hlen. cbn in Hlen.
  destruct (reduce_order (add (dtype_of sendbuf))
              (buffer_schedule (sendbuf :: others) j) xs)
    as (order & Hranks & Hreduce & [total Htotal]); [by destruct xs|].
  rewrite <- Hlen in Hranks. exists order. split; [done|].
  unfold SUM, with_data. cbn [data]. rewrite list_lookup_imap, Hxs.
  cbn [mbind option_bind]. rewrite Hreduce, Htotal.
  apply mapM_Some_1, Forall2_cons_inv_l in Hxs as (x & xs' & -> & _ & _). done.
Qed.


(** The mean that is fed is, at every position all workers have, the mean of
    the float32 casts of the workers' values at that position, added in the
    order of the reduction. *)
Lemma allreduce_mean_lookup (column : list ndarray) (own : ndarray) j xs :
  column <> [] ->
  mapM (fun a => data a !! j) column = Some xs ->
  exists order,
    ranks order ≡ₚ seq 0 (length column)
    /\ data (allreduce_mean (length column) column own) !! j
       = mean_of float32 order (cast float32 <$> xs).
Proof.
  intros Hne Hxs.
  assert (Hcast : mapM (fun a => data a !! j) ((fun g => np_array g float32) <$> column)
                  = Some (cast float32 <$> xs)).
  { apply mapM_Some_2, Forall2_fmap. apply mapM_Some_1 in Hxs.
    eapply Forall2_impl; [exact Hxs|]. intros a x Ha. cbn.
    by rewrite list_lookup_fmap, Ha. }
  destruct column as [|g column]; [done|]. cbn [fmap list_fmap] in Hcast.
  destruct (SUM_lookup _ _ j _ Hcast) as (order & Hranks & Hj).
  rewrite length_fmap in Hranks. exists order. split; [done|].
  unfold allreduce_mean, mean_of, true_divide.
  cbn [data dtype_of with_data np_zeros floating fmap list_fmap].
  rewrite list_lookup_fmap, Hj, length_fmap. cbn [dtype_of np_array].
  rewrite (length_mapM _ _ _ Hxs).
  by destruct (combine (add float32) order (cast float32 <$> xs)).
Qed.

End Fed.

(** C1, as the code has it.  With at least one worker, [minimize] returns on
    every worker, and the value every worker feeds into the placeholder of
    the [i]-th gradient is the mean, in float32, of the float32 casts of the
    workers' [i]-th gradient tensors: at every position the workers' tensors
    have, the sum of the casts of their values there, which [Allreduce] adds
    in an order of the library's choice that takes every worker's value
    once, divided by the group size. *)
Theorem minimize_feeds_mean_of_casts `{TensorFlow} `{!Reduction} (g : Graph)
    (optimizer : Optimizer) (loss : Tensor) (var_list : option (list TFVariable))
    (terms : option (list Tensor))
    (locals : list (gmap positive ndarray * option (gmap positive ndarray))) :
  let self := (MPIOptimizer.__init__ g optimizer loss var_list).2 in
  locals <> [] ->
  exists outs,
    mpiexec (fun comm l => MPIOptimizer.minimize comm self l.1 l.2 terms) locals
    = Some outs
    /\ length outs = length locals
    /\ forall i grad ph,
         (MPIOptimizer.grads self).*1 !! i = Some grad ->
         MPIOptimizer.placeholders self !! i = Some ph ->
         let column := (fun l' => local_value l' grad) <$> locals in
         forall r l out, locals !! r = Some l -> outs !! r = Some out ->
           MPIOptimizer.fed out !! t_id ph
           = Some (allreduce_mean (length locals) column (local_value l grad))
           /\ forall j xs,
                mapM (fun a => data a !! j) column = Some xs ->
                exists order,
                  ranks order ≡ₚ seq 0 (length locals)
                  /\ data (allreduce_mean (length locals) column (local_value l grad))
                       !! j
                     = mean_of float32 order (cast float32 <$> xs).
Proof.
  cbn zeta. intros Hne.
  eexists. split; [apply minimize_mpiexec|]. split; [by rewrite length_fmap|].
  intros i grad ph Hgrad Hph r l out Hl Hout.
  rewrite list_lookup_fmap, Hl in Hout. injection Hout as <-.
  destruct (init_placeholders g optimizer loss var_list) as (Hlen & Hnd & _).
  split; [by apply (averaged_feed_lookup _ _ _ _ i)|].
  intros j xs Hxs.
  destruct (allreduce_mean_lookup ((fun l' => local_value l' grad) <$> locals)
              (local_value l grad) j xs) as (order & Hranks & Hmean);
    [by destruct locals|done|].
  rewrite length_fmap in Hranks, Hmean. by exists order.
Qed.

(** C5.  With at least one worker, [minimize] returns on every worker a
    tuple with one entry per requested term, in the order requested; entry
    [j] is the sum over the workers of the local values of term [j], which
    [allreduce] adds in an order of the library's choice that takes every
    worker's value once, divided by the group size: in the dtype of the term
    when it is a floating-point dtype, as a float64 when it is an integer
    dtype. *)
Theorem minimize_returns_term_means `{TensorFlow} `{!Reduction} (self : MPIOptimizer.t)
    (terms : option (list Tensor))
    (locals : list (gmap positive ndarray * option (gmap positive ndarray))) :
  locals <> [] ->
  exists outs,
    mpiexec (fun comm l => MPIOptimizer.minimize comm self l.1 l.2 terms) locals
    = Some outs
    /\ length outs = length locals
    /\ (forall r out, outs !! r = Some out ->
          length (MPIOptimizer.returned out) = length (default [] terms))
    /\ forall j t, default [] terms !! j = Some t ->
         let values := (fun l' => local_value l' t) <$> locals in
         exists order total,
           ranks order ≡ₚ seq 0 (length locals)
           /\ combine ndarray_add order values = Some total
           /\ (forall r out, outs !! r = Some out ->
                 MPIOptimizer.returned out !! j
                 = Some (quotient total (Z.of_nat (length locals))))
           /\ forall d, Forall (fun a => dtype_of a = d) values ->
                dtype_of (quotient total (Z.of_nat (length locals)))
                = (if floating d then d else float64)
                /\ forall k xs,
                     mapM (fun a => data a !! k) values = Some xs ->
                     data (quotient total (Z.of_nat (length locals))) !! k
                     = mean_of d order xs.
Proof.
  intros Hne. eexists. split; [apply minimize_mpiexec|].
  split; [by rewrite length_fmap|]. split.
  { intros r out (l & -> & _)%list_lookup_fmap_Some. cbn. unfold averaged_terms.
    by rewrite length_fmap. }
  intros j t Ht. cbn zeta.
  destruct (SUM_order ((fun l' => local_value l' t) <$> locals))
    as (order & Hranks & Htotal); [by destruct locals|].
  rewrite length_fmap in Hranks.
  exists order, (SUM MPI_allreduce ((fun l' => local_value l' t) <$> locals)).
  split; [done|]. split; [done|]. split.
  { intros r out (l & -> & _)%list_lookup_fmap_Some. cbn. unfold averaged_terms.
    by rewrite list_lookup_fmap, Ht. }
  intros d Hd. set (total := SUM MPI_allreduce _) in *.
  pose proof (combine_dtype d order _ _ Hd Htotal) as Hdt.
  unfold quotient, as_float, true_divide. rewrite Hdt. split.
  { by destruct (floating d). }
  intros k xs Hxs.
  destruct (combine_lookup d order _ _ k xs Hd Hxs Htotal) as [_ Hk].
  unfold mean_of. rewrite <- (length_fmap (fun l' => local_value l' t) locals).
  rewrite (length_mapM _ _ _ Hxs).
  destruct (floating d); cbn [data dtype_of np_array].
  - rewrite list_lookup_fmap, Hk, Hdt.
    by destruct (combine (add d) order xs).
  - rewrite !list_lookup_fmap, Hk.
    by destruct (combine (add d) order xs).
Qed.

Section MinimizeCases.
Context `{TensorFlow}.
Context `{!Reduction}.

Lemma averaged_feed_other N self world l k :
  length (MPIOptimizer.placeholders self) = length (MPIOptimizer.grads self) ->
  k ∉ t_id <$> MPIOptimizer.placeholders self ->
  averaged_feed N self world l !! k = default ∅ l.2 !! k.
Proof.
  intros Hlen Hk. unfold averaged_feed.
  apply (foldl_insert_other (fun gp : Tensor * Tensor => t_id gp.2)).
  replace ((fun gp : Tensor * Tensor => t_id gp.2)
             <$> zip (MPIOptimizer.grads self).*1 (MPIOptimizer.placeholders self))
    with (t_id <$> MPIOptimizer.placeholders self); [done|].
  rewrite <- (snd_zip (MPIOptimizer.grads self).*1 (MPIOptimizer.placeholders self))
    at 1 by (rewrite length_fmap; lia).
  by rewrite <- list_fmap_compose.
Qed.


Context `{!ArithLaws}.







End MinimizeCases.


(** C10. Called without terms (omitted, None or the empty list), with or
    without a feed_dict, [minimize] still feeds every placeholder the mean
    of its gradient (at every position the mean of the float32 casts of the
    workers' values there, added in an order of the MPI library's choice
    that takes the value of every rank once), leaves the rest of the
    feed_dict as it was given, runs the apply step with it, and returns the
    empty tuple. *)
Theorem minimize_without_terms `{TensorFlow} `{!Reduction} (g : Graph) (optimizer : Optimizer)
    (loss : Tensor) (var_list : option (list TFVariable))
    (terms : option (list Tensor))
    (locals : list (gmap positive ndarray * option (gmap positive ndarray))) :
  let self := (MPIOptimizer.__init__ g optimizer loss var_list).2 in
  terms = None \/ terms = Some [] ->
  exists outs,
    mpiexec (fun comm l => MPIOptimizer.minimize comm self l.1 l.2 terms) locals
    = Some outs
    /\ length outs = length locals
    /\ forall r l out, locals !! r = Some l -> outs !! r = Some out ->
         MPIOptimizer.returned out = []
         /\ MPIOptimizer.session out
            = execute (MPIOptimizer.apply self) l.1 (MPIOptimizer.fed out)
         /\ (forall i grad ph,
               (MPIOptimizer.grads self).*1 !! i = Some grad ->
               MPIOptimizer.placeholders self !! i = Some ph ->
               let column := (fun l' => local_value l' grad) <$> locals in
               MPIOptimizer.fed out !! t_id ph
               = Some (allreduce_mean (length locals) column (local_value l grad))
               /\ forall j xs,
                    mapM (fun a => data a !! j) column = Some xs ->
                    exists order,
                      ranks order ≡ₚ seq 0 (length locals)
                      /\ data (allreduce_mean (length locals) column
                                (local_value l grad)) !! j
                         = mean_of float32 order (cast float32 <$> xs))
         /\ (forall k, k ∉ t_id <$> MPIOptimizer.placeholders self ->
               MPIOptimizer.fed out !! k = default ∅ l.2 !! k).
Proof.
  cbn zeta. intros Hterms.
  eexists. split; [apply minimize_mpiexec|]. split; [by rewrite length_fmap|].
  intros r l out Hl Hout.
  rewrite list_lookup_fmap, Hl in Hout. injection Hout as <-.
  destruct (init_placeholders g optimizer loss var_list) as (Hlen & Hnd & _).
  cbn. split; [by destruct Hterms as [-> | ->]|]. split; [done|]. split.
  - intros i grad ph Hgrad Hph.
    split; [by apply (averaged_feed_lookup _ _ _ _ i)|].
    intros j xs Hxs.
    destruct (allreduce_mean_lookup ((fun l' => local_value l' grad) <$> locals)
                (local_value l grad) j xs) as (order & Hranks & Hmean);
      [by destruct locals|done|].
    rewrite length_fmap in Hranks, Hmean. by exists order.
  - intros k Hk. by apply averaged_feed_other.
Qed.

(** ** The buffers of the gradient exchange *)

Section Buffers.
Context `{TensorFlow}.
Context `{!Reduction}.



End Buffers.


(** ** The collectives a process calls, in order *)

Section Protocol.
Context `{Arith}.
Context `{!Reduction}.

Lemma follows_bind {A B} (cs cs' : list collective) (p : mpi A) (k : A -> mpi B) :
  follows cs p -> (forall a, follows cs' (k a)) -> follows (cs ++ cs') (bind p k).
Proof.
  intros Hp Hk. revert cs Hp.
  induction p as [a|exc|s r k' IH|s k' IH|o k' IH]; intros cs Hp; cbn in *.
  - subst cs. apply Hk.
  - done.
  - destruct Hp as (rest & -> & Hrest). exists (rest ++ cs'). split; [done|].
    intros contents. by apply IH.
  - destruct Hp as (rest & -> & Hrest). exists (rest ++ cs'). split; [done|].
    intros x. by apply IH.
  - destruct Hp as (rest & -> & Hrest). exists (rest ++ cs'). split; [done|].
    intros x. by apply IH.
Qed.

(** Ranks that return from a job have called the same collectives in the
    same order. *)
Lemma run_follows {A} (p0 : mpi A) (ps : list (mpi A)) (vs : list A) cs :
  run p0 ps = Some vs -> follows cs p0 ->
  Forall (fun p => forall cs', follows cs' p -> cs' = cs) ps.
Proof.
  revert ps cs. induction p0 as [a|exc|s r k IH|s k IH|o k IH]; intros ps cs Hrun Hcs;
    cbn in Hrun, Hcs.
  - destruct (mapM at_Ret ps) as [rest|] eqn:E; [|done].
    apply mapM_Some_1 in E. subst cs.
    eapply Forall2_Forall_l; [exact E|]. apply Forall_true.
    intros v p Hp%at_Ret_Some cs'. by subst p.
  - done.
  - destruct (mapM at_Allreduce ps) as [calls|] eqn:E; [|done]. cbn in Hrun.
    apply mapM_Some_1 in E. destruct Hcs as (rest & -> & Hrest).
    specialize (IH _ _ _ Hrun (Hrest _)). rewrite Forall_fmap in IH.
    eapply Forall2_Forall_l; [exact E|]. eapply Forall_impl; [exact IH|].
    cbn. intros c Hc p Hp%at_Allreduce_Some cs'. subst p. cbn.
    intros (rest' & -> & Hrest'). f_equal. apply Hc, Hrest'.
  - destruct (mapM at_allreduce ps) as [calls|] eqn:E; [|done]. cbn in Hrun.
    apply mapM_Some_1 in E. destruct Hcs as (rest & -> & Hrest).
    specialize (IH _ _ _ Hrun (Hrest _)). rewrite Forall_fmap in IH.
    eapply Forall2_Forall_l; [exact E|]. eapply Forall_impl; [exact IH|].
    cbn. intros c Hc p Hp%at_allreduce_Some cs'. subst p. cbn.
    intros (rest' & -> & Hrest'). f_equal. apply Hc, Hrest'.
  - destruct (mapM at_bcast ps) as [calls|] eqn:E; [|done]. cbn in Hrun.
    apply mapM_Some_1 in E. destruct Hcs as (rest & -> & Hrest).
    specialize (IH _ _ _ Hrun (Hrest _)). rewrite Forall_fmap in IH.
    eapply Forall2_Forall_l; [exact E|]. eapply Forall_impl; [exact IH|].
    cbn. intros c Hc p Hp%at_bcast_Some cs'. subst p. cbn.
    intros (rest' & -> & Hrest'). f_equal. apply Hc, Hrest'.
Qed.

Lemma mpiexec_follows {L A} (main : Comm -> L -> mpi A) (locals : list L)
    (outs : list A) (cs : L -> list collective) :
  mpiexec main locals = Some outs ->
  (forall r l, locals !! r = Some l ->
     follows (cs l) (main {| Get_rank := r; Get_size := length locals |} l)) ->
  forall r l r' l', locals !! r = Some l -> locals !! r' = Some l' -> cs l = cs l'.
Proof.
  intros Hrun Hcs.
  assert (Hroot : forall root, locals !! 0%nat = Some root ->
            forall r l, locals !! r = Some l -> cs l = cs root).
  { intros root Hroot0 r l Hl. destruct locals as [|root' others]; [done|].
    injection Hroot0 as ->. destruct r as [|r]; [by injection Hl as ->|].
    rewrite mpiexec_cons in Hrun.
    pose proof (run_follows _ _ _ _ Hrun (Hcs 0%nat root eq_refl)) as Hall.
    rewrite Forall_lookup in Hall.
    apply (Hall r (main {| Get_rank := S r; Get_size := S (length others) |} l)).
    - change (others !! r = Some l) in Hl. by rewrite list_lookup_imap, Hl.
    - by apply (Hcs (S r) l). }
  intros r l r' l' Hl Hl'.
  destruct (locals !! 0%nat) as [root|] eqn:Hroot0.
  - by rewrite (Hroot root eq_refl r l Hl), (Hroot root eq_refl r' l' Hl').
  - destruct locals; [done|done].
Qed.

End Protocol.

Section ProtocolOf.
Context `{TensorFlow}.
Context `{!Reduction}.
Context {Rollouts Batch Estimate : Type}.

Lemma average_gradients_follows comm pairs acc :
  follows (replicate (length pairs) MPI_Allreduce)
    (MPIOptimizer.average_gradients comm pairs acc).
Proof.
  revert acc. induction pairs as [|[grad_out ph] pairs IH]; intros acc; cbn; [done|].
  eexists. split; [done|]. intros contents. apply IH.
Qed.

Lemma average_terms_follows comm term_outs res :
  follows (replicate (length term_outs) MPI_allreduce)
    (MPIOptimizer.average_terms comm term_outs res).
Proof.
  revert res. induction term_outs as [|term rest IH]; intros res; cbn; [done|].
  eexists. split; [done|]. intros total. apply IH.
Qed.

Lemma minimize_follows comm self sess feed_dict terms :
  follows
    (replicate (length (MPIOptimizer.grads self) `min` length (MPIOptimizer.placeholders self))
       MPI_Allreduce
     ++ replicate (length (default [] terms)) MPI_allreduce)
    (MPIOptimizer.minimize comm self sess feed_dict terms).
Proof.
  pose proof (minimize_unfold comm self (sess, feed_dict) terms) as Hm.
  cbn [fst snd] in Hm. rewrite Hm. clear Hm.
  apply follows_bind.
  - pose proof (average_gradients_follows comm
                  ((fun gp : Tensor * Tensor => (local_value (sess, feed_dict) gp.1, gp.2))
                     <$> zip (MPIOptimizer.grads self).*1 (MPIOptimizer.placeholders self))
                  (default ∅ feed_dict)) as Hg.
    by rewrite length_fmap, length_zip, length_fmap in Hg.
  - intros extra_feed. rewrite <- (app_nil_r (replicate _ MPI_allreduce)).
    apply follows_bind; [|done].
    pose proof (average_terms_follows comm
                  (local_value (sess, feed_dict) <$> default [] terms) []) as Ht.
    by rewrite length_fmap in Ht.
Qed.

Lemma sync_loop_follows rank items sess :
  follows (replicate (length items) MPI_bcast) (_VarSync.sync_loop rank items sess).
Proof.
  revert sess. induction items as [|[[var ph] assign] items IH]; intros sess; [done|].
  cbn [_VarSync.sync_loop length replicate].
  destruct (decide (rank = 0%nat)) as [_|_].
  - destruct (run_variable sess var) as [value|]; [|done].
    eexists. split; [done|]. intros _. apply IH.
  - eexists. split; [done|]. intros [value|]; [|done].
    destruct run_assign as [sess'|]; [apply IH|done].
Qed.

(** The logging step calls no collective. *)
Lemma log_batch_terms_local comm log_fn batch_idx terms logged :
  (exists logged', log_batch_terms comm log_fn batch_idx terms logged = Ret logged')
  \/ exists exc, log_batch_terms comm log_fn batch_idx terms logged = Raise exc.
Proof.
  unfold log_batch_terms. destruct log_fn; [|eauto].
  destruct (decide _); [|eauto].
  destruct (terms !! 0%nat) as [t0|], (terms !! 1%nat) as [t1|],
    (terms !! 2%nat) as [t2|], (terms !! 3%nat) as [t3|]; eauto.
  destruct (item (negative t0)), (item t1), (item t2), (item t3) as [clipped|]; eauto.
  destruct (is_nan clipped), (is_finite clipped); eauto.
Qed.

(** The collectives of the loop of [mpi_ppo], iteration after iteration. *)
Lemma ppo_loop_follows comm (ppo : @PPO _ Rollouts Batch Estimate) optimizer
    rollouts advantages targets num_iter log_fn extra_feed_dict batches batch_idx st :
  follows
    (mjoin (replicate (ppo_iterations (length batches) batch_idx num_iter)
              (replicate (length (MPIOptimizer.grads optimizer)
                            `min` length (MPIOptimizer.placeholders optimizer))
                 MPI_Allreduce
               ++ replicate 4 MPI_allreduce)))
    (ppo_loop comm ppo optimizer rollouts advantages targets num_iter log_fn
       extra_feed_dict batches batch_idx st).
Proof.
  revert batch_idx st. induction batches as [|batch batches IH]; intros batch_idx st;
    [done|].
  cbn [ppo_loop length ppo_iterations].
  set (step := replicate _ MPI_Allreduce ++ replicate 4 MPI_allreduce) in *.
  set (n := ppo_iterations (length batches) (batch_idx + 1) num_iter) in *.
  assert (Hcs : mjoin (replicate (if decide (batch_idx + 1 = num_iter) then 1%nat else S n)
                         step)
                = step ++ (if decide (batch_idx + 1 = num_iter) then [] else
                             mjoin (replicate n step))).
  { destruct (decide _); cbn; [|done]. done. }
  rewrite Hcs. apply follows_bind.
  { exact (minimize_follows comm optimizer _ _
             (Some [actor_loss ppo; explained_var ppo; entropy ppo; num_clipped ppo])). }
  intros m.
  destruct (log_batch_terms_local comm log_fn batch_idx (MPIOptimizer.returned m)
              (logged st)) as [[logged' ->]|[exc ->]]; [|done].
  cbn [bind mbind mpi_bind]. unfold mbind, mpi_bind. cbn [bind].
  destruct (decide (batch_idx + 1 = num_iter)); [done|]. apply IH.
Qed.

Lemma length_join_replicate {X} (n : nat) (xs : list X) :
  length (mjoin (replicate n xs)) = (n * length xs)%nat.
Proof.
  induction n as [|n IH]; [done|].
  change (mjoin (replicate (S n) xs)) with (xs ++ mjoin (replicate n xs)).
  rewrite length_app, IH. lia.
Qed.

End ProtocolOf.

(** ** mpi_ppo *)

Section PPOLoop.
Context `{TensorFlow}.
Context `{!Reduction}.
Context {Rollouts Batch Estimate : Type}.

Lemma always_trivial {A} (p : mpi A) : always (fun _ => True) (fun _ => True) p.
Proof. induction p; cbn; auto. Qed.

Lemma average_terms_length comm term_outs res :
  always (fun _ => True)
         (fun res' => length res' = (length res + length term_outs)%nat)
         (MPIOptimizer.average_terms comm term_outs res).
Proof.
  revert res. induction term_outs as [|term rest IH]; intros res; cbn; [lia|].
  split; [done|]. intros total. eapply always_mono; [done| |apply IH].
  cbn. intros res'. rewrite length_app. cbn. lia.
Qed.

(** Whatever the collectives return, [minimize] returns one entry per term. *)
Lemma minimize_returned_length comm self sess feed_dict terms :
  always (fun _ => True)
         (fun out => length (MPIOptimizer.returned out) = length (default [] terms))
         (MPIOptimizer.minimize comm self sess feed_dict terms).
Proof.
  pose proof (minimize_unfold comm self (sess, feed_dict) terms) as Hm.
  cbn [fst snd] in Hm. rewrite Hm. clear Hm.
  apply always_bind. eapply always_mono; [done| |apply always_trivial].
  cbn. intros extra_feed _. apply always_bind.
  eapply always_mono; [done| |apply average_terms_length].
  cbn. intros res ->. by rewrite length_fmap.
Qed.

Lemma log_batch_terms_returns comm log_fn batch_idx terms logged :
  length terms = 4%nat ->
  logs_through comm log_fn terms = true ->
  log_batch_terms comm log_fn batch_idx terms logged
  = Ret (logged_after comm log_fn batch_idx terms logged).
Proof.
  intros Hlen. destruct terms as [|t0 [|t1 [|t2 [|t3 [|]]]]]; try done.
  unfold log_batch_terms, logs_through, loggable, logged_after.
  destruct log_fn; [|done]. destruct (decide _); [|done].
  cbn [lookup list_lookup].
  destruct (item (negative t0)), (item t1), (item t2), (item t3) as [clipped|]; try done.
  by destruct (is_nan clipped), (is_finite clipped).
Qed.

Lemma log_batch_terms_raises comm log_fn batch_idx terms logged :
  logs_through comm log_fn terms = false ->
  exists exc, log_batch_terms comm log_fn batch_idx terms logged = Raise exc.
Proof.
  unfold log_batch_terms, logs_through, loggable.
  destruct log_fn; [|done]. destruct (decide _); [|done].
  destruct (terms !! 0%nat) as [t0|], (terms !! 1%nat) as [t1|],
    (terms !! 2%nat) as [t2|], (terms !! 3%nat) as [t3|]; eauto.
  destruct (item (negative t0)), (item t1), (item t2), (item t3) as [clipped|]; eauto.
  destruct (is_nan clipped), (is_finite clipped); eauto; done.
Qed.

(** The logging step adds the record of the batch, or leaves the log as it
    is, or raises. *)
Lemma log_batch_terms_cases comm log_fn batch_idx terms logged :
  length terms = 4%nat ->
  log_batch_terms comm log_fn batch_idx terms logged
  = Ret (logged_after comm log_fn batch_idx terms logged)
  \/ exists exc, log_batch_terms comm log_fn batch_idx terms logged = Raise exc.
Proof.
  intros Hlen. destruct (logs_through comm log_fn terms) eqn:Hlog.
  - left. by apply log_batch_terms_returns.
  - right. by apply log_batch_terms_raises.
Qed.

Lemma logged_after_length comm log_fn batch_idx terms logged :
  length terms = 4%nat ->
  length (logged_after comm log_fn batch_idx terms logged)
  = if decide (Get_rank comm = 0%nat /\ is_Some log_fn)
    then S (length logged) else length logged.
Proof.
  intros Hlen. destruct terms as [|t0 [|t1 [|t2 [|t3 [|]]]]]; try done.
  unfold logged_after. destruct log_fn as [f|], (decide (Get_rank comm = 0%nat)).
  - rewrite decide_True by eauto. rewrite length_app. cbn. lia.
  - by rewrite decide_False by tauto.
  - rewrite decide_False; [done|]. intros [_ []]. done.
  - by rewrite decide_False by tauto.
Qed.

(** Whatever the collectives return, the loop adds one tuple of four terms
    per iteration, and one log record per iteration on rank 0 when [log_fn]
    is set and none otherwise. *)
Lemma ppo_loop_always comm (ppo : @PPO _ Rollouts Batch Estimate) optimizer
    rollouts advantages targets num_iter log_fn extra_feed_dict batches batch_idx st :
  always (fun _ => True)
    (fun st' =>
       let n := ppo_iterations (length batches) batch_idx num_iter in
       length (result st') = (length (result st) + n)%nat
       /\ (Forall (fun terms => length terms = 4%nat) (result st) ->
           Forall (fun terms => length terms = 4%nat) (result st'))
       /\ length (logged st')
          = if decide (Get_rank comm = 0%nat /\ is_Some log_fn)
            then (length (logged st) + n)%nat else length (logged st))
    (ppo_loop comm ppo optimizer rollouts advantages targets num_iter log_fn
       extra_feed_dict batches batch_idx st).
Proof.
  revert batch_idx st. induction batches as [|batch batches IH]; intros batch_idx st.
  - cbn. split; [lia|]. split; [done|]. destruct (decide _); lia.
  - cbn [ppo_loop]. apply always_bind.
    eapply always_mono; [done| |apply minimize_returned_length].
    cbn [default length]. intros m Hm.
    destruct (log_batch_terms_cases comm log_fn batch_idx (MPIOptimizer.returned m)
                (logged st) Hm) as [->|[exc ->]]; [|done].
    cbn [bind ppo_iterations length].
    pose proof (logged_after_length comm log_fn batch_idx (MPIOptimizer.returned m)
                  (logged st) Hm) as Hlog.
    destruct (decide (batch_idx + 1 = num_iter)) as [Heq|Hne].
    + cbn. rewrite length_app, Hlog. cbn. split; [done|]. split.
      * intros Hall. apply Forall_app. split; [done|]. by constructor.
      * destruct (decide _); lia.
    + eapply always_mono; [done| |apply IH]. cbn.
      rewrite length_app, Hlog. cbn. intros st' (Hres & Hall & Hlogged).
      split; [lia|]. split.
      * intros Hst. apply Hall, Forall_app. split; [done|]. by constructor.
      * rewrite Hlogged. destruct (decide _); lia.
Qed.

End PPOLoop.

Section PPORun.
Context `{TensorFlow}.
Context `{!Reduction}.
Context {Rollouts Batch Estimate : Type}.

Lemma ppo_iterations_capped (n : nat) (batch_idx num_iter : Z) :
  batch_idx < num_iter ->
  ppo_iterations n batch_idx num_iter = (n `min` Z.to_nat (num_iter - batch_idx))%nat.
Proof.
  revert batch_idx. induction n as [|n IH]; intros batch_idx Hlt;
    cbn [ppo_iterations]; [lia|].
  destruct (decide (batch_idx + 1 = num_iter)) as [Heq|Hne]; [lia|].
  rewrite IH by lia. lia.
Qed.

Lemma ppo_iterations_uncapped (n : nat) (batch_idx num_iter : Z) :
  num_iter <= batch_idx -> ppo_iterations n batch_idx num_iter = n.
Proof.
  revert batch_idx. induction n as [|n IH]; intros batch_idx Hle; cbn; [done|].
  destruct (decide (batch_idx + 1 = num_iter)) as [Heq|Hne]; [lia|].
  by rewrite IH by lia.
Qed.

Lemma ppo_iterations_le (n : nat) (batch_idx num_iter : Z) :
  (ppo_iterations n batch_idx num_iter <= n)%nat.
Proof.
  revert batch_idx. induction n as [|n IH]; intros batch_idx; cbn; [done|].
  destruct (decide (batch_idx + 1 = num_iter)) as [Heq|Hne]; [lia|].
  specialize (IH (batch_idx + 1)). lia.
Qed.

Lemma allreduce_mean_own N column own own' :
  shape own = shape own' -> allreduce_mean N column own = allreduce_mean N column own'.
Proof. intros Hs. unfold allreduce_mean, np_zeros. by rewrite Hs. Qed.

(** Workers with the same session and gradients of the same shapes end one
    step of [minimize] with the same session. *)
Lemma minimize_all_session N self terms world l l' :
  length (MPIOptimizer.placeholders self) = length (MPIOptimizer.grads self) ->
  NoDup (t_id <$> MPIOptimizer.placeholders self) ->
  (forall sess fd fd',
     (forall ph, ph ∈ MPIOptimizer.placeholders self -> fd !! t_id ph = fd' !! t_id ph) ->
     execute (MPIOptimizer.apply self) sess fd = execute (MPIOptimizer.apply self) sess fd') ->
  l.1 = l'.1 ->
  (forall grad, grad ∈ (MPIOptimizer.grads self).*1 ->
     shape (local_value l grad) = shape (local_value l' grad)) ->
  MPIOptimizer.session (minimize_all N self terms world l)
  = MPIOptimizer.session (minimize_all N self terms world l').
Proof.
  intros Hlen Hnd Hexec Hsess Hshape. cbn. rewrite Hsess. apply Hexec. intros ph Hph.
  apply list_elem_of_lookup in Hph as [i Hi].
  destruct (lookup_lt_is_Some_2 (MPIOptimizer.grads self).*1 i) as [grad Hgrad].
  { rewrite length_fmap, <- Hlen. by apply lookup_lt_Some in Hi. }
  rewrite !(averaged_feed_lookup _ _ _ _ i grad ph Hlen Hnd Hgrad Hi). f_equal.
  apply allreduce_mean_own, Hshape. by apply list_elem_of_lookup_2 in Hgrad.
Qed.

(** *** Calls of [minimize], one after the other *)

(** The first of the calls in closed form, and the workers as it leaves
    them. *)
Lemma minimize_calls_S self terms n
    (world : list (gmap positive ndarray * list (gmap positive ndarray))) :
  minimize_calls self terms (S n) world
  = let heads := (fun w => (w.1, head w.2)) <$> world in
    let step w := minimize_all (length world) self terms heads (w.1, head w.2) in
    rest ← minimize_calls self terms n
             ((fun w => (MPIOptimizer.session (step w), tail w.2)) <$> world);
    Some ((step <$> world) :: rest).
Proof.
  cbn [minimize_calls]. rewrite minimize_mpiexec. cbn zeta. rewrite length_fmap.
  cbn [mbind option_bind]. rewrite <- list_fmap_compose.
  by rewrite zip_with_fmap_r, zip_with_diag.
Qed.

(** The calls all return, each on every worker. *)
Lemma minimize_calls_total self terms n
    (world : list (gmap positive ndarray * list (gmap positive ndarray))) :
  exists calls,
    minimize_calls self terms n world = Some calls
    /\ length calls = n
    /\ Forall (fun outs => length outs = length world) calls.
Proof.
  revert world. induction n as [|n IH]; intros world.
  - by exists [].
  - rewrite minimize_calls_S. cbn zeta.
    destruct (IH ((fun w => (MPIOptimizer.session
                               (minimize_all (length world) self terms
                                  ((fun w => (w.1, head w.2)) <$> world)
                                  (w.1, head w.2)), tail w.2)) <$> world))
      as (rest & -> & Hlen & Hall).
    eexists. split; [done|]. split; [by cbn; rewrite Hlen|].
    rewrite length_fmap in Hall. constructor; [by rewrite length_fmap|done].
Qed.

(** A call gives every worker the same tuple. *)
Lemma minimize_calls_returned self terms n
    (world : list (gmap positive ndarray * list (gmap positive ndarray))) calls r r' :
  minimize_calls self terms n world = Some calls ->
  (r < length world)%nat -> (r' < length world)%nat ->
  returned_to r calls = returned_to r' calls.
Proof.
  revert world calls. induction n as [|n IH]; intros world calls.
  - by intros [= <-].
  - rewrite minimize_calls_S. cbn zeta.
    destruct (minimize_calls self terms n _) as [rest|] eqn:Hrest; [|done].
    intros [= <-] Hr Hr'.
    destruct (lookup_lt_is_Some_2 world r Hr) as [w Hw].
    destruct (lookup_lt_is_Some_2 world r' Hr') as [w' Hw'].
    unfold returned_to. cbn [fmap list_fmap]. fold (returned_to r rest) (returned_to r' rest).
    rewrite !list_lookup_fmap, Hw, Hw'. cbn. f_equal.
    apply (IH _ _ Hrest); by rewrite length_fmap.
Qed.

(** The first tuple is the mean of the terms over the workers, each under
    the first of its feed_dicts. *)
Lemma minimize_calls_first self terms n
    (world : list (gmap positive ndarray * list (gmap positive ndarray)))
    calls r tuple :
  minimize_calls self terms n world = Some calls ->
  (r < length world)%nat ->
  returned_to r calls !! 0%nat = Some tuple ->
  tuple = averaged_terms (length world) (default [] terms)
            ((fun w => (w.1, head w.2)) <$> world).
Proof.
  destruct n as [|n].
  - by intros [= <-].
  - rewrite minimize_calls_S. cbn zeta.
    destruct (minimize_calls self terms n _) as [rest|] eqn:Hrest; [|done].
    intros [= <-] Hr. destruct (lookup_lt_is_Some_2 world r Hr) as [w Hw].
    unfold returned_to. cbn [fmap list_fmap]. rewrite list_lookup_fmap, Hw. cbn.
    by intros [= <-].
Qed.

(** Workers with the same session, whose gradients have their static
    shapes, have the same session after every call. *)
Lemma minimize_calls_aligned self terms n
    (world : list (gmap positive ndarray * list (gmap positive ndarray))) calls :
  length (MPIOptimizer.placeholders self) = length (MPIOptimizer.grads self) ->
  NoDup (t_id <$> MPIOptimizer.placeholders self) ->
  (forall sess fd fd',
     (forall ph, ph ∈ MPIOptimizer.placeholders self -> fd !! t_id ph = fd' !! t_id ph) ->
     execute (MPIOptimizer.apply self) sess fd = execute (MPIOptimizer.apply self) sess fd') ->
  (forall w fd sess grad,
     w ∈ world -> fd ∈ w.2 -> grad ∈ (MPIOptimizer.grads self).*1 ->
     shape (fetch sess fd grad) = t_shape grad) ->
  (forall w, w ∈ world -> (n <= length w.2)%nat) ->
  (forall w w', w ∈ world -> w' ∈ world -> w.1 = w'.1) ->
  minimize_calls self terms n world = Some calls ->
  forall r r' w w', world !! r = Some w -> world !! r' = Some w' ->
    session_after r w.1 calls = session_after r' w'.1 calls.
Proof.
  intros Hlen Hnd Hexec. revert world calls.
  induction n as [|n IH]; intros world calls Hshape Hn Hsess.
  - intros [= <-] r r' w w' Hw Hw'. cbn.
    by apply Hsess; eapply list_elem_of_lookup_2.
  - rewrite minimize_calls_S. cbn zeta.
    set (heads := (fun w => (w.1, head w.2)) <$> world).
    set (step := fun w : gmap positive ndarray * list (gmap positive ndarray) =>
                   minimize_all (length world) self terms heads (w.1, head w.2)).
    destruct (minimize_calls self terms n _) as [rest|] eqn:Hrest; [|done].
    intros [= <-] r r' w w' Hw Hw'.
    unfold session_after. cbn [foldl]. rewrite !list_lookup_fmap, Hw, Hw'.
    cbn [fmap option_fmap option_map default].
    refine (IH _ _ _ _ _ Hrest r r' (MPIOptimizer.session (step w), tail w.2)
              (MPIOptimizer.session (step w'), tail w'.2) _ _).
    + intros w0 fd sess grad (w1 & -> & Hw1)%list_elem_of_fmap Hfd Hgrad.
      apply (Hshape w1); [done| |done]. cbn in Hfd.
      destruct w1.2; [done|]. by apply list_elem_of_further.
    + intros w0 (w1 & -> & Hw1)%list_elem_of_fmap. specialize (Hn w1 Hw1). cbn.
      destruct w1.2; cbn in *; lia.
    + intros w0 w0' (w1 & -> & Hw1)%list_elem_of_fmap (w1' & -> & Hw1')%list_elem_of_fmap.
      cbn [fst]. unfold step. apply minimize_all_session; try done.
      * cbn. by apply Hsess.
      * intros grad Hgrad. unfold local_value. cbn [fst snd].
        pose proof (Hn w1 Hw1) as Hn1. pose proof (Hn w1' Hw1') as Hn1'.
        destruct w1.2 as [|fd fds] eqn:E1; [cbn in Hn1; lia|].
        destruct w1'.2 as [|fd' fds'] eqn:E1'; [cbn in Hn1'; lia|].
        cbn [head default].
        rewrite (Hshape w1 fd _ grad Hw1), (Hshape w1' fd' _ grad Hw1'); try done.
        -- rewrite E1'. apply list_elem_of_here.
        -- rewrite E1. apply list_elem_of_here.
    + by rewrite list_lookup_fmap, Hw.
    + by rewrite list_lookup_fmap, Hw'.
Qed.

(** *** The loop on every rank *)

(** The logging step of one iteration, on every rank: the ranks all get
    through it, or one of them raises and the job does not return. *)
Lemma log_step_run {L A} (comm : L -> Comm) (log_fn : L -> option (LogMessage -> unit))
    (batch_idx : Z) (terms : L -> list ndarray) (logged0 : L -> list LogMessage)
    (k : L -> list LogMessage -> mpi A) (ls : list L) :
  (forall l, length (terms l) = 4%nat) ->
  let job :=
    mpirun ((fun l => bind (log_batch_terms (comm l) (log_fn l) batch_idx (terms l)
                              (logged0 l)) (k l)) <$> ls) in
  (Forall (fun l => logs_through (comm l) (log_fn l) (terms l) = true) ls
   /\ job = mpirun ((fun l => k l (logged_after (comm l) (log_fn l) batch_idx (terms l)
                                     (logged0 l))) <$> ls))
  \/ (Exists (fun l => logs_through (comm l) (log_fn l) (terms l) = false) ls
      /\ job = None).
Proof.
  intros Hlen. cbn zeta.
  destruct (decide (Forall (fun l => logs_through (comm l) (log_fn l) (terms l) = true) ls))
    as [Hall|Hex].
  - left. split; [done|]. f_equal. apply Forall_fmap_ext_1.
    eapply Forall_impl; [exact Hall|]. intros l Hl. cbn beta.
    by rewrite log_batch_terms_returns.
  - right. apply not_Forall_Exists in Hex; [|intros l; apply _].
    apply Exists_exists in Hex as (l & Hl & Hlog). cbn in Hlog.
    apply not_true_is_false in Hlog. split.
    + apply Exists_exists. by exists l.
    + destruct (log_batch_terms_raises (comm l) (log_fn l) batch_idx (terms l)
                  (logged0 l) Hlog) as [exc Hexc].
      apply (mpirun_Raise _ exc), list_elem_of_fmap. exists l. split; [|done].
      by rewrite Hexc.
Qed.

(** The loop on ranks that are all to make [n] iterations, against [n]
    calls of [minimize] by the group: a job that returns leaves on each rank
    the tuples and the session that the calls gave it, and the job does
    return when the logging step goes through on every tuple. *)
Lemma ppo_loop_trace {L} (comm : L -> Comm) (ppo : @PPO _ Rollouts Batch Estimate)
    (optimizer : MPIOptimizer.t) (rollouts : L -> Rollouts)
    (advantages targets : L -> Estimate) (num_iter : Z)
    (log_fn : L -> option (LogMessage -> unit))
    (extra_feed_dict : L -> option (gmap positive ndarray))
    (feed : L -> Batch -> gmap positive ndarray) (ls : list L) (n : nat) :
  (forall l, Get_size (comm l) = length ls) -> ls <> [] ->
  (forall l batch,
     feed l batch
     = match extra_feed_dict l with
       | Some extra =>
           extra ∪ ppo_feed_dict ppo (rollouts l) batch (advantages l) (targets l)
       | None => ppo_feed_dict ppo (rollouts l) batch (advantages l) (targets l)
       end) ->
  forall (batch_idx : Z) (batches : L -> list Batch) (st : L -> ppo_state) calls,
    Forall (fun l => ppo_iterations (length (batches l)) batch_idx num_iter = n) ls ->
    minimize_calls optimizer (ppo_terms ppo) n
      ((fun l => (model_session (st l), feed l <$> batches l)) <$> ls) = Some calls ->
    let job :=
      mpirun ((fun l =>
        ppo_loop (comm l) ppo optimizer (rollouts l) (advantages l) (targets l) num_iter
          (log_fn l) (extra_feed_dict l) (batches l) batch_idx (st l)) <$> ls) in
    (forall outs, job = Some outs ->
       exists fin : L -> ppo_state,
         outs = fin <$> ls
         /\ forall r l, ls !! r = Some l ->
              result (fin l) = result (st l) ++ returned_to r calls
              /\ model_session (fin l) = session_after r (model_session (st l)) calls)
    /\ ((forall r l, ls !! r = Some l ->
           Forall (fun terms => logs_through (comm l) (log_fn l) terms = true)
             (returned_to r calls)) ->
        is_Some job).
Proof.
  intros HN Hls Hfeed.
  induction n as [|n IH]; intros batch_idx batches st calls Hn Hcalls; cbn zeta.
  - injection Hcalls as <-.
    rewrite (Forall_fmap_ext_1 _ (fun l => Ret (st l))).
    2:{ eapply Forall_impl; [exact Hn|]. intros l Hl. cbn beta in *.
        destruct (batches l); [done|]. cbn in Hl. by destruct (decide _). }
    rewrite mpirun_Ret. split; [|eauto].
    intros outs [= <-]. exists st. split; [done|]. intros r l _.
    by rewrite app_nil_r.
  - pose (loc := fun l => (model_session (st l), head (feed l <$> batches l))).
    pose (m' := fun l =>
      minimize_all (length ls) optimizer (ppo_terms ppo) (loc <$> ls) (loc l)).
    pose (st' := fun l (logged' : list LogMessage) =>
      {| result := result (st l) ++ [MPIOptimizer.returned (m' l)];
         model_session := MPIOptimizer.session (m' l);
         logged := logged' |}).
    pose (st'' := fun l =>
      st' l (logged_after (comm l) (log_fn l) batch_idx (MPIOptimizer.returned (m' l))
               (logged (st l)))).
    assert (Hbatch : forall l, l ∈ ls -> exists batch rest, batches l = batch :: rest).
    { intros l Hl. rewrite Forall_forall in Hn. specialize (Hn l Hl). cbn beta in Hn.
      destruct (batches l) as [|batch rest]; [done|]. eauto. }
    rewrite (Forall_fmap_ext_1 _
               (fun l => bind (MPIOptimizer.minimize (comm l) optimizer (loc l).1 (loc l).2
                                 (ppo_terms ppo))
                           (fun m =>
                              bind (log_batch_terms (comm l) (log_fn l) batch_idx
                                      (MPIOptimizer.returned m) (logged (st l)))
                                (fun logged' =>
                                   let st1 :=
                                     {| result := result (st l) ++ [MPIOptimizer.returned m];
                                        model_session := MPIOptimizer.session m;
                                        logged := logged' |} in
                                   if decide (batch_idx + 1 = num_iter) then Ret st1
                                   else ppo_loop (comm l) ppo optimizer (rollouts l)
                                          (advantages l) (targets l) num_iter (log_fn l)
                                          (extra_feed_dict l) (tail (batches l))
                                          (batch_idx + 1) st1)))).
    2:{ apply Forall_forall. intros l Hl. destruct (Hbatch l Hl) as (batch & rest & Hb).
        unfold loc. rewrite Hb. cbn [fmap list_fmap head fst snd tail]. by rewrite Hfeed. }
    rewrite (mpirun_bind _ _ _ ls (minimize_run comm optimizer loc (ppo_terms ppo) ls)).
    rewrite (list_fmap_ext _
               (fun l => bind (log_batch_terms (comm l) (log_fn l) batch_idx
                                 (MPIOptimizer.returned (m' l)) (logged (st l)))
                           (fun logged' =>
                              if decide (batch_idx + 1 = num_iter) then Ret (st' l logged')
                              else ppo_loop (comm l) ppo optimizer (rollouts l)
                                     (advantages l) (targets l) num_iter (log_fn l)
                                     (extra_feed_dict l) (tail (batches l))
                                     (batch_idx + 1) (st' l logged'))) ls).
    2:{ intros _ l _. cbn beta zeta. unfold m', st'. by rewrite HN. }
    rewrite minimize_calls_S in Hcalls. cbn zeta in Hcalls.
    rewrite length_fmap, <- !list_fmap_compose in Hcalls.
    change (minimize_calls optimizer (ppo_terms ppo) n
              ((fun l => (model_session (st'' l), tail (feed l <$> batches l))) <$> ls)
            ≫= (fun rest => Some ((m' <$> ls) :: rest)) = Some calls) in Hcalls.
    destruct (minimize_calls optimizer (ppo_terms ppo) n _) as [rest|] eqn:Hrest; [|done].
    injection Hcalls as <-.
    assert (Hhead : forall r l, ls !! r = Some l ->
              returned_to r ((m' <$> ls) :: rest)
              = MPIOptimizer.returned (m' l) :: returned_to r rest
              /\ session_after r (model_session (st l)) ((m' <$> ls) :: rest)
                 = session_after r (model_session (st'' l)) rest).
    { intros r l Hl. unfold returned_to, session_after. cbn [fmap list_fmap foldl].
      by rewrite list_lookup_fmap, Hl. }
    destruct (log_step_run comm log_fn batch_idx
                (fun l => MPIOptimizer.returned (m' l)) (fun l => logged (st l))
                (fun l logged' =>
                   if decide (batch_idx + 1 = num_iter) then Ret (st' l logged')
                   else ppo_loop (comm l) ppo optimizer (rollouts l) (advantages l)
                          (targets l) num_iter (log_fn l) (extra_feed_dict l)
                          (tail (batches l)) (batch_idx + 1) (st' l logged'))
                ls ltac:(done)) as [[Hall Hstep]|[Hex Hstep]];
      cbn zeta in Hstep; rewrite Hstep; clear Hstep.
    + destruct (decide (batch_idx + 1 = num_iter)) as [Heq|Hne].
      * assert (n = 0%nat) as ->.
        { destruct ls as [|l ls']; [done|].
          apply Forall_cons in Hn as [Hl _]. destruct (batches l); [done|].
          cbn in Hl. rewrite decide_True in Hl by done. lia. }
        injection Hrest as <-.
        change (fun l => Ret (st' l (logged_after (comm l) (log_fn l) batch_idx
                                       (MPIOptimizer.returned (m' l)) (logged (st l)))))
          with (fun l => Ret (st'' l)).
        rewrite mpirun_Ret. split; [|eauto].
        intros outs [= <-]. exists st''. split; [done|]. intros r l Hl.
        by destruct (Hhead r l Hl) as [-> ->].
      * destruct (IH (batch_idx + 1) (fun l => tail (batches l)) st'' rest) as [HA HB].
        { eapply Forall_impl; [exact Hn|]. intros l Hl. cbn beta in *.
          destruct (batches l); [done|]. cbn in Hl.
          rewrite decide_False in Hl by done. cbn. lia. }
        { rewrite <- Hrest. f_equal. apply list_fmap_ext. intros _ l _.
          by rewrite fmap_tail. }
        split.
        -- intros outs Houts. destruct (HA outs Houts) as (fin & -> & Hfin).
           exists fin. split; [done|]. intros r l Hl.
           destruct (Hfin r l Hl) as [Hres Hsess]. destruct (Hhead r l Hl) as [-> ->].
           rewrite Hres, Hsess. cbn. by rewrite <- app_assoc.
        -- intros Hlog. apply HB. intros r l Hl. specialize (Hlog r l Hl).
           destruct (Hhead r l Hl) as [Hr _]. rewrite Hr in Hlog.
           by apply Forall_cons in Hlog as [_ ?].
    + split; [done|]. intros Hlog. exfalso.
      apply Exists_exists in Hex as (l & [r Hl]%list_elem_of_lookup & Hfalse).
      specialize (Hlog r l Hl). destruct (Hhead r l Hl) as [Hr _]. rewrite Hr in Hlog.
      apply Forall_cons in Hlog as [Htrue _]. congruence.
Qed.

Lemma mpi_ppo_iterations_agree (ppo : @PPO _ Rollouts Batch Estimate)
    (optimizer : MPIOptimizer.t) (num_iter : Z)
    (locals : list (@ppo_local _ Rollouts)) outs r l r' l' :
  mpiexec (mpi_ppo_on ppo optimizer num_iter) locals = Some outs ->
  locals !! r = Some l -> locals !! r' = Some l' ->
  ppo_iterations (length (model_batches ppo (local_rollouts l) (local_batch_size l)))
    0 num_iter
  = ppo_iterations (length (model_batches ppo (local_rollouts l') (local_batch_size l')))
      0 num_iter.
Proof.
  intros Hrun Hl Hl'.
  pose proof (mpiexec_follows _ locals outs
                (fun l => mjoin (replicate
                   (ppo_iterations
                      (length (model_batches ppo (local_rollouts l) (local_batch_size l)))
                      0 num_iter)
                   (replicate (length (MPIOptimizer.grads optimizer)
                                 `min` length (MPIOptimizer.placeholders optimizer))
                      MPI_Allreduce
                    ++ replicate 4 MPI_allreduce)))
                Hrun ltac:(intros; apply ppo_loop_follows) r l r' l' Hl Hl') as Heq.
  apply (f_equal length) in Heq.
  rewrite !length_join_replicate, !length_app, !length_replicate in Heq. nia.
Qed.

(** The job of [mpi_ppo] on workers that are all to make [n] iterations,
    against [n] calls of [minimize] by the group. *)
Lemma mpi_ppo_trace (ppo : @PPO _ Rollouts Batch Estimate)
    (optimizer : MPIOptimizer.t) (num_iter : Z)
    (locals : list (@ppo_local _ Rollouts)) (n : nat) :
  (forall l, l ∈ locals ->
     ppo_iterations
       (length (model_batches ppo (local_rollouts l) (local_batch_size l))) 0 num_iter
     = n) ->
  locals <> [] ->
  exists calls,
    minimize_calls optimizer (ppo_terms ppo) n (ppo_start ppo <$> locals) = Some calls
    /\ length calls = n
    /\ (forall outs, mpiexec (mpi_ppo_on ppo optimizer num_iter) locals = Some outs ->
          forall r l out, locals !! r = Some l -> outs !! r = Some out ->
            result out = returned_to r calls
            /\ model_session out = session_after r (local_session l) calls)
    /\ ((forall l, locals !! 0%nat = Some l -> is_Some (local_log_fn l) ->
           forallb loggable (returned_to 0 calls) = true) ->
        is_Some (mpiexec (mpi_ppo_on ppo optimizer num_iter) locals)).
Proof.
  intros Hn Hlocals.
  destruct (minimize_calls_total optimizer (ppo_terms ppo) n (ppo_start ppo <$> locals))
    as (calls & Hcalls & Hlen & _).
  exists calls. split; [done|]. split; [done|].
  assert (Hlookup : forall r (rl : nat * ppo_local),
            imap pair locals !! r = Some rl -> rl.1 = r /\ locals !! r = Some rl.2).
  { intros r rl. rewrite list_lookup_imap.
    destruct (locals !! r) as [l|]; [|done]. by intros [= <-]. }
  destruct (ppo_loop_trace
              (fun rl : nat * ppo_local =>
                 {| Get_rank := rl.1; Get_size := length locals |})
              ppo optimizer (fun rl => local_rollouts rl.2)
              (fun rl => adv_est_advantages ppo (local_rollouts rl.2))
              (fun rl => adv_est_targets ppo (local_rollouts rl.2))
              num_iter (fun rl => local_log_fn rl.2)
              (fun rl => local_extra_feed_dict rl.2)
              (fun rl => batch_feed ppo rl.2) (imap pair locals) n
              ltac:(by intros; rewrite length_imap)
              ltac:(by destruct locals)
              ltac:(done) 0
              (fun rl => model_batches ppo (local_rollouts rl.2) (local_batch_size rl.2))
              (fun rl => {| result := []; model_session := local_session rl.2;
                            logged := [] |}) calls) as [HA HB].
  { apply Forall_forall. intros rl Hrl. apply Hn.
    rewrite <- (enumerate_snd locals). by apply list_elem_of_fmap_2. }
  { rewrite <- Hcalls. f_equal. rewrite <- (enumerate_snd locals) at 2.
    by rewrite <- list_fmap_compose. }
  rewrite mpiexec_enumerate. unfold mpi_ppo_on, mpi_ppo. split.
  - intros outs Houts r l out Hl Hout.
    destruct (HA outs Houts) as (fin & -> & Hfin).
    apply list_lookup_fmap_Some in Hout as (rl & -> & Hrl).
    destruct (Hfin r rl Hrl) as [Hres Hsess]. cbn in Hres, Hsess.
    destruct (Hlookup r rl Hrl) as [_ Hrl2]. rewrite Hl in Hrl2. injection Hrl2 as ->.
    done.
  - intros Hlog. apply HB. intros r rl Hrl.
    destruct (Hlookup r rl Hrl) as [Hr Hrl2]. apply Forall_forall. intros terms Hterms.
    unfold logs_through. cbn [Get_rank]. destruct (local_log_fn rl.2) eqn:Hfn; [|done].
    destruct (decide (rl.1 = 0%nat)) as [Hroot|]; [|done].
    rewrite Hroot in Hr. subst r.
    specialize (Hlog rl.2 Hrl2 ltac:(by rewrite Hfn)).
    rewrite forallb_forall in Hlog. apply Hlog. by apply list_elem_of_In.
Qed.

(** What the job leaves on each rank once it has returned. *)
Lemma mpi_ppo_after (ppo : @PPO _ Rollouts Batch Estimate)
    (optimizer : MPIOptimizer.t) (num_iter : Z)
    (locals : list (@ppo_local _ Rollouts)) outs r l out :
  mpiexec (mpi_ppo_on ppo optimizer num_iter) locals = Some outs ->
  locals !! r = Some l -> outs !! r = Some out ->
  let n := ppo_iterations
             (length (model_batches ppo (local_rollouts l) (local_batch_size l)))
             0 num_iter in
  length (result out) = n
  /\ Forall (fun terms => length terms = 4%nat) (result out)
  /\ length (logged out)
     = if decide (r = 0%nat /\ is_Some (local_log_fn l)) then n else 0%nat.
Proof.
  intros Hrun Hl Hout.
  eapply (mpiexec_always _ _ _ r l out (fun _ => True)); [exact Hrun|done|done|].
  unfold mpi_ppo_on, mpi_ppo.
  eapply always_mono; [done| |apply ppo_loop_always].
  cbn. intros st' (Hres & Hall & Hlog). split; [done|]. split; [by apply Hall|].
  rewrite Hlog. by destruct (decide _).
Qed.

(** The trace of a job that has returned. *)
Lemma mpi_ppo_returned (ppo : @PPO _ Rollouts Batch Estimate)
    (optimizer : MPIOptimizer.t) (num_iter : Z)
    (locals : list (@ppo_local _ Rollouts)) outs r l out :
  mpiexec (mpi_ppo_on ppo optimizer num_iter) locals = Some outs ->
  locals !! r = Some l -> outs !! r = Some out ->
  let n := ppo_iterations
             (length (model_batches ppo (local_rollouts l) (local_batch_size l)))
             0 num_iter in
  exists calls,
    minimize_calls optimizer (ppo_terms ppo) n (ppo_start ppo <$> locals) = Some calls
    /\ length calls = n
    /\ result out = returned_to r calls
    /\ model_session out = session_after r (local_session l) calls.
Proof.
  intros Hrun Hl Hout. cbn zeta.
  destruct (mpi_ppo_trace ppo optimizer num_iter locals
              (ppo_iterations
                 (length (model_batches ppo (local_rollouts l) (local_batch_size l)))
                 0 num_iter)) as (calls & Hcalls & Hlen & HA & _).
  { intros l' [r' Hl']%list_elem_of_lookup.
    exact (mpi_ppo_iterations_agree ppo optimizer num_iter locals outs r' l' r l
             Hrun Hl' Hl). }
  { intros ->. done. }
  exists calls. split; [done|]. split; [done|]. exact (HA outs Hrun r l out Hl Hout).
Qed.

(** The job returns when every worker is to make the same number of
    iterations and the format string takes every tuple that rank 0 is to
    log. *)
Lemma mpi_ppo_returns (ppo : @PPO _ Rollouts Batch Estimate)
    (optimizer : MPIOptimizer.t) (num_iter : Z)
    (locals : list (@ppo_local _ Rollouts)) (n : nat) :
  (forall l, l ∈ locals ->
     ppo_iterations
       (length (model_batches ppo (local_rollouts l) (local_batch_size l))) 0 num_iter
     = n) ->
  (forall l, locals !! 0%nat = Some l -> is_Some (local_log_fn l) ->
     loggable_calls optimizer (ppo_terms ppo) n (ppo_start ppo <$> locals) = true) ->
  is_Some (mpiexec (mpi_ppo_on ppo optimizer num_iter) locals).
Proof.
  intros Hn Hlog. destruct locals as [|l0 locals'] eqn:Hlocals; [by eexists|].
  rewrite <- Hlocals in *.
  destruct (mpi_ppo_trace ppo optimizer num_iter locals n Hn)
    as (calls & Hcalls & _ & _ & HB).
  { by rewrite Hlocals. }
  apply HB. intros l Hl Hfn. specialize (Hlog l Hl Hfn).
  unfold loggable_calls in Hlog. by rewrite Hcalls in Hlog.
Qed.

End PPORun.

(** C7, as the code has it.  For an iteration cap of at least one:
    [mpi_ppo] calls [minimize] once per batch, up to [num_iter] of them,
    each time on the session the call before left, under the feed_dict of
    the batch and for the four terms, and has returned on every worker the
    list of the tuples these calls returned to it, in order:
    min(number of batches, [num_iter]) tuples of four terms.  It does return
    when that number is the same on every worker and the format string
    takes every tuple that rank 0 is to log. *)
Theorem mpi_ppo_result_length `{TensorFlow} `{!Reduction} {Rollouts Batch Estimate : Type}
    (ppo : @PPO _ Rollouts Batch Estimate) (optimizer : MPIOptimizer.t)
    (num_iter : Z) (locals : list (@ppo_local _ Rollouts)) :
  1 <= num_iter ->
  let job := mpiexec (mpi_ppo_on ppo optimizer num_iter) locals in
  let iterations (l : ppo_local) :=
    (length (model_batches ppo (local_rollouts l) (local_batch_size l))
       `min` Z.to_nat num_iter)%nat in
  (forall n,
     (forall l, l ∈ locals -> iterations l = n) ->
     (forall l, locals !! 0%nat = Some l -> is_Some (local_log_fn l) ->
        loggable_calls optimizer (ppo_terms ppo) n (ppo_start ppo <$> locals) = true) ->
     is_Some job)
  /\ forall outs, job = Some outs ->
       length outs = length locals
       /\ forall r l out, locals !! r = Some l -> outs !! r = Some out ->
            length (result out) = iterations l
            /\ Forall (fun terms => length terms = 4%nat) (result out)
            /\ exists calls,
                 minimize_calls optimizer (ppo_terms ppo) (iterations l)
                   (ppo_start ppo <$> locals) = Some calls
                 /\ length calls = iterations l
                 /\ result out = returned_to r calls
                 /\ model_session out = session_after r (local_session l) calls.
Proof.
  intros Hcap. cbn zeta. split.
  - intros n Hn Hlog. apply (mpi_ppo_returns ppo optimizer num_iter locals n); [|done].
    intros l Hl. rewrite ppo_iterations_capped by lia.
    rewrite Z.sub_0_r. by apply Hn.
  - intros outs Hrun. split; [by apply mpiexec_length in Hrun|].
    intros r l out Hl Hout.
    destruct (mpi_ppo_after ppo optimizer num_iter locals outs r l out Hrun Hl Hout)
      as (Hres & Hall & _).
    pose proof (mpi_ppo_returned ppo optimizer num_iter locals outs r l out Hrun Hl Hout)
      as Hcalls. cbn zeta in Hcalls.
    rewrite ppo_iterations_capped, Z.sub_0_r in Hres, Hcalls by lia. done.
Qed.

(** C8. Once [mpi_ppo] has returned, a worker of non-zero rank has not
    called [log_fn], nor has a worker without a [log_fn], and rank 0 with a
    [log_fn] has called it once for each iteration the loop is to make on
    its batches, which is once for each tuple of its result; and [mpi_ppo]
    does return when every worker is to make the same number of iterations
    and the format string takes every tuple that rank 0 is to log. *)
Theorem mpi_ppo_logs_on_root `{TensorFlow} `{!Reduction} {Rollouts Batch Estimate : Type}
    (ppo : @PPO _ Rollouts Batch Estimate) (optimizer : MPIOptimizer.t)
    (num_iter : Z) (locals : list (@ppo_local _ Rollouts)) :
  let job := mpiexec (mpi_ppo_on ppo optimizer num_iter) locals in
  let iterations (l : ppo_local) :=
    ppo_iterations (length (model_batches ppo (local_rollouts l) (local_batch_size l)))
      0 num_iter in
  (forall n,
     (forall l, l ∈ locals -> iterations l = n) ->
     (forall l, locals !! 0%nat = Some l -> is_Some (local_log_fn l) ->
        loggable_calls optimizer (ppo_terms ppo) n (ppo_start ppo <$> locals) = true) ->
     is_Some job)
  /\ forall outs, job = Some outs ->
       forall r l out, locals !! r = Some l -> outs !! r = Some out ->
         (r <> 0%nat -> logged out = [])
         /\ (local_log_fn l = None -> logged out = [])
         /\ (r = 0%nat -> is_Some (local_log_fn l) ->
             length (logged out) = iterations l
             /\ length (logged out) = length (result out)).
Proof.
  cbn zeta. split.
  - intros n Hn Hlog. by apply (mpi_ppo_returns ppo optimizer num_iter locals n).
  - intros outs Hrun r l out Hl Hout.
    destruct (mpi_ppo_after ppo optimizer num_iter locals outs r l out Hrun Hl Hout)
      as (Hres & _ & Hlog).
    split; [|split].
    + intros Hr. rewrite decide_False in Hlog by tauto. by apply nil_length_inv.
    + intros Hnone. rewrite decide_False in Hlog; [by apply nil_length_inv|].
      rewrite Hnone. intros [_ []]. done.
    + intros Hr Hfn. rewrite decide_True in Hlog by done. split; [done|lia].
Qed.

(** * Further properties of the module *)

(** ** The collectives a process calls *)

(** X1. Whatever the collectives return, a call of [minimize] that runs to
    its end has called [Allreduce] once for each gradient, then [allreduce]
    once for each term, in this order, and no other collective. *)
Theorem minimize_collectives `{TensorFlow} `{!Reduction} (g : Graph) (optimizer : Optimizer)
    (loss : Tensor) (var_list : option (list TFVariable)) (comm : Comm)
    (sess : gmap positive ndarray) (feed_dict : option (gmap positive ndarray))
    (terms : option (list Tensor)) :
  let self := (MPIOptimizer.__init__ g optimizer loss var_list).2 in
  follows (replicate (length (MPIOptimizer.grads self)) MPI_Allreduce
           ++ replicate (length (default [] terms)) MPI_allreduce)
    (MPIOptimizer.minimize comm self sess feed_dict terms).
Proof.
  cbn zeta.
  destruct (init_placeholders g optimizer loss var_list) as (Hlen & _).
  pose proof (minimize_follows comm (MPIOptimizer.__init__ g optimizer loss var_list).2
                sess feed_dict terms) as Hm.
  by rewrite Hlen, Nat.min_id in Hm.
Qed.

(** X2. Workers that call [minimize] with different numbers of terms do not
    all get out of the call: the job does not return. *)
Theorem minimize_terms_mismatch `{TensorFlow} `{!Reduction} (self : MPIOptimizer.t)
    (locals : list (gmap positive ndarray * option (gmap positive ndarray)
                    * option (list Tensor)))
    (r r' : nat) l l' :
  locals !! r = Some l -> locals !! r' = Some l' ->
  length (default [] l.2) <> length (default [] l'.2) ->
  mpiexec (fun comm l => MPIOptimizer.minimize comm self l.1.1 l.1.2 l.2) locals = None.
Proof.
  intros Hl Hl' Hne.
  destruct (mpiexec _ locals) as [outs|] eqn:Hrun; [|done]. exfalso. apply Hne.
  pose proof (mpiexec_follows _ locals outs
                (fun l => replicate (length (MPIOptimizer.grads self)
                                       `min` length (MPIOptimizer.placeholders self))
                            MPI_Allreduce
                          ++ replicate (length (default [] l.2)) MPI_allreduce)
                Hrun ltac:(intros; apply minimize_follows) r l r' l' Hl Hl') as Heq.
  apply (f_equal length) in Heq. rewrite !length_app, !length_replicate in Heq. lia.
Qed.

(** X3. Whatever the collectives return, a call of [sync] that runs to its
    end has called [bcast] once for each variable, on the root and on the
    other ranks alike, and no other collective; a call that raises has
    called [bcast] fewer times, and nothing else. *)
Theorem sync_collectives `{Arith} `{!Reduction} (g : Graph) (variables : list TFVariable)
    (comm : Comm) (sess : gmap positive ndarray) :
  follows (replicate (length variables) MPI_bcast)
    (_VarSync.sync comm (_VarSync.__init__ g variables).2 sess).
Proof.
  destruct (VarSync_init_items g variables) as (vps & <- & Hsync).
  rewrite Hsync. pose proof (sync_loop_follows (Get_rank comm) (sync_items vps) sess) as Hs.
  unfold sync_items in Hs. by rewrite !length_fmap in *.
Qed.

(** ** More on _VarSync and on construction *)

Section SyncFrame.
Context `{Arith}.
Context `{!Reduction}.

Lemma received_other root variables sess k :
  k ∉ v_id <$> variables -> received root variables sess !! k = sess !! k.
Proof.
  revert sess. induction variables as [|v vs IH]; intros sess Hk; [done|].
  rewrite fmap_cons, not_elem_of_cons in Hk. destruct Hk as [Hne Hk].
  unfold received. cbn. etrans; [by apply IH|].
  destruct (root !! v_id v); [|done]. by rewrite lookup_insert_ne.
Qed.

(** A second pass over the variables receives what the first has left. *)
Lemma received_twice root variables sess :
  Forall (fun v => is_Some (root !! v_id v)) variables ->
  received root variables (received root variables sess) = received root variables sess.
Proof.
  intros Hroot. apply map_eq. intros k.
  destruct (decide (k ∈ v_id <$> variables)) as [Hin|Hout].
  - apply list_elem_of_fmap in Hin as (v & -> & Hv).
    rewrite Forall_forall in Hroot.
    by rewrite !received_lookup by auto.
  - by rewrite received_other.
Qed.

(** What a job of [sync] that has returned tells: the root had a value for
    every variable, it keeps its session, and the others hold what they
    received. *)
Lemma sync_run_inv g variables root others after :
  mpiexec (fun comm sess => _VarSync.sync comm (_VarSync.__init__ g variables).2 sess)
    (root :: others) = Some after ->
  Forall (fun v => is_Some (root !! v_id v)) variables
  /\ after = root :: (received root variables <$> others).
Proof.
  rewrite sync_run. intros Hrun.
  destruct (mapM (run_variable root) variables) as [vals|] eqn:Hvals; [|done].
  cbn in Hrun. injection Hrun as <-. split; [|done].
  apply mapM_Some_1 in Hvals. eapply Forall2_Forall_l; [exact Hvals|].
  apply Forall_true. intros value v Hv. by exists value.
Qed.

Lemma sync_run_lookup g variables root others after r sess v :
  mpiexec (fun comm sess => _VarSync.sync comm (_VarSync.__init__ g variables).2 sess)
    (root :: others) = Some after ->
  after !! r = Some sess -> v ∈ variables -> sess !! v_id v = root !! v_id v.
Proof.
  intros [Hroot ->]%sync_run_inv Hr Hv. rewrite Forall_forall in Hroot.
  destruct r as [|r]; [by injection Hr as <-|].
  change ((received root variables <$> others) !! r = Some sess) in Hr.
  apply list_lookup_fmap_Some in Hr as (sess0 & -> & _).
  apply received_lookup; auto.
Qed.

End SyncFrame.

(** X4. [sync] touches the synchronized variables only: on every worker, an
    entry of the session that is not one of them is after the call what it
    was before. *)
Theorem sync_leaves_other_entries `{Arith} `{!Reduction} (g : Graph) (variables : list TFVariable)
    (locals after : list (gmap positive ndarray)) :
  mpiexec (fun comm sess => _VarSync.sync comm (_VarSync.__init__ g variables).2 sess)
    locals = Some after ->
  forall r before sess k,
    locals !! r = Some before -> after !! r = Some sess ->
    k ∉ v_id <$> variables -> sess !! k = before !! k.
Proof.
  intros Hrun r before sess k Hbefore Hafter Hk.
  destruct locals as [|root others]; [done|].
  apply sync_run_inv in Hrun as [_ ->].
  destruct r as [|r]; [by simplify_eq/=|].
  change (others !! r = Some before) in Hbefore.
  change ((received root variables <$> others) !! r = Some sess) in Hafter.
  rewrite list_lookup_fmap, Hbefore in Hafter. injection Hafter as <-.
  by apply received_other.
Qed.

(** X5. The job of [sync] returns exactly when the root has a value for
    every variable of the synchronizer; what the other workers hold, or
    whether their variables are initialized, plays no part. *)
Theorem sync_returns_iff_root_initialized `{Arith} `{!Reduction} (g : Graph)
    (variables : list TFVariable) (root : gmap positive ndarray)
    (others : list (gmap positive ndarray)) :
  is_Some (mpiexec (fun comm sess =>
                      _VarSync.sync comm (_VarSync.__init__ g variables).2 sess)
             (root :: others))
  <-> forall v, v ∈ variables -> is_Some (root !! v_id v).
Proof.
  split.
  - intros [after [Hroot _]%sync_run_inv]. by rewrite Forall_forall in Hroot.
  - intros Hroot. rewrite sync_run.
    destruct (mapM_is_Some_2 (run_variable root) variables) as [vals ->]; [|done].
    apply Forall_forall. intros v Hv. by apply Hroot.
Qed.

(** X6. A second [sync] changes nothing: run on the sessions a first [sync]
    has left, it returns and leaves them as they are. *)
Theorem sync_twice `{Arith} `{!Reduction} (g : Graph) (variables : list TFVariable)
    (locals after : list (gmap positive ndarray)) :
  mpiexec (fun comm sess => _VarSync.sync comm (_VarSync.__init__ g variables).2 sess)
    locals = Some after ->
  mpiexec (fun comm sess => _VarSync.sync comm (_VarSync.__init__ g variables).2 sess)
    after = Some after.
Proof.
  intros Hrun. destruct locals as [|root others].
  { cbn in Hrun. by injection Hrun as <-. }
  apply sync_run_inv in Hrun as [Hroot ->]. rewrite sync_run.
  destruct (mapM_is_Some_2 (run_variable root) variables) as [vals ->].
  { eapply Forall_impl; [exact Hroot|]. done. }
  cbn. do 2 f_equal. rewrite <- list_fmap_compose. apply list_fmap_ext.
  intros _ sess _. cbn. by apply received_twice.
Qed.

(** X7. After [sync_from_root] of an optimizer built by [__init__], every
    worker holds the root's value for every variable that has a gradient
    and for every variable that was added to the global collection during
    construction. *)
Theorem sync_from_root_aligns `{TensorFlow} `{!Reduction} (g : Graph) (optimizer : Optimizer)
    (loss : Tensor) (var_list : option (list TFVariable))
    (root : gmap positive ndarray) (others : list (gmap positive ndarray)) :
  let self := (MPIOptimizer.__init__ g optimizer loss var_list).2 in
  let computed := compute_gradients optimizer g loss var_list in
  let placed := MPIOptimizer.placeholders_for computed.1 (MPIOptimizer.grads self) in
  let built :=
    apply_gradients optimizer placed.1.1
      (zip (MPIOptimizer.placeholders self) (MPIOptimizer.grads self).*2) in
  forall after,
    mpiexec (fun comm sess => MPIOptimizer.sync_from_root comm self sess) (root :: others)
    = Some after ->
    forall r sess v,
      after !! r = Some sess ->
      (exists grad, (Some grad, v) ∈ computed.2)
      \/ (v ∈ GLOBAL_VARIABLES built.1 /\ v ∉ GLOBAL_VARIABLES g) ->
      sess !! v_id v = root !! v_id v.
Proof.
  cbn zeta. destruct (init_unfold g optimizer loss var_list) as (Hg & Hp & _ & Hs).
  unfold MPIOptimizer.sync_from_root. rewrite Hs, Hp, Hg.
  intros after Hrun r sess v Hr Hv.
  apply (sync_run_lookup _ _ _ _ _ r sess v Hrun Hr).
  apply elem_of_app. destruct Hv as [[grad Hin]|[Hin Hold]].
  - left. apply list_elem_of_fmap. exists (grad, v). split; [done|].
    unfold MPIOptimizer.non_null. apply list_elem_of_omap. by exists (Some grad, v).
  - right. unfold MPIOptimizer.not_in. by apply list_elem_of_filter.
Qed.

Section Placeholders.
Context `{Arith}.
Context `{!Reduction}.

Lemma VarSync_placeholders_for_spec g variables :
  let phs := (_VarSync.placeholders_for g variables).2 in
  Forall (fun ph => (next_id g <= t_id ph)%positive) phs
  /\ NoDup (t_id <$> phs)
  /\ Forall2 (fun ph v => t_dtype ph = v_dtype v /\ t_shape ph = v_shape v) phs variables.
Proof.
  cbn zeta. revert g. induction variables as [|v vs IH]; intros g.
  - cbn. repeat split; constructor.
  - cbn. specialize (IH {| next_id := Pos.succ (next_id g);
                           GLOBAL_VARIABLES := GLOBAL_VARIABLES g |}).
    destruct _VarSync.placeholders_for as [g' phs].
    destruct IH as (Hge & Hnd & Hty). cbn in *. split; [|split].
    + constructor; [cbn; lia|]. eapply Forall_impl; [exact Hge|]. cbn. lia.
    + constructor; [|done]. intros (ph & Hid & Hin)%list_elem_of_fmap.
      rewrite Forall_forall in Hge. specialize (Hge _ Hin). cbn in *. lia.
    + by constructor.
Qed.

End Placeholders.

(** X8. [_VarSync.__init__] keeps the variables as given and builds, for
    the variable at each position, a placeholder of its dtype and shape and
    the assignment of that placeholder to it; the placeholders are pairwise
    distinct. *)
Theorem VarSync_init_per_variable `{Arith} `{!Reduction} (g : Graph) (variables : list TFVariable) :
  let self := (_VarSync.__init__ g variables).2 in
  _VarSync._variables self = variables
  /\ length (_VarSync._placeholders self) = length variables
  /\ length (_VarSync._assigns self) = length variables
  /\ NoDup (t_id <$> _VarSync._placeholders self)
  /\ forall i v, variables !! i = Some v ->
       exists ph, _VarSync._placeholders self !! i = Some ph
                  /\ t_dtype ph = v_dtype v /\ t_shape ph = v_shape v
                  /\ _VarSync._assigns self !! i = Some (tf_assign v ph).
Proof.
  cbn zeta. pose proof (VarSync_placeholders_length g variables) as Hlen.
  destruct (VarSync_placeholders_for_spec g variables) as (_ & Hnd & Hty).
  unfold _VarSync.__init__. destruct _VarSync.placeholders_for as [g' phs].
  cbn in *. split; [done|]. split; [done|].
  split; [rewrite length_fmap, length_zip; lia|]. split; [done|].
  intros i v Hv.
  destruct (Forall2_lookup_r _ _ _ _ _ Hty Hv) as (ph & Hph & Hd & Hs).
  exists ph. repeat split; try done.
  rewrite list_lookup_fmap.
  assert (Hz : zip variables phs !! i = Some (v, ph)).
  { apply lookup_zip_with_Some. eauto. }
  by rewrite Hz.
Qed.

(** X9. [MPIOptimizer.__init__] builds one placeholder for each kept
    gradient, at the same position, of the dtype and shape of the gradient;
    the placeholders are pairwise distinct. *)
Theorem init_placeholder_per_gradient `{TensorFlow} `{!Reduction} (g : Graph) (optimizer : Optimizer)
    (loss : Tensor) (var_list : option (list TFVariable)) :
  let self := (MPIOptimizer.__init__ g optimizer loss var_list).2 in
  length (MPIOptimizer.placeholders self) = length (MPIOptimizer.grads self)
  /\ NoDup (t_id <$> MPIOptimizer.placeholders self)
  /\ forall i grad var, MPIOptimizer.grads self !! i = Some (grad, var) ->
       exists ph, MPIOptimizer.placeholders self !! i = Some ph
                  /\ t_dtype ph = t_dtype grad /\ t_shape ph = t_shape grad.
Proof.
  cbn zeta. destruct (init_placeholders g optimizer loss var_list) as (Hlen & Hnd & Hty).
  split; [done|]. split; [done|]. intros i grad var Hi.
  destruct (Forall2_lookup_r _ _ _ _ _ Hty Hi) as (ph & Hph & Hd & Hs). eauto.
Qed.

(** ** More on minimize *)

(** X10. With any terms, [minimize] runs the apply step on the session it
    was given with a feed_dict that holds, outside the placeholders, exactly
    what the caller's feed_dict holds. *)
Theorem minimize_keeps_feed_dict `{TensorFlow} `{!Reduction} (g : Graph) (optimizer : Optimizer)
    (loss : Tensor) (var_list : option (list TFVariable))
    (terms : option (list Tensor))
    (locals : list (gmap positive ndarray * option (gmap positive ndarray))) :
  let self := (MPIOptimizer.__init__ g optimizer loss var_list).2 in
  exists outs,
    mpiexec (fun comm l => MPIOptimizer.minimize comm self l.1 l.2 terms) locals
    = Some outs
    /\ forall r l out, locals !! r = Some l -> outs !! r = Some out ->
         MPIOptimizer.session out
         = execute (MPIOptimizer.apply self) l.1 (MPIOptimizer.fed out)
         /\ forall k, k ∉ t_id <$> MPIOptimizer.placeholders self ->
              MPIOptimizer.fed out !! k = default ∅ l.2 !! k.
Proof.
  cbn zeta. eexists. split; [apply minimize_mpiexec|].
  intros r l out Hl Hout.
  rewrite list_lookup_fmap, Hl in Hout. injection Hout as <-.
  destruct (init_placeholders g optimizer loss var_list) as (Hlen & _).
  split; [done|]. intros k Hk. by apply averaged_feed_other.
Qed.

(** X11. One call of [minimize] gives every worker the same tuple of term
    means, and feeds every placeholder the same float32 data on every
    worker. *)
Theorem minimize_same_on_all_workers `{TensorFlow} `{!Reduction} (g : Graph) (optimizer : Optimizer)
    (loss : Tensor) (var_list : option (list TFVariable))
    (terms : option (list Tensor))
    (locals : list (gmap positive ndarray * option (gmap positive ndarray))) :
  let self := (MPIOptimizer.__init__ g optimizer loss var_list).2 in
  exists outs,
    mpiexec (fun comm l => MPIOptimizer.minimize comm self l.1 l.2 terms) locals
    = Some outs
    /\ forall r r' out out', outs !! r = Some out -> outs !! r' = Some out' ->
         MPIOptimizer.returned out = MPIOptimizer.returned out'
         /\ forall ph, ph ∈ MPIOptimizer.placeholders self ->
              exists mean mean',
                MPIOptimizer.fed out !! t_id ph = Some mean
                /\ MPIOptimizer.fed out' !! t_id ph = Some mean'
                /\ data mean = data mean'
                /\ dtype_of mean = float32 /\ dtype_of mean' = float32.
Proof.
  cbn zeta. eexists. split; [apply minimize_mpiexec|].
  intros r r' out out' (l & -> & Hl)%list_lookup_fmap_Some
    (l' & -> & Hl')%list_lookup_fmap_Some.
  split; [done|]. intros ph Hph.
  destruct (init_placeholders g optimizer loss var_list) as (Hlen & Hnd & _).
  apply list_elem_of_lookup in Hph as [i Hi].
  destruct (lookup_lt_is_Some_2 (MPIOptimizer.grads
              (MPIOptimizer.__init__ g optimizer loss var_list).2).*1 i) as [grad Hgrad].
  { rewrite length_fmap, <- Hlen. by apply lookup_lt_Some in Hi. }
  eexists _, _. cbn.
  split; [by apply (averaged_feed_lookup _ _ _ _ i grad)|].
  split; [by apply (averaged_feed_lookup _ _ _ _ i grad)|]. done.
Qed.

(** X12. When the workers' tensors of a gradient are float32 arrays of the
    gradient's shape, the cast before the exchange is a copy, and the
    placeholder is fed the mean of the tensors as they are, a float32 array
    of the gradient's shape: at every position the sum of the workers'
    values there, added in an order of the MPI library's choice that takes
    the value of every rank once, divided by the group size. *)
Theorem minimize_float32_gradients `{TensorFlow} `{!Reduction} `{!CastExact} (g : Graph)
    (optimizer : Optimizer) (loss : Tensor) (var_list : option (list TFVariable))
    (terms : option (list Tensor))
    (locals : list (gmap positive ndarray * option (gmap positive ndarray)))
    (i : nat) (grad ph : Tensor) :
  let self := (MPIOptimizer.__init__ g optimizer loss var_list).2 in
  let column := (fun l => local_value l grad) <$> locals in
  (MPIOptimizer.grads self).*1 !! i = Some grad ->
  MPIOptimizer.placeholders self !! i = Some ph ->
  (forall l, l ∈ locals ->
     dtype_of (local_value l grad) = float32
     /\ shape (local_value l grad) = t_shape grad
     /\ well_formed_array (local_value l grad)) ->
  exists outs,
    mpiexec (fun comm l => MPIOptimizer.minimize comm self l.1 l.2 terms) locals
    = Some outs
    /\ length outs = length locals
    /\ forall r out, outs !! r = Some out ->
         exists mean,
           MPIOptimizer.fed out !! t_id ph = Some mean
           /\ dtype_of mean = float32
           /\ shape mean = t_shape grad
           /\ forall j xs,
                mapM (fun a => data a !! j) column = Some xs ->
                exists order,
                  ranks order ≡ₚ seq 0 (length locals)
                  /\ data mean !! j = mean_of float32 order xs.
Proof.
  cbn zeta. intros Hgrad Hph Hlocals.
  eexists. split; [apply minimize_mpiexec|]. split; [by rewrite length_fmap|].
  intros r out (l & -> & Hl)%list_lookup_fmap_Some.
  destruct (init_placeholders g optimizer loss var_list) as (Hlen & Hnd & _).
  eexists. split; [cbn; by apply (averaged_feed_lookup _ _ _ _ i grad ph)|].
  split; [done|]. split.
  { cbn. by destruct (Hlocals l (list_elem_of_lookup_2 _ _ _ Hl)) as (_ & -> & _). }
  intros j xs Hxs.
  destruct (allreduce_mean_lookup ((fun l' => local_value l' grad) <$> locals)
              (local_value l grad) j xs) as (order & Hranks & Hmean); [|done|].
  { intros Hnil%fmap_nil_inv. by rewrite Hnil in Hl. }
  rewrite length_fmap in Hranks, Hmean. exists order. split; [done|].
  rewrite Hmean. f_equal. rewrite <- (list_fmap_id xs) at 2. apply Forall_fmap_ext_1.
  apply mapM_Some_1 in Hxs. eapply Forall2_Forall_r; [exact Hxs|].
  apply Forall_fmap, Forall_forall. intros l' Hl' x Hx. cbn in Hx. cbn.
  apply cast_exact. destruct (Hlocals l' Hl') as (Hd & _ & Hwf).
  unfold well_formed_array in Hwf. rewrite Hd in Hwf.
  by eapply Forall_lookup_1 in Hwf.
Qed.

(** X14. Workers that enter [minimize] with the same session leave it with
    the same session, whatever feed_dict each one passes, provided the apply
    step reads the feed_dict at the placeholders only and the workers'
    gradients have the same shapes. *)
Theorem minimize_keeps_workers_aligned `{TensorFlow} `{!Reduction} (g : Graph) (optimizer : Optimizer)
    (loss : Tensor) (var_list : option (list TFVariable))
    (terms : option (list Tensor))
    (locals : list (gmap positive ndarray * option (gmap positive ndarray))) :
  let self := (MPIOptimizer.__init__ g optimizer loss var_list).2 in
  (forall sess fd fd',
     (forall ph, ph ∈ MPIOptimizer.placeholders self -> fd !! t_id ph = fd' !! t_id ph) ->
     execute (MPIOptimizer.apply self) sess fd = execute (MPIOptimizer.apply self) sess fd') ->
  (forall l l', l ∈ locals -> l' ∈ locals ->
     l.1 = l'.1
     /\ forall grad, grad ∈ (MPIOptimizer.grads self).*1 ->
          shape (local_value l grad) = shape (local_value l' grad)) ->
  exists outs,
    mpiexec (fun comm l => MPIOptimizer.minimize comm self l.1 l.2 terms) locals
    = Some outs
    /\ length outs = length locals
    /\ forall r r' out out', outs !! r = Some out -> outs !! r' = Some out' ->
         MPIOptimizer.session out = MPIOptimizer.session out'.
Proof.
  cbn zeta. intros Hexec Hsame.
  eexists. split; [apply minimize_mpiexec|]. split; [by rewrite length_fmap|].
  intros r r' out out' (l & -> & Hl)%list_lookup_fmap_Some
    (l' & -> & Hl')%list_lookup_fmap_Some.
  apply list_elem_of_lookup_2 in Hl, Hl'.
  destruct (Hsame l l' Hl Hl') as [Hsess Hshape].
  destruct (init_placeholders g optimizer loss var_list) as (Hlen & Hnd & _).
  cbn. rewrite Hsess. apply Hexec. intros ph Hph.
  apply list_elem_of_lookup in Hph as [i Hi].
  destruct (lookup_lt_is_Some_2 (MPIOptimizer.grads
              (MPIOptimizer.__init__ g optimizer loss var_list).2).*1 i) as [grad Hgrad].
  { rewrite length_fmap, <- Hlen. by apply lookup_lt_Some in Hi. }
  rewrite !(averaged_feed_lookup _ _ _ _ i grad ph Hlen Hnd Hgrad Hi). f_equal.
  apply allreduce_mean_own, Hshape. by apply list_elem_of_lookup_2 in Hgrad.
Qed.

(** ** More on mpi_ppo *)

Section PPOResults.
Context `{TensorFlow}.
Context `{!Reduction}.
Context {Rollouts Batch Estimate : Type}.

Lemma ppo_loop_logs comm (ppo : @PPO _ Rollouts Batch Estimate) optimizer
    rollouts advantages targets num_iter f extra_feed_dict batches batch_idx st :
  Get_rank comm = 0%nat ->
  batch_idx = Z.of_nat (length (result st)) ->
  length (logged st) = length (result st) ->
  (forall i msg, logged st !! i = Some msg ->
     exists terms, result st !! i = Some terms /\ logs_terms i terms msg) ->
  always (fun _ => True)
    (fun st' =>
       forall i msg, logged st' !! i = Some msg ->
         exists terms, result st' !! i = Some terms /\ logs_terms i terms msg)
    (ppo_loop comm ppo optimizer rollouts advantages targets num_iter (Some f)
       extra_feed_dict batches batch_idx st).
Proof.
  intros Hrank. revert batch_idx st.
  induction batches as [|batch batches IH]; intros batch_idx st Hidx Hlen Hst; [done|].
  cbn [ppo_loop]. apply always_bind.
  eapply always_mono; [done| |apply minimize_returned_length].
  cbn [default length]. intros m Hm.
  destruct (log_batch_terms_cases comm (Some f) batch_idx (MPIOptimizer.returned m)
              (logged st) Hm) as [->|[exc ->]]; [|done].
  cbn [bind mbind mpi_bind]. unfold mbind, mpi_bind. cbn [bind].
  set (st' := {| result := result st ++ [MPIOptimizer.returned m];
                 model_session := MPIOptimizer.session m;
                 logged := logged_after comm (Some f) batch_idx (MPIOptimizer.returned m)
                             (logged st) |}).
  destruct (MPIOptimizer.returned m) as [|t0 [|t1 [|t2 [|t3 [|]]]]] eqn:Hret; try done.
  assert (Hlogged : logged st' = logged st ++
            [ {| log_batch := batch_idx; log_actor := negative t0;
                 log_explained := t1; log_entropy := t2; log_clipped := t3 |} ]).
  { unfold st', logged_after. cbn. by destruct (decide (Get_rank comm = 0%nat)). }
  assert (Hst' : forall i msg, logged st' !! i = Some msg ->
            exists terms, result st' !! i = Some terms /\ logs_terms i terms msg).
  { intros i msg. rewrite Hlogged. cbn [result st'].
    intros [Hi|[Hi Hmsg]]%lookup_app_Some.
    - destruct (Hst i msg Hi) as (terms & Hterms & Hlog).
      exists terms. split; [|done]. by apply lookup_app_l_Some.
    - destruct (i - length (logged st))%nat as [|j] eqn:Hj; [|done].
      cbn in Hmsg. injection Hmsg as <-.
      assert (i = length (result st)) as -> by lia.
      exists [t0; t1; t2; t3]. split.
      + by rewrite lookup_app_r, Nat.sub_diag by lia.
      + split; [done|]. by exists t0. }
  destruct (decide (batch_idx + 1 = num_iter)); [exact Hst'|].
  apply IH; [| |exact Hst'].
  - cbn [result st']. rewrite length_app. cbn. lia.
  - rewrite Hlogged. cbn [result st']. rewrite !length_app. cbn. lia.
Qed.

End PPOResults.

(** X15. On rank 0 with a [log_fn], the [i]-th call of [log_fn] is for batch
    index [i] and reports the [i]-th tuple of the result: the negated first
    term and the other three terms as they are. *)
Theorem mpi_ppo_logs_each_batch `{TensorFlow} `{!Reduction} {Rollouts Batch Estimate : Type}
    (ppo : @PPO _ Rollouts Batch Estimate) (optimizer : MPIOptimizer.t)
    (num_iter : Z) (locals : list (@ppo_local _ Rollouts)) :
  forall outs, mpiexec (mpi_ppo_on ppo optimizer num_iter) locals = Some outs ->
    forall l out, locals !! 0%nat = Some l -> outs !! 0%nat = Some out ->
      is_Some (local_log_fn l) ->
      forall i msg, logged out !! i = Some msg ->
        exists terms, result out !! i = Some terms /\ logs_terms i terms msg.
Proof.
  intros outs Hrun l out Hl Hout [f Hf].
  eapply (mpiexec_always _ _ _ 0%nat l out (fun _ => True)); [exact Hrun|done|done|].
  unfold mpi_ppo_on, mpi_ppo. rewrite Hf. by apply ppo_loop_logs.
Qed.

(** X16. Once [mpi_ppo] has returned, every worker has the same list of
    tuples. *)
Theorem mpi_ppo_same_results `{TensorFlow} `{!Reduction} {Rollouts Batch Estimate : Type}
    (ppo : @PPO _ Rollouts Batch Estimate) (optimizer : MPIOptimizer.t)
    (num_iter : Z) (locals : list (@ppo_local _ Rollouts)) :
  forall outs, mpiexec (mpi_ppo_on ppo optimizer num_iter) locals = Some outs ->
    forall r r' out out', outs !! r = Some out -> outs !! r' = Some out' ->
      result out = result out'.
Proof.
  intros outs Hrun r r' out out' Hr Hr'.
  pose proof (mpiexec_length _ _ _ Hrun) as Hlen.
  destruct (lookup_lt_is_Some_2 locals r) as [l Hl].
  { rewrite <- Hlen. by eapply lookup_lt_Some. }
  destruct (lookup_lt_is_Some_2 locals r') as [l' Hl'].
  { rewrite <- Hlen. by eapply lookup_lt_Some. }
  destruct (mpi_ppo_returned ppo optimizer num_iter locals outs r l out Hrun Hl Hr)
    as (calls & Hcalls & _ & -> & _).
  destruct (mpi_ppo_returned ppo optimizer num_iter locals outs r' l' out' Hrun Hl' Hr')
    as (calls' & Hcalls' & _ & -> & _).
  rewrite (mpi_ppo_iterations_agree ppo optimizer num_iter locals outs r l r' l'
             Hrun Hl Hl') in Hcalls.
  rewrite Hcalls in Hcalls'. injection Hcalls' as <-.
  apply (minimize_calls_returned _ _ _ _ _ _ _ Hcalls);
    rewrite length_fmap; by eapply lookup_lt_Some.
Qed.

(** X17. The first tuple [mpi_ppo] returns is the mean over the workers of
    [actor_loss], [explained_var], [entropy] and [num_clipped], in this
    order, as [minimize] takes it: the sum of each in the order of the MPI
    library's reduction, divided by the group size, each worker evaluating
    the terms in its session as it stood at the call, under the feed_dict of
    its first batch updated with its [extra_feed_dict]. *)
Theorem mpi_ppo_first_tuple `{TensorFlow} `{!Reduction} {Rollouts Batch Estimate : Type}
    (ppo : @PPO _ Rollouts Batch Estimate) (optimizer : MPIOptimizer.t)
    (num_iter : Z) (locals : list (@ppo_local _ Rollouts)) :
  let first (l : ppo_local) :=
    (local_session l,
     Some match model_batches ppo (local_rollouts l) (local_batch_size l) with
          | [] => ∅
          | batch :: _ =>
              let feed_dict :=
                ppo_feed_dict ppo (local_rollouts l) batch
                  (adv_est_advantages ppo (local_rollouts l))
                  (adv_est_targets ppo (local_rollouts l)) in
              match local_extra_feed_dict l with
              | Some extra => extra ∪ feed_dict
              | None => feed_dict
              end
          end) in
  forall outs, mpiexec (mpi_ppo_on ppo optimizer num_iter) locals = Some outs ->
    forall r out terms, outs !! r = Some out -> result out !! 0%nat = Some terms ->
      terms = averaged_terms (length locals)
                [actor_loss ppo; explained_var ppo; entropy ppo; num_clipped ppo]
                (first <$> locals)
      /\ exists outs1,
           mpiexec (fun comm l =>
                      MPIOptimizer.minimize comm optimizer l.1 l.2 (ppo_terms ppo))
             (first <$> locals) = Some outs1
           /\ Forall (fun out1 => MPIOptimizer.returned out1 = terms) outs1.
Proof.
  cbn zeta. intros outs Hrun r out terms Hr Hterms.
  pose proof (mpiexec_length _ _ _ Hrun) as Hlen.
  destruct (lookup_lt_is_Some_2 locals r) as [l Hl].
  { rewrite <- Hlen. by eapply lookup_lt_Some. }
  destruct (mpi_ppo_returned ppo optimizer num_iter locals outs r l out Hrun Hl Hr)
    as (calls & Hcalls & _ & Hres & _).
  rewrite Hres in Hterms.
  pose proof (minimize_calls_first _ _ _ _ _ r terms Hcalls
                ltac:(rewrite length_fmap; by eapply lookup_lt_Some) Hterms) as ->.
  rewrite length_fmap. cbn [default ppo_terms].
  match goal with
  | |- ?lhs = averaged_terms _ _ ?world /\ _ =>
      assert (Heq : lhs = averaged_terms (length locals)
                            [actor_loss ppo; explained_var ppo; entropy ppo;
                             num_clipped ppo] world)
  end.
  { unfold averaged_terms. apply list_fmap_ext. intros _ t _. do 2 f_equal.
    rewrite <- !list_fmap_compose. apply list_fmap_ext. intros _ l0 _. cbn.
    unfold local_value, ppo_start, batch_feed. cbn.
    by destruct (model_batches ppo (local_rollouts l0) (local_batch_size l0)). }
  split; [exact Heq|]. rewrite Heq.
  eexists. split; [apply minimize_mpiexec|].
  apply Forall_fmap, Forall_forall. intros l0 _. cbn. by rewrite length_fmap.
Qed.

(** X18. With [num_iter] zero or negative the loop never meets the cap:
    [mpi_ppo] goes through all the batches, and returns when every worker
    has the same number of them and the format string takes every tuple
    that rank 0 is to log. *)
Theorem mpi_ppo_without_cap `{TensorFlow} `{!Reduction} {Rollouts Batch Estimate : Type}
    (ppo : @PPO _ Rollouts Batch Estimate) (optimizer : MPIOptimizer.t)
    (num_iter : Z) (locals : list (@ppo_local _ Rollouts)) :
  num_iter <= 0 ->
  let job := mpiexec (mpi_ppo_on ppo optimizer num_iter) locals in
  let batches (l : ppo_local) :=
    length (model_batches ppo (local_rollouts l) (local_batch_size l)) in
  (forall n,
     (forall l, l ∈ locals -> batches l = n) ->
     (forall l, locals !! 0%nat = Some l -> is_Some (local_log_fn l) ->
        loggable_calls optimizer (ppo_terms ppo) n (ppo_start ppo <$> locals) = true) ->
     is_Some job)
  /\ forall outs, job = Some outs ->
       forall r l out, locals !! r = Some l -> outs !! r = Some out ->
         length (result out) = batches l.
Proof.
  intros Hcap. cbn zeta. split.
  - intros n Hn Hlog. apply (mpi_ppo_returns ppo optimizer num_iter locals n); [|done].
    intros l Hl. rewrite ppo_iterations_uncapped by lia. by apply Hn.
  - intros outs Hrun r l out Hl Hout.
    destruct (mpi_ppo_after ppo optimizer num_iter locals outs r l out Hrun Hl Hout)
      as (Hres & _).
    by rewrite ppo_iterations_uncapped in Hres by lia.
Qed.

(** X19. Whatever the collectives return, a call of [mpi_ppo] that runs to
    its end has called, in each of its iterations, [Allreduce] once for each
    gradient and then [allreduce] four times, and no other collective. *)
Theorem mpi_ppo_collectives `{TensorFlow} `{!Reduction} {Rollouts Batch Estimate : Type}
    (g : Graph) (optimizer : Optimizer) (loss : Tensor)
    (var_list : option (list TFVariable)) (ppo : @PPO _ Rollouts Batch Estimate)
    (num_iter : Z) (comm : Comm) (l : @ppo_local _ Rollouts) :
  let self := (MPIOptimizer.__init__ g optimizer loss var_list).2 in
  let iterations :=
    ppo_iterations (length (model_batches ppo (local_rollouts l) (local_batch_size l)))
      0 num_iter in
  follows
    (mjoin (replicate iterations
              (replicate (length (MPIOptimizer.grads self)) MPI_Allreduce
               ++ replicate 4 MPI_allreduce)))
    (mpi_ppo_on ppo self num_iter comm l).
Proof.
  cbn zeta. destruct (init_placeholders g optimizer loss var_list) as (Hlen & _).
  pose proof (ppo_loop_follows comm ppo
                (MPIOptimizer.__init__ g optimizer loss var_list).2
                (local_rollouts l) (adv_est_advantages ppo (local_rollouts l))
                (adv_est_targets ppo (local_rollouts l)) num_iter (local_log_fn l)
                (local_extra_feed_dict l)
                (model_batches ppo (local_rollouts l) (local_batch_size l)) 0
                {| result := []; model_session := local_session l; logged := [] |})
    as Hloop.
  rewrite Hlen, Nat.min_id in Hloop. exact Hloop.
Qed.

(** X20. Workers that are to make different numbers of iterations do not all
    get out of [mpi_ppo]: the job does not return. *)
Theorem mpi_ppo_mismatch `{TensorFlow} `{!Reduction} {Rollouts Batch Estimate : Type}
    (ppo : @PPO _ Rollouts Batch Estimate) (optimizer : MPIOptimizer.t)
    (num_iter : Z) (locals : list (@ppo_local _ Rollouts)) (r r' : nat) l l' :
  let iterations (l : ppo_local) :=
    ppo_iterations (length (model_batches ppo (local_rollouts l) (local_batch_size l)))
      0 num_iter in
  locals !! r = Some l -> locals !! r' = Some l' ->
  iterations l <> iterations l' ->
  mpiexec (mpi_ppo_on ppo optimizer num_iter) locals = None.
Proof.
  cbn zeta. intros Hl Hl' Hne.
  destruct (mpiexec _ locals) as [outs|] eqn:Hrun; [|done]. exfalso. apply Hne.
  exact (mpi_ppo_iterations_agree ppo optimizer num_iter locals outs r l r' l'
           Hrun Hl Hl').
Qed.

(** X21. Workers that enter [mpi_ppo] with the same session leave it with
    the same session, whatever batches each one trains on, provided the
    apply step reads the feed_dict at the placeholders only and every
    gradient evaluates to an array of its static shape. *)
Theorem mpi_ppo_keeps_workers_aligned `{TensorFlow} `{!Reduction} {Rollouts Batch Estimate : Type}
    (g : Graph) (optimizer : Optimizer) (loss : Tensor)
    (var_list : option (list TFVariable)) (ppo : @PPO _ Rollouts Batch Estimate)
    (num_iter : Z) (locals : list (@ppo_local _ Rollouts)) :
  let self := (MPIOptimizer.__init__ g optimizer loss var_list).2 in
  let feed (l : ppo_local) batch :=
    let feed_dict :=
      ppo_feed_dict ppo (local_rollouts l) batch
        (adv_est_advantages ppo (local_rollouts l))
        (adv_est_targets ppo (local_rollouts l)) in
    match local_extra_feed_dict l with
    | Some extra => extra ∪ feed_dict
    | None => feed_dict
    end in
  (forall sess fd fd',
     (forall ph, ph ∈ MPIOptimizer.placeholders self -> fd !! t_id ph = fd' !! t_id ph) ->
     execute (MPIOptimizer.apply self) sess fd = execute (MPIOptimizer.apply self) sess fd') ->
  (forall l batch sess grad,
     l ∈ locals ->
     batch ∈ model_batches ppo (local_rollouts l) (local_batch_size l) ->
     grad ∈ (MPIOptimizer.grads self).*1 ->
     shape (fetch sess (feed l batch) grad) = t_shape grad) ->
  (forall l l', l ∈ locals -> l' ∈ locals -> local_session l = local_session l') ->
  forall outs, mpiexec (mpi_ppo_on ppo self num_iter) locals = Some outs ->
    forall r r' out out', outs !! r = Some out -> outs !! r' = Some out' ->
      model_session out = model_session out'.
Proof.
  cbn zeta. intros Hexec Hshape Hsess outs Hrun r r' out out' Hr Hr'.
  destruct (init_placeholders g optimizer loss var_list) as (Hlen & Hnd & _).
  set (self := (MPIOptimizer.__init__ g optimizer loss var_list).2) in *.
  pose proof (mpiexec_length _ _ _ Hrun) as Hlength.
  destruct (lookup_lt_is_Some_2 locals r) as [l Hl].
  { rewrite <- Hlength. by eapply lookup_lt_Some. }
  destruct (lookup_lt_is_Some_2 locals r') as [l' Hl'].
  { rewrite <- Hlength. by eapply lookup_lt_Some. }
  destruct (mpi_ppo_returned ppo self num_iter locals outs r l out Hrun Hl Hr)
    as (calls & Hcalls & _ & _ & ->).
  destruct (mpi_ppo_returned ppo self num_iter locals outs r' l' out' Hrun Hl' Hr')
    as (calls' & Hcalls' & _ & _ & ->).
  rewrite (mpi_ppo_iterations_agree ppo self num_iter locals outs r l r' l'
             Hrun Hl Hl') in Hcalls.
  rewrite Hcalls in Hcalls'. injection Hcalls' as <-.
  refine (minimize_calls_aligned self (ppo_terms ppo) _ (ppo_start ppo <$> locals) calls
            Hlen Hnd Hexec _ _ _ Hcalls r r' (ppo_start ppo l) (ppo_start ppo l') _ _).
  - intros w fd sess grad (l0 & -> & Hl0)%list_elem_of_fmap Hfd Hgrad.
    cbn in Hfd. apply list_elem_of_fmap in Hfd as (batch & -> & Hbatch).
    by apply (Hshape l0 batch).
  - intros w (l0 & -> & [r0 Hl0]%list_elem_of_lookup)%list_elem_of_fmap.
    cbn. rewrite length_fmap.
    rewrite <- (mpi_ppo_iterations_agree ppo self num_iter locals outs r0 l0 r' l'
                  Hrun Hl0 Hl').
    apply ppo_iterations_le.
  - intros w w' (l0 & -> & Hl0)%list_elem_of_fmap (l0' & -> & Hl0')%list_elem_of_fmap.
    cbn. by apply Hsess.
  - by rewrite list_lookup_fmap, Hl.
  - by rewrite list_lookup_fmap, Hl'.
Qed.

(** ** IEEE-754: rounding a value of the format is exact *)

Lemma binary_round_exact prec emax s m e :
  bounded prec emax m e = true -> binary_round prec emax s m e = S754_finite s m e.
Proof.
  unfold bounded, canonical_mantissa. intros V.
  apply andb_true_iff in V. destruct V as [C B].
  apply Z.eqb_eq in C. apply Z.leb_le in B.
  unfold binary_round. rewrite C.
  unfold shl_align. rewrite Z.sub_diag.
  now apply binary_round_aux_canonical.
Qed.

Lemma IEEE754_cast_exact : @CastExact IEEE754.arith.
Proof.
  split. intros d x V.
  change (if floating d
          then valid_binary (IEEE754.prec d) (IEEE754.emax d) x = true
          else x = IEEE754.of_Z (IEEE754.wrap d (IEEE754.to_Z x))) in V.
  change ((if floating d then IEEE754.round d x
           else IEEE754.of_Z (IEEE754.wrap d (IEEE754.to_Z x))) = x).
  destruct (floating d); [|done].
  destruct x as [s|s| |s m e]; try reflexivity.
  apply binary_round_exact. exact V.
Qed.

(** * The model at work: one scalar variable, IEEE-754 arithmetic, an MPI
      library that adds neighbouring ranks first *)

Section Examples.
#[local] Existing Instance IEEE754.arith.
#[local] Existing Instance Toy.tensorflow.
#[local] Existing Instance Reductions.neighbours_first.

(** Gradients 1 and 3 on two workers with [w = 0] and learning rate one:
    both feed the mean 2 and end with [w = -2]. *)
Example two_workers_descend :
  mpiexec (fun comm l => MPIOptimizer.minimize comm (Toy.optimizer float32) l.1 l.2 None)
    [Toy.worker float32 (IEEE754.of_int float32 0) (IEEE754.of_int float32 1);
     Toy.worker float32 (IEEE754.of_int float32 0) (IEEE754.of_int float32 3)]
  = Some
      [ {| MPIOptimizer.session := {[ 1%positive := Toy.f32 (-2) ]};
           MPIOptimizer.fed := <[3%positive := Toy.f32 2]> {[ 2%positive := Toy.f32 1 ]};
           MPIOptimizer.returned := [] |};
        {| MPIOptimizer.session := {[ 1%positive := Toy.f32 (-2) ]};
           MPIOptimizer.fed := <[3%positive := Toy.f32 2]> {[ 2%positive := Toy.f32 3 ]};
           MPIOptimizer.returned := [] |} ].
Proof. reflexivity. Qed.

(** The order of the reduction shows in the mean: the float32 gradients
    1e8, 1, -1e8 and 1 on four workers have the mean 0.25 (8388608 * 2^-25)
    when they are added in rank order, and the mean 0 when neighbouring
    ranks are added first, 1e8 + 1 being 1e8 in float32. *)
Example reduction_order_shows :
  let column := Toy.f32 <$> [100000000; 1; -100000000; 1] in
  data (@allreduce_mean _ Reductions.in_rank_order 4 column (Toy.f32 0))
  = [S754_finite false 8388608 (-25)]
  /\ data (@allreduce_mean _ Reductions.neighbours_first 4 column (Toy.f32 0))
     = [S754_zero false].
Proof. split; vm_compute; reflexivity. Qed.

(** The root holds [w = 5], the other worker [w = 0]: after [sync] both hold
    [w = 5]. *)
Example sync_two_workers :
  mpiexec (fun comm sess => _VarSync.sync comm Toy.var_sync sess)
    [ {[ 1%positive := Toy.f32 5 ]}; {[ 1%positive := Toy.f32 0 ]} ]
  = Some [ {[ 1%positive := Toy.f32 5 ]}; {[ 1%positive := Toy.f32 5 ]} ].
Proof. reflexivity. Qed.

(** Workers that do not issue the same collectives hang: one calls [sync],
    the other is done. *)
Example mismatched_collectives_hang :
  mpirun [_VarSync.sync {| Get_rank := 0; Get_size := 2 |} Toy.var_sync
            {[ 1%positive := Toy.f32 5 ]};
          Ret {[ 1%positive := Toy.f32 0 ]}]
  = None.
Proof. reflexivity. Qed.

(** The format string takes the tuples of the two workers that the
    following lemmas run [mpi_ppo] on. *)
Example two_workers_loggable :
  loggable_calls (Toy.optimizer float32) (ppo_terms Toy.ppo) 2
    (ppo_start Toy.ppo
       <$> [Toy.ppo_worker [1; 3; 5] (Some (fun _ => tt)); Toy.ppo_worker [3; 1] None])
  = true.
Proof. vm_compute. reflexivity. Qed.

(** A count that is not a number does not go through [%d], nor does an
    infinite one: rank 0 raises where it is to log such a tuple, and the
    other ranks, which do not log, go on. *)
Example nan_is_not_logged :
  let tuple x := Toy.scalar_array float32 <$> [Toy.tenths float32 1; Toy.tenths float32 1;
                                                 Toy.tenths float32 1; x] in
  let rank r := {| Get_rank := r; Get_size := 2 |} in
  log_batch_terms (rank 0%nat) (Some (fun _ => tt)) 0 (tuple S754_nan) []
  = Raise "ValueError"%string
  /\ log_batch_terms (rank 0%nat) (Some (fun _ => tt)) 0 (tuple (S754_infinity false)) []
     = Raise "OverflowError"%string
  /\ log_batch_terms (rank 1%nat) (Some (fun _ => tt)) 0 (tuple S754_nan) [] = Ret []
  /\ log_batch_terms (rank 0%nat) None 0 (tuple S754_nan) [] = Ret [].
Proof. repeat split. Qed.

Lemma sync_copies_root_witness :
  exists after,
    mpiexec (fun comm sess =>
               _VarSync.sync comm
                 (_VarSync.__init__ (Toy.graph float32) [Toy.w float32]).2 sess)
      [ {[ 1%positive := Toy.f32 5 ]}; {[ 1%positive := Toy.f32 0 ]} ] = Some after
    /\ forall r sess, after !! r = Some sess -> sess !! 1%positive = Some (Toy.f32 5).
Proof.
  pose proof (sync_copies_root (Toy.graph float32) [Toy.w float32]
                {[ 1%positive := Toy.f32 5 ]} [ {[ 1%positive := Toy.f32 0 ]} ]) as Hsync.
  cbn zeta in Hsync. destruct Hsync as [Hsome Hafter].
  destruct Hsome as [after Hrun].
  { intros v ->%list_elem_of_singleton. by eexists. }
  exists after. split; [exact Hrun|]. intros r sess Hr.
  destruct (Hafter after Hrun) as [_ Hv].
  etrans; [exact (Hv r sess (Toy.w float32) Hr (list_elem_of_here _ _))|].
  reflexivity.
Defined.

Lemma sync_root_unchanged_witness :
  mpiexec (fun comm sess => _VarSync.sync comm Toy.var_sync sess)
    [ {[ 1%positive := Toy.f32 5 ]}; {[ 1%positive := Toy.f32 0 ]} ]
  = Some [ {[ 1%positive := Toy.f32 5 ]}; {[ 1%positive := Toy.f32 5 ]} ]
  /\ [ ({[ 1%positive := Toy.f32 5 ]} : gmap positive ndarray);
       {[ 1%positive := Toy.f32 5 ]} ] !! 0%nat
     = Some {[ 1%positive := Toy.f32 5 ]}.
Proof.
  split; [exact sync_two_workers|].
  apply (proj2 (sync_root_unchanged Toy.var_sync {[ 1%positive := Toy.f32 5 ]}
                  [ {[ 1%positive := Toy.f32 0 ]} ])).
  exact sync_two_workers.
Defined.

Lemma minimize_feeds_mean_of_casts_witness :
  exists outs out,
    mpiexec (fun comm l => MPIOptimizer.minimize comm (Toy.optimizer float32) l.1 l.2 None)
      [Toy.worker float32 (IEEE754.of_int float32 0) (IEEE754.of_int float32 1);
       Toy.worker float32 (IEEE754.of_int float32 0) (IEEE754.of_int float32 3)]
    = Some outs
    /\ outs !! 1%nat = Some out
    /\ MPIOptimizer.fed out !! 3%positive = Some (Toy.f32 2).
Proof.
  destruct (minimize_feeds_mean_of_casts (Toy.graph float32) Toy.gradient_descent
              Toy.loss None None
              [Toy.worker float32 (IEEE754.of_int float32 0) (IEEE754.of_int float32 1);
               Toy.worker float32 (IEEE754.of_int float32 0) (IEEE754.of_int float32 3)]
              ltac:(done))
    as (outs & Hrun & Hlen & Hfed).
  destruct outs as [|out0 [|out1 outs]]; [done..|].
  exists (out0 :: out1 :: outs), out1. split; [exact Hrun|]. split; [done|].
  destruct (Hfed 0%nat
              {| t_id := 2; t_dtype := float32; t_shape := [] |}
              {| t_id := 3; t_dtype := float32; t_shape := [] |}
              eq_refl eq_refl 1%nat
              (Toy.worker float32 (IEEE754.of_int float32 0) (IEEE754.of_int float32 3))
              out1 eq_refl eq_refl) as [Hout _].
  exact Hout.
Defined.

(** The claim without the cast fails on a float64 gradient: one worker, the
    gradient 0.1 as a float64 (7205759403792794 * 2^-56).  The mean of the
    one tensor is the tensor; the placeholder is fed the float32 nearest to
    0.1 (13421773 * 2^-27), which as a float64 is 7205759511166976 * 2^-56. *)
Lemma minimize_feeds_mean_counterexample :
  let self := Toy.optimizer float64 in
  let l := Toy.worker float64 (IEEE754.of_int float64 0) (Toy.tenths float64 1) in
  let grad := {| t_id := 2; t_dtype := float64; t_shape := [] |} in
  let ph := {| t_id := 3; t_dtype := float64; t_shape := [] |} in
  exists out mean,
    mpiexec (fun comm l => MPIOptimizer.minimize comm self l.1 l.2 None) [l] = Some [out]
    /\ (MPIOptimizer.grads self).*1 !! 0%nat = Some grad
    /\ MPIOptimizer.placeholders self !! 0%nat = Some ph
    /\ MPIOptimizer.fed out !! t_id ph = Some mean
    /\ data (local_value l grad) = [S754_finite false 7205759403792794 (-56)]
    /\ data (tensor_mean 1 [local_value l grad])
       = [S754_finite false 7205759403792794 (-56)]
    /\ data mean = [S754_finite false 13421773 (-27)]
    /\ data (np_array mean float64) = [S754_finite false 7205759511166976 (-56)]
    /\ mean <> tensor_mean 1 [local_value l grad].
Proof.
  cbn zeta.
  pose (l := Toy.worker float64 (IEEE754.of_int float64 0) (Toy.tenths float64 1)).
  pose (grad := {| t_id := 2; t_dtype := float64; t_shape := [] |}).
  exists (minimize_all 1 (Toy.optimizer float64) None [l] l),
         (allreduce_mean 1 [local_value l grad] (local_value l grad)).
  split; [exact (minimize_mpiexec (Toy.optimizer float64) None [l])|].
  split; [reflexivity|]. split; [reflexivity|]. split.
  { destruct (init_placeholders (Toy.graph float64) Toy.gradient_descent Toy.loss None)
      as (Hlen & Hnd & _).
    exact (averaged_feed_lookup 1 (Toy.optimizer float64) [l] l 0%nat grad _
             Hlen Hnd eq_refl eq_refl). }
  split; [vm_compute; reflexivity|]. split; [vm_compute; reflexivity|].
  split; [vm_compute; reflexivity|]. split; [vm_compute; reflexivity|].
  intros Heq. apply (f_equal data) in Heq. vm_compute in Heq. discriminate.
Qed.


(** The counts 3 and 4 of two workers, both int32, have the float64 mean
    3.5. *)
Lemma minimize_returns_term_means_witness :
  let count := {| t_id := 10; t_dtype := int32; t_shape := [] |} in
  let worker (n : Z) : gmap positive ndarray * option (gmap positive ndarray) :=
    ({[ 1%positive := Toy.f32 0 ]},
     Some {[ 10%positive := Toy.scalar_array int32 (IEEE754.of_Z n) ]}) in
  exists outs out mean,
    mpiexec (fun comm l => MPIOptimizer.minimize comm (Toy.optimizer float32) l.1 l.2
                             (Some [count]))
      [worker 3; worker 4]
    = Some outs
    /\ outs !! 1%nat = Some out
    /\ MPIOptimizer.returned out = [mean]
    /\ dtype_of mean = float64
    /\ data mean = [Toy.tenths float64 35].
Proof.
  cbn zeta.
  pose (count := {| t_id := 10; t_dtype := int32; t_shape := [] |}).
  pose (worker := fun n : Z =>
    (({[ 1%positive := Toy.f32 0 ]} : gmap positive ndarray),
     Some ({[ 10%positive := Toy.scalar_array int32 (IEEE754.of_Z n) ]}
             : gmap positive ndarray))).
  destruct (minimize_returns_term_means (Toy.optimizer float32) (Some [count])
              [worker 3; worker 4] ltac:(done))
    as (outs & Hrun & _ & _ & Hmean).
  destruct (Hmean 0%nat count eq_refl) as (order & total & _ & _ & Hout & Hd).
  rewrite minimize_mpiexec in Hrun. injection Hrun as <-.
  specialize (Hout 1%nat _ eq_refl).
  change (Some (quotient (SUM MPI_allreduce
                           ((fun l' => local_value l' count) <$> [worker 3; worker 4])) 2)
          = Some (quotient total 2)) in Hout.
  apply (inj Some) in Hout.
  eexists _, _, (quotient total 2). split; [apply minimize_mpiexec|].
  split; [reflexivity|]. split; [by rewrite <- Hout|].
  split; [apply (Hd int32); by repeat constructor|].
  rewrite <- Hout. vm_compute. reflexivity.
Defined.

Lemma minimize_without_terms_witness :
  exists outs,
    mpiexec (fun comm l => MPIOptimizer.minimize comm (Toy.optimizer float32) l.1 l.2
                             (Some []))
      [Toy.worker float32 (IEEE754.of_int float32 0) (IEEE754.of_int float32 1);
       ({[ 1%positive := Toy.f32 0 ]}, None)]
    = Some outs
    /\ forall r out, outs !! r = Some out -> MPIOptimizer.returned out = [].
Proof.
  destruct (minimize_without_terms (Toy.graph float32) Toy.gradient_descent Toy.loss
              None (Some [])
              [Toy.worker float32 (IEEE754.of_int float32 0) (IEEE754.of_int float32 1);
               ({[ 1%positive := Toy.f32 0 ]}, None)] (or_intror eq_refl))
    as (outs & Hrun & Hlen & Hout).
  exists outs. split; [exact Hrun|]. intros r out Hr.
  destruct (lookup_lt_is_Some_2
              [Toy.worker float32 (IEEE754.of_int float32 0) (IEEE754.of_int float32 1);
               ({[ 1%positive := Toy.f32 0 ]}, None)] r) as [l Hl].
  { rewrite <- Hlen. by apply lookup_lt_Some in Hr. }
  exact (proj1 (Hout r l out Hl Hr)).
Defined.

Lemma mpi_ppo_result_length_witness :
  exists outs,
    mpiexec (mpi_ppo_on Toy.ppo (Toy.optimizer float32) 2)
      [Toy.ppo_worker [1; 3; 5] (Some (fun _ => tt)); Toy.ppo_worker [3; 1] None]
    = Some outs
    /\ forall r out, outs !! r = Some out -> length (result out) = 2%nat.
Proof.
  destruct (mpi_ppo_result_length Toy.ppo (Toy.optimizer float32) 2
              [Toy.ppo_worker [1; 3; 5] (Some (fun _ => tt)); Toy.ppo_worker [3; 1] None]
              ltac:(lia))
    as [Hsome Hafter].
  destruct (Hsome 2%nat) as [outs Hrun].
  { intros l [->|[->|[]%elem_of_nil]%elem_of_cons]%elem_of_cons; reflexivity. }
  { intros l _ _. exact two_workers_loggable. }
  exists outs. split; [exact Hrun|]. intros r out Hr.
  destruct (Hafter outs Hrun) as [Hlen Hout].
  destruct r as [|[|r]].
  - exact (proj1 (Hout 0%nat _ out eq_refl Hr)).
  - exact (proj1 (Hout 1%nat _ out eq_refl Hr)).
  - apply lookup_lt_Some in Hr. cbn in Hlen. lia.
Defined.

(** With the cap at zero the loop does not stop at the cap: one worker, two
    batches, two tuples returned where min(2, 0) = 0. *)
Lemma mpi_ppo_result_length_counterexample :
  let l := Toy.ppo_worker [1; 3] None in
  exists out,
    mpiexec (mpi_ppo_on Toy.ppo (Toy.optimizer float32) 0) [l] = Some [out]
    /\ length (result out) = 2%nat
    /\ length (result out)
       <> (length (model_batches Toy.ppo (local_rollouts l) (local_batch_size l))
             `min` Z.to_nat 0)%nat.
Proof.
  cbn zeta.
  destruct (mpi_ppo_returns Toy.ppo (Toy.optimizer float32) 0
              [Toy.ppo_worker [1; 3] None] 2%nat) as [outs Hrun].
  { intros l ->%list_elem_of_singleton. reflexivity. }
  { intros l [= <-] [f Hf]. discriminate Hf. }
  pose proof (mpiexec_length _ _ _ Hrun) as Hlen.
  destruct outs as [|out [|]]; [done| |done].
  exists out. split; [exact Hrun|].
  destruct (mpi_ppo_after Toy.ppo (Toy.optimizer float32) 0
              [Toy.ppo_worker [1; 3] None] [out] 0%nat _ out Hrun eq_refl eq_refl)
    as (Hres & _).
  split; [exact Hres|]. rewrite Hres. discriminate.
Qed.

Lemma mpi_ppo_logs_on_root_witness :
  exists outs,
    mpiexec (mpi_ppo_on Toy.ppo (Toy.optimizer float32) 2)
      [Toy.ppo_worker [1; 3; 5] (Some (fun _ => tt));
       Toy.ppo_worker [3; 1] (Some (fun _ => tt))]
    = Some outs
    /\ (forall out, outs !! 0%nat = Some out -> length (logged out) = 2%nat)
    /\ (forall out, outs !! 1%nat = Some out -> logged out = []).
Proof.
  destruct (mpi_ppo_logs_on_root Toy.ppo (Toy.optimizer float32) 2
              [Toy.ppo_worker [1; 3; 5] (Some (fun _ => tt));
               Toy.ppo_worker [3; 1] (Some (fun _ => tt))])
    as [Hsome Hafter].
  destruct (Hsome 2%nat) as [outs Hrun].
  { intros l [->|[->|[]%elem_of_nil]%elem_of_cons]%elem_of_cons; reflexivity. }
  { intros l _ _. vm_compute. reflexivity. }
  exists outs. split; [exact Hrun|]. split.
  - intros out Hr.
    apply (proj1 (proj2 (proj2 (Hafter outs Hrun 0%nat _ out eq_refl Hr))
                    eq_refl ltac:(by eexists))).
  - intros out Hr. by apply (proj1 (Hafter outs Hrun 1%nat _ out eq_refl Hr)).
Defined.

End Examples.

(** * The further properties at work *)

Section Instances.
#[local] Existing Instance IEEE754.arith.
#[local] Existing Instance Toy.tensorflow.
#[local] Existing Instance Reductions.neighbours_first.

Lemma minimize_terms_mismatch_witness :
  mpiexec (fun comm l =>
             MPIOptimizer.minimize comm (Toy.optimizer float32) l.1.1 l.1.2 l.2)
    [(Toy.worker float32 (IEEE754.of_int float32 0) (IEEE754.of_int float32 1),
      Some [Toy.term 10]);
     (Toy.worker float32 (IEEE754.of_int float32 0) (IEEE754.of_int float32 3), None)]
  = None.
Proof.
  apply (minimize_terms_mismatch (Toy.optimizer float32)
           [(Toy.worker float32 (IEEE754.of_int float32 0) (IEEE754.of_int float32 1),
             Some [Toy.term 10]);
            (Toy.worker float32 (IEEE754.of_int float32 0) (IEEE754.of_int float32 3),
             None)]
           0%nat 1%nat _ _ eq_refl eq_refl).
  cbn. lia.
Defined.

Lemma mpi_ppo_mismatch_witness :
  mpiexec (mpi_ppo_on Toy.ppo (Toy.optimizer float32) 12)
    [Toy.ppo_worker [1; 3] None; Toy.ppo_worker [1] None]
  = None.
Proof.
  apply (mpi_ppo_mismatch Toy.ppo (Toy.optimizer float32) 12
           [Toy.ppo_worker [1; 3] None; Toy.ppo_worker [1] None] 0%nat 1%nat _ _
           eq_refl eq_refl).
  change (2%nat <> 1%nat). lia.
Defined.

Lemma sync_leaves_other_entries_witness :
  exists after sess,
    mpiexec (fun comm sess =>
               _VarSync.sync comm
                 (_VarSync.__init__ (Toy.graph float32) [Toy.w float32]).2 sess)
      [ {[ 1%positive := Toy.f32 5 ]};
        <[7%positive := Toy.f32 9]> {[ 1%positive := Toy.f32 0 ]} ]
    = Some after
    /\ after !! 1%nat = Some sess
    /\ sess !! 1%positive = Some (Toy.f32 5)
    /\ sess !! 7%positive = Some (Toy.f32 9).
Proof.
  exists [ {[ 1%positive := Toy.f32 5 ]};
           <[7%positive := Toy.f32 9]> {[ 1%positive := Toy.f32 5 ]} ],
         (<[7%positive := Toy.f32 9]> {[ 1%positive := Toy.f32 5 ]}).
  assert (Hrun :
    mpiexec (fun comm sess =>
               _VarSync.sync comm
                 (_VarSync.__init__ (Toy.graph float32) [Toy.w float32]).2 sess)
      [ {[ 1%positive := Toy.f32 5 ]};
        <[7%positive := Toy.f32 9]> {[ 1%positive := Toy.f32 0 ]} ]
    = Some [ {[ 1%positive := Toy.f32 5 ]};
             <[7%positive := Toy.f32 9]> {[ 1%positive := Toy.f32 5 ]} ])
    by reflexivity.
  split; [exact Hrun|]. split; [reflexivity|]. split; [reflexivity|].
  etrans; [|exact (eq_refl : (<[7%positive := Toy.f32 9]> {[ 1%positive := Toy.f32 0 ]}
                               : gmap positive ndarray) !! 7%positive = Some (Toy.f32 9))].
  apply (sync_leaves_other_entries (Toy.graph float32) [Toy.w float32]
           [ {[ 1%positive := Toy.f32 5 ]};
             <[7%positive := Toy.f32 9]> {[ 1%positive := Toy.f32 0 ]} ]
           [ {[ 1%positive := Toy.f32 5 ]};
             <[7%positive := Toy.f32 9]> {[ 1%positive := Toy.f32 5 ]} ] Hrun
           1%nat _ _ 7%positive eq_refl eq_refl).
  intros Hin%list_elem_of_singleton. discriminate Hin.
Defined.

Lemma sync_twice_witness :
  mpiexec (fun comm sess =>
             _VarSync.sync comm
               (_VarSync.__init__ (Toy.graph float32) [Toy.w float32]).2 sess)
    [ {[ 1%positive := Toy.f32 5 ]}; {[ 1%positive := Toy.f32 5 ]} ]
  = Some [ {[ 1%positive := Toy.f32 5 ]}; {[ 1%positive := Toy.f32 5 ]} ].
Proof.
  apply (sync_twice (Toy.graph float32) [Toy.w float32]
           [ {[ 1%positive := Toy.f32 5 ]}; {[ 1%positive := Toy.f32 0 ]} ]).
  reflexivity.
Defined.

Lemma sync_from_root_aligns_witness :
  exists after sess,
    mpiexec (fun comm sess =>
               MPIOptimizer.sync_from_root comm (Toy.optimizer float32) sess)
      [ {[ 1%positive := Toy.f32 5 ]}; {[ 1%positive := Toy.f32 0 ]} ] = Some after
    /\ after !! 1%nat = Some sess
    /\ sess !! 1%positive = Some (Toy.f32 5).
Proof.
  exists [ {[ 1%positive := Toy.f32 5 ]}; {[ 1%positive := Toy.f32 5 ]} ],
         {[ 1%positive := Toy.f32 5 ]}.
  assert (Hrun :
    mpiexec (fun comm sess =>
               MPIOptimizer.sync_from_root comm (Toy.optimizer float32) sess)
      [ {[ 1%positive := Toy.f32 5 ]}; {[ 1%positive := Toy.f32 0 ]} ]
    = Some [ {[ 1%positive := Toy.f32 5 ]}; {[ 1%positive := Toy.f32 5 ]} ])
    by reflexivity.
  split; [exact Hrun|]. split; [reflexivity|].
  apply (sync_from_root_aligns (Toy.graph float32) Toy.gradient_descent Toy.loss None
           {[ 1%positive := Toy.f32 5 ]} [ {[ 1%positive := Toy.f32 0 ]} ]
           [ {[ 1%positive := Toy.f32 5 ]}; {[ 1%positive := Toy.f32 5 ]} ]
           Hrun 1%nat _ (Toy.w float32) eq_refl).
  left. eexists. apply list_elem_of_here.
Defined.

(** Four workers with the float32 gradients 1e8, 1, -1e8 and 1: every
    placeholder is fed the mean of the four as the library adds them, which
    is 0 where neighbouring ranks are added first. *)
Lemma minimize_float32_gradients_witness :
  let gradients := IEEE754.of_int float32 <$> [100000000; 1; -100000000; 1] in
  let locals := Toy.worker float32 (IEEE754.of_int float32 0) <$> gradients in
  exists outs,
    mpiexec (fun comm l => MPIOptimizer.minimize comm (Toy.optimizer float32) l.1 l.2 None)
      locals = Some outs
    /\ length outs = 4%nat
    /\ (forall r out, outs !! r = Some out ->
          exists mean order,
            MPIOptimizer.fed out !! 3%positive = Some mean
            /\ dtype_of mean = float32
            /\ ranks order ≡ₚ [0; 1; 2; 3]%nat
            /\ data mean !! 0%nat = mean_of float32 order gradients)
    /\ Forall (fun out => data <$> MPIOptimizer.fed out !! 3%positive
                          = Some [S754_zero false]) outs.
Proof.
  cbn zeta.
  destruct (@minimize_float32_gradients IEEE754.arith Toy.tensorflow _ IEEE754_cast_exact
              (Toy.graph float32) Toy.gradient_descent Toy.loss None None
              [Toy.worker float32 (IEEE754.of_int float32 0)
                 (IEEE754.of_int float32 100000000);
               Toy.worker float32 (IEEE754.of_int float32 0) (IEEE754.of_int float32 1);
               Toy.worker float32 (IEEE754.of_int float32 0)
                 (IEEE754.of_int float32 (-100000000));
               Toy.worker float32 (IEEE754.of_int float32 0) (IEEE754.of_int float32 1)]
              0%nat {| t_id := 2; t_dtype := float32; t_shape := [] |}
              {| t_id := 3; t_dtype := float32; t_shape := [] |}
              eq_refl eq_refl)
    as (outs & Hrun & Hlen & Hfed).
  { intros l [->|[->|[->|[->|[]%elem_of_nil]%elem_of_cons]%elem_of_cons]%elem_of_cons]
             %elem_of_cons;
      (split; [reflexivity|split; [reflexivity|repeat constructor]]). }
  exists outs. split; [exact Hrun|]. split; [exact Hlen|]. split.
  - intros r out Hr. destruct (Hfed r out Hr) as (mean & Hmean & Hd & _ & Hj).
    destruct (Hj 0%nat _ eq_refl) as (order & Hranks & Hdata).
    by exists mean, order.
  - rewrite minimize_mpiexec in Hrun. injection Hrun as <-.
    repeat constructor.
Defined.

Lemma minimize_keeps_workers_aligned_witness :
  exists outs,
    mpiexec (fun comm l => MPIOptimizer.minimize comm (Toy.optimizer float32) l.1 l.2 None)
      [Toy.worker float32 (IEEE754.of_int float32 0) (IEEE754.of_int float32 1);
       Toy.worker float32 (IEEE754.of_int float32 0) (IEEE754.of_int float32 3)]
    = Some outs
    /\ length outs = 2%nat
    /\ forall r r' out out', outs !! r = Some out -> outs !! r' = Some out' ->
         MPIOptimizer.session out = MPIOptimizer.session out'.
Proof.
  apply (minimize_keeps_workers_aligned (Toy.graph float32) Toy.gradient_descent
           Toy.loss None None
           [Toy.worker float32 (IEEE754.of_int float32 0) (IEEE754.of_int float32 1);
            Toy.worker float32 (IEEE754.of_int float32 0) (IEEE754.of_int float32 3)]).
  - intros sess fd fd' Hfd.
    change (Toy.descend sess fd ({| t_id := 3; t_dtype := float32; t_shape := [] |},
                                 Toy.w float32)
            = Toy.descend sess fd' ({| t_id := 3; t_dtype := float32; t_shape := [] |},
                                    Toy.w float32)).
    pose proof (Hfd {| t_id := 3; t_dtype := float32; t_shape := [] |}
                  (list_elem_of_here _ _)) as Hph.
    unfold Toy.descend. cbn [fst snd t_id] in *. by rewrite Hph.
  - intros l l' [->|[->|[]%elem_of_nil]%elem_of_cons]%elem_of_cons
      [->|[->|[]%elem_of_nil]%elem_of_cons]%elem_of_cons;
      (split; [reflexivity|]);
      intros grad ->%list_elem_of_singleton; reflexivity.
Defined.

Lemma mpi_ppo_without_cap_witness :
  exists outs,
    mpiexec (mpi_ppo_on Toy.ppo (Toy.optimizer float32) (-1))
      [Toy.ppo_worker [1; 3; 5] None; Toy.ppo_worker [3; 1; 5] None]
    = Some outs
    /\ forall r out, outs !! r = Some out -> length (result out) = 3%nat.
Proof.
  destruct (mpi_ppo_without_cap Toy.ppo (Toy.optimizer float32) (-1)
              [Toy.ppo_worker [1; 3; 5] None; Toy.ppo_worker [3; 1; 5] None]
              ltac:(lia))
    as [Hsome Hafter].
  destruct (Hsome 3%nat) as [outs Hrun].
  { intros l [->|[->|[]%elem_of_nil]%elem_of_cons]%elem_of_cons; reflexivity. }
  { intros l [= <-] [f Hf]. discriminate Hf. }
  exists outs. split; [exact Hrun|]. intros r out Hr.
  pose proof (mpiexec_length _ _ _ Hrun) as Hlen.
  destruct r as [|[|r]].
  - exact (Hafter outs Hrun 0%nat _ out eq_refl Hr).
  - exact (Hafter outs Hrun 1%nat _ out eq_refl Hr).
  - apply lookup_lt_Some in Hr. cbn in Hlen. lia.
Defined.

Lemma mpi_ppo_logs_each_batch_witness :
  exists outs,
    mpiexec (mpi_ppo_on Toy.ppo (Toy.optimizer float32) 2)
      [Toy.ppo_worker [1; 3; 5] (Some (fun _ => tt)); Toy.ppo_worker [3; 1] None]
    = Some outs
    /\ forall out msg, outs !! 0%nat = Some out -> logged out !! 1%nat = Some msg ->
         log_batch msg = 1.
Proof.
  destruct (mpi_ppo_returns Toy.ppo (Toy.optimizer float32) 2
              [Toy.ppo_worker [1; 3; 5] (Some (fun _ => tt)); Toy.ppo_worker [3; 1] None]
              2%nat) as [outs Hrun].
  { intros l [->|[->|[]%elem_of_nil]%elem_of_cons]%elem_of_cons; reflexivity. }
  { intros l _ _. exact two_workers_loggable. }
  exists outs. split; [exact Hrun|]. intros out msg Hout Hmsg.
  destruct (mpi_ppo_logs_each_batch Toy.ppo (Toy.optimizer float32) 2
              [Toy.ppo_worker [1; 3; 5] (Some (fun _ => tt)); Toy.ppo_worker [3; 1] None]
              outs Hrun _ out eq_refl Hout ltac:(by eexists) 1%nat msg Hmsg)
    as (terms & _ & Hbatch & _).
  exact Hbatch.
Defined.

Lemma mpi_ppo_same_results_witness :
  exists outs,
    mpiexec (mpi_ppo_on Toy.ppo (Toy.optimizer float32) 2)
      [Toy.ppo_worker [1; 3; 5] (Some (fun _ => tt)); Toy.ppo_worker [3; 1] None]
    = Some outs
    /\ forall out out', outs !! 0%nat = Some out -> outs !! 1%nat = Some out' ->
         result out = result out'.
Proof.
  destruct (mpi_ppo_returns Toy.ppo (Toy.optimizer float32) 2
              [Toy.ppo_worker [1; 3; 5] (Some (fun _ => tt)); Toy.ppo_worker [3; 1] None]
              2%nat) as [outs Hrun].
  { intros l [->|[->|[]%elem_of_nil]%elem_of_cons]%elem_of_cons; reflexivity. }
  { intros l _ _. exact two_workers_loggable. }
  exists outs. split; [exact Hrun|]. intros out out' Hout Hout'.
  exact (mpi_ppo_same_results Toy.ppo (Toy.optimizer float32) 2
           [Toy.ppo_worker [1; 3; 5] (Some (fun _ => tt)); Toy.ppo_worker [3; 1] None]
           outs Hrun 0%nat 1%nat out out' Hout Hout').
Defined.

Lemma mpi_ppo_first_tuple_witness :
  exists outs,
    mpiexec (mpi_ppo_on Toy.ppo (Toy.optimizer float32) 2)
      [Toy.ppo_worker [1; 3; 5] (Some (fun _ => tt)); Toy.ppo_worker [3; 1] None]
    = Some outs
    /\ forall out terms, outs !! 1%nat = Some out -> result out !! 0%nat = Some terms ->
         data <$> terms
         = [[Toy.tenths float32 2]; [Toy.tenths float32 2]; [Toy.tenths float32 2];
            [Toy.tenths float32 2]].
Proof.
  destruct (mpi_ppo_returns Toy.ppo (Toy.optimizer float32) 2
              [Toy.ppo_worker [1; 3; 5] (Some (fun _ => tt)); Toy.ppo_worker [3; 1] None]
              2%nat) as [outs Hrun].
  { intros l [->|[->|[]%elem_of_nil]%elem_of_cons]%elem_of_cons; reflexivity. }
  { intros l _ _. exact two_workers_loggable. }
  exists outs. split; [exact Hrun|]. intros out terms Hout Hterms.
  destruct (mpi_ppo_first_tuple Toy.ppo (Toy.optimizer float32) 2
              [Toy.ppo_worker [1; 3; 5] (Some (fun _ => tt)); Toy.ppo_worker [3; 1] None]
              outs Hrun 1%nat out terms Hout Hterms) as [-> _].
  vm_compute. reflexivity.
Defined.

Lemma mpi_ppo_keeps_workers_aligned_witness :
  exists outs,
    mpiexec (mpi_ppo_on Toy.ppo (Toy.optimizer float32) 2)
      [Toy.ppo_worker [1; 3; 5] (Some (fun _ => tt)); Toy.ppo_worker [3; 1] None]
    = Some outs
    /\ forall out out', outs !! 0%nat = Some out -> outs !! 1%nat = Some out' ->
         model_session out = model_session out'.
Proof.
  destruct (mpi_ppo_returns Toy.ppo (Toy.optimizer float32) 2
              [Toy.ppo_worker [1; 3; 5] (Some (fun _ => tt)); Toy.ppo_worker [3; 1] None]
              2%nat) as [outs Hrun].
  { intros l [->|[->|[]%elem_of_nil]%elem_of_cons]%elem_of_cons; reflexivity. }
  { intros l _ _. exact two_workers_loggable. }
  exists outs. split; [exact Hrun|]. intros out out' Hout Hout'.
  refine (mpi_ppo_keeps_workers_aligned (Toy.graph float32) Toy.gradient_descent
            Toy.loss None Toy.ppo 2
            [Toy.ppo_worker [1; 3; 5] (Some (fun _ => tt)); Toy.ppo_worker [3; 1] None]
            _ _ _ outs Hrun 0%nat 1%nat out out' Hout Hout').
  - intros sess fd fd' Hfd.
    change (Toy.descend sess fd ({| t_id := 3; t_dtype := float32; t_shape := [] |},
                                 Toy.w float32)
            = Toy.descend sess fd' ({| t_id := 3; t_dtype := float32; t_shape := [] |},
                                    Toy.w float32)).
    pose proof (Hfd {| t_id := 3; t_dtype := float32; t_shape := [] |}
                  (list_elem_of_here _ _)) as Hph.
    unfold Toy.descend. cbn [fst snd t_id] in *. by rewrite Hph.
  - intros l batch sess grad Hl Hbatch Hgrad.
    apply list_elem_of_singleton in Hgrad. subst grad.
    apply elem_of_cons in Hl as [->|Hl].
    + change (batch ∈ [Toy.batch 1; Toy.batch 3; Toy.batch 5]) in Hbatch.
      apply elem_of_cons in Hbatch
        as [->|[->|[->|[]%elem_of_nil]%elem_of_cons]%elem_of_cons]; reflexivity.
    + apply list_elem_of_singleton in Hl. subst l.
      change (batch ∈ [Toy.batch 3; Toy.batch 1]) in Hbatch.
      apply elem_of_cons in Hbatch as [->|[->|[]%elem_of_nil]%elem_of_cons]; reflexivity.
  - intros l l' [->|[->|[]%elem_of_nil]%elem_of_cons]%elem_of_cons
      [->|[->|[]%elem_of_nil]%elem_of_cons]%elem_of_cons; reflexivity.
Defined.

End Instances.
